(** * readme-generator-for-helm (Go port): metadata reconciliation and rendering

    A shallow embedding of [main.go].  Go strings are byte strings
    ([string], one [ascii] per byte, so [String.length] is Go's [len]);
    [interface{}] values are the tagged type [Any]; [*Parameter] and
    [*Section] are addresses into an explicit heap, so that the in-place
    updates of the merger and of the modifier engine are seen by every list
    that holds the pointer; slices are lists passed by value, as a Go slice
    header is. *)

From Stdlib Require Import Ascii DecimalString ZArith.
From Stdlib Require String.
From stdpp Require Import base option list strings gmap sorting.

Local Open Scope stdpp_scope.

(** ** Byte-string helpers: the parts of package [strings] the program uses *)

Module Strs.

Definition eqb : string -> string -> bool := String.eqb.

(** [strings.HasPrefix(s, p)] *)
Definition HasPrefix (s p : string) : bool := String.prefix p s.

(** [strings.Index(s, c)] for a one-byte needle: [None] is Go's [-1]. *)
Fixpoint IndexByte (s : string) (c : ascii) : option nat :=
  match s with
  | EmptyString => None
  | String a s' => if Ascii.eqb a c then Some 0 else S <$> IndexByte s' c
  end.

(** [s[:n]] for [n <= len(s)] *)
Fixpoint take (n : nat) (s : string) : string :=
  match n, s with
  | S n', String a s' => String a (take n' s')
  | _, _ => EmptyString
  end.

(** [s[n:]] for [n <= len(s)] *)
Fixpoint drop (n : nat) (s : string) : string :=
  match n, s with
  | S n', String _ s' => drop n' s'
  | _, _ => s
  end.

(** [strings.TrimPrefix(s, p)] *)
Definition TrimPrefix (s p : string) : string :=
  if HasPrefix s p then drop (String.length p) s else s.

(** [strings.Repeat(string(c), n)] *)
Fixpoint Repeat (c : ascii) (n : nat) : string :=
  match n with
  | 0 => EmptyString
  | S n' => String c (Repeat c n')
  end.

(** Dropping the leading bytes that satisfy [f]. *)
Fixpoint dropWhile (f : ascii -> bool) (s : string) : string :=
  match s with
  | EmptyString => EmptyString
  | String a s' => if f a then dropWhile f s' else s
  end.

Definition dropWhileEnd (f : ascii -> bool) (s : string) : string :=
  String.rev (dropWhile f (String.rev s)).

Definition inSet (cutset : string) (a : ascii) : bool :=
  bool_decide (is_Some (IndexByte cutset a)).

(** [strings.TrimRight(s, cutset)] and [strings.Trim(s, cutset)] for an
    ASCII cutset. *)
Definition TrimRight (s cutset : string) : string :=
  dropWhileEnd (inSet cutset) s.
Definition Trim (s cutset : string) : string :=
  dropWhileEnd (inSet cutset) (dropWhile (inSet cutset) s).

(** Number of bytes of the white-space rune ([unicode.IsSpace]) that [s]
    starts with, 0 when it starts with none.  Beyond the six ASCII ones
    these are U+0085, U+00A0, U+1680, U+2000..U+200A, U+2028, U+2029,
    U+202F, U+205F and U+3000 in their UTF-8 encodings. *)
Definition spaceRune (s : string) : nat :=
  match s with
  | String a r =>
    if inSet (String "009" (String "010" (String "011"
             (String "012" (String "013" " "))))) a then 1
    else match N_of_ascii a, r with
    | 194%N, String b _ =>
      if bool_decide (N_of_ascii b = 133%N \/ N_of_ascii b = 160%N)
      then 2 else 0
    | 225%N, String b (String c _) =>
      if bool_decide (N_of_ascii b = 154%N /\ N_of_ascii c = 128%N)
      then 3 else 0
    | 226%N, String b (String c _) =>
      if bool_decide ((N_of_ascii b = 128%N /\
                         ((128 <= N_of_ascii c <= 138)%N \/
                          N_of_ascii c = 168%N \/ N_of_ascii c = 169%N \/
                          N_of_ascii c = 175%N)) \/
                      (N_of_ascii b = 129%N /\ N_of_ascii c = 159%N))
      then 3 else 0
    | 227%N, String b (String c _) =>
      if bool_decide (N_of_ascii b = 128%N /\ N_of_ascii c = 128%N)
      then 3 else 0
    | _, _ => 0
    end
  | EmptyString => 0
  end.

(** The same for the rune [s] ends with, [r] being [s] reversed. *)
Definition spaceRuneRev (r : string) : nat :=
  match r with
  | String a _ =>
    if bool_decide (0 < spaceRune (String a EmptyString)) then 1
    else match r with
    | String c (String b (String a3 _)) =>
      if bool_decide (spaceRune (String a3 (String b (String c EmptyString))) = 3)
      then 3
      else if bool_decide (spaceRune (String b (String c EmptyString)) = 2)
      then 2 else 0
    | String c (String b _) =>
      if bool_decide (spaceRune (String b (String c EmptyString)) = 2)
      then 2 else 0
    | _ => 0
    end
  | EmptyString => 0
  end.

Fixpoint trimLeftSpace (fuel : nat) (s : string) : string :=
  match fuel with
  | 0 => s
  | S f => match spaceRune s with
           | 0 => s
           | n => trimLeftSpace f (drop n s)
           end
  end.

Fixpoint trimRightSpaceRev (fuel : nat) (r : string) : string :=
  match fuel with
  | 0 => r
  | S f => match spaceRuneRev r with
           | 0 => r
           | n => trimRightSpaceRev f (drop n r)
           end
  end.

(** [strings.TrimSpace(s)]; a string of [n] bytes holds at most [n] runes,
    which bounds both loops. *)
Definition TrimSpace (s : string) : string :=
  let l := trimLeftSpace (String.length s) s in
  String.rev (trimRightSpaceRev (String.length l) (String.rev l)).

(** [strings.Split(s, sep)] for a one-byte separator: the pieces between
    the separators, [n+1] of them for [n] separators. *)
Fixpoint splitGo (sep : ascii) (cur : string) (s : string) : list string :=
  match s with
  | EmptyString => [String.rev cur]
  | String a s' =>
    if Ascii.eqb a sep then String.rev cur :: splitGo sep EmptyString s'
    else splitGo sep (String a cur) s'
  end.
Definition Split (s : string) (sep : ascii) : list string :=
  splitGo sep EmptyString s.

(** [strings.Join(l, sep)] *)
Definition Join (l : list string) (sep : string) : string :=
  String.concat sep l.

(** [fmt.Sprintf("%d", n)] for a non-negative [n] *)
Definition itoa (n : nat) : string :=
  NilZero.string_of_uint (Nat.to_uint n).

(** Go's [<] on strings: bytewise lexicographic order. *)
Definition ltb : string -> string -> bool := String.ltb.

End Strs.

(** ** Dynamically typed values

    What [yaml.Unmarshal] stores in an [interface{}], by dynamic type.  The
    constructors are the cases of the type switches of [inferType] and
    [flattenYAML]; [VOther] stands for every dynamic type that no case
    names (the decoder's [uint64] and [time.Time], for instance, and a map
    whose keys are no strings), by the name of the type only.  A Go map
    is carried as its entries in one iteration order; a [float64] as its 64
    bits. *)

#[warnings="-register-all"]
Inductive Any : Type :=
| VNil
| VString (s : string)
| VBool (b : bool)
| VInt (n : Z)
| VInt64 (n : Z)
| VFloat64 (bits : Z)
| VSlice (l : list Any)
| VMap (m : list (string * Any))
| VOther (dynType : string).

(** [v == nil] on an interface value *)
Definition isNil (v : Any) : bool :=
  match v with VNil => true | _ => false end.

(** ** Parameter, Section, Metadata *)

Record ParameterT : Type := mkParameter {
  Name : string;
  Description : string;
  Value : Any;
  Type_ : string;
  Modifiers : list string;
  Section_ : string;
  Validate : bool;
  Readme : bool;
  Schema : bool
}.

Definition NewParameter (name : string) : ParameterT :=
  {| Name := name; Description := ""; Value := VNil; Type_ := "";
     Modifiers := []; Section_ := "";
     Validate := true; Readme := true; Schema := true |}.

Definition withValue (v : Any) (p : ParameterT) : ParameterT :=
  {| Name := Name p; Description := Description p; Value := v;
     Type_ := Type_ p; Modifiers := Modifiers p; Section_ := Section_ p;
     Validate := Validate p; Readme := Readme p; Schema := Schema p |}.

Definition withType (t : string) (p : ParameterT) : ParameterT :=
  {| Name := Name p; Description := Description p; Value := Value p;
     Type_ := t; Modifiers := Modifiers p; Section_ := Section_ p;
     Validate := Validate p; Readme := Readme p; Schema := Schema p |}.

Definition withDescription (d : string) (p : ParameterT) : ParameterT :=
  {| Name := Name p; Description := d; Value := Value p;
     Type_ := Type_ p; Modifiers := Modifiers p; Section_ := Section_ p;
     Validate := Validate p; Readme := Readme p; Schema := Schema p |}.

Definition withModifiers (ms : list string) (p : ParameterT) : ParameterT :=
  {| Name := Name p; Description := Description p; Value := Value p;
     Type_ := Type_ p; Modifiers := ms; Section_ := Section_ p;
     Validate := Validate p; Readme := Readme p; Schema := Schema p |}.

Definition withSection (s : string) (p : ParameterT) : ParameterT :=
  {| Name := Name p; Description := Description p; Value := Value p;
     Type_ := Type_ p; Modifiers := Modifiers p; Section_ := s;
     Validate := Validate p; Readme := Readme p; Schema := Schema p |}.

Definition withSchema (b : bool) (p : ParameterT) : ParameterT :=
  {| Name := Name p; Description := Description p; Value := Value p;
     Type_ := Type_ p; Modifiers := Modifiers p; Section_ := Section_ p;
     Validate := Validate p; Readme := Readme p; Schema := b |}.

Definition withFlags (validate readme : bool) (p : ParameterT) : ParameterT :=
  {| Name := Name p; Description := Description p; Value := Value p;
     Type_ := Type_ p; Modifiers := Modifiers p; Section_ := Section_ p;
     Validate := validate; Readme := readme; Schema := Schema p |}.

Definition HasModifier (p : ParameterT) (m : string) : bool :=
  existsb (fun mm => Strs.eqb mm m) (Modifiers p).

Definition SetExtra (b : bool) (p : ParameterT) : ParameterT :=
  if b then withFlags false true p else p.

Definition Extra (p : ParameterT) : bool := negb (Validate p) && Readme p.

Definition SetSkip (b : bool) (p : ParameterT) : ParameterT :=
  if b then withFlags false false p else withFlags true true p.

Definition Skip (p : ParameterT) : bool := negb (Validate p) && negb (Readme p).

(** Addresses of [Parameter] and [Section] objects. *)
Definition ptr := nat.

Record SectionT : Type := mkSection {
  SecName : string;
  DescriptionLines : list string;
  SecParameters : list ptr
}.

(** [Section.Description] *)
Definition SecDescription (s : SectionT) : string :=
  Strs.Join (DescriptionLines s) (String "013" (String "010" "")).

Record Metadata : Type := mkMetadata {
  Sections : list ptr;
  Parameters : list ptr
}.

Definition AddSection (m : Metadata) (sec : ptr) : Metadata :=
  {| Sections := Sections m ++ [sec]; Parameters := Parameters m |}.
Definition AddParameter (m : Metadata) (p : ptr) : Metadata :=
  {| Sections := Sections m; Parameters := Parameters m ++ [p] |}.

(** ** Config *)

Record Config : Type := mkConfig {
  CommentsFormat : string;
  TagParam : string;
  TagSection : string;
  TagDescriptionStart : string;
  TagDescriptionEnd : string;
  TagSkip : string;
  TagExtra : string;
  ParamsSectionTitle : string;
  ModArray : string;
  ModObject : string;
  ModString : string;
  ModNullable : string;
  ModDefault : string
}.

Definition defaultConfig : Config :=
  {| CommentsFormat := "##";
     TagParam := "@param";
     TagSection := "@section";
     TagDescriptionStart := "@descriptionStart";
     TagDescriptionEnd := "@descriptionEnd";
     TagSkip := "@skip";
     TagExtra := "@extra";
     ParamsSectionTitle := "Parameters";
     ModArray := "array";
     ModObject := "object";
     ModString := "string";
     ModNullable := "nullable";
     ModDefault := "default" |}.

(** ** The heap, the file system and the program's output *)

Record World : Type := mkWorld {
  params : list ParameterT;      (* the [Parameter] objects, by address *)
  sections : list SectionT;     (* the [Section] objects, by address *)
  files : gmap string string;   (* path -> contents *)
  stdout : list string          (* lines printed so far *)
}.

Definition setParams (ps : list ParameterT) (w : World) : World :=
  {| params := ps; sections := sections w; files := files w; stdout := stdout w |}.
Definition setSections (ss : list SectionT) (w : World) : World :=
  {| params := params w; sections := ss; files := files w; stdout := stdout w |}.
Definition setFiles (fs : gmap string string) (w : World) : World :=
  {| params := params w; sections := sections w; files := fs; stdout := stdout w |}.
Definition setStdout (out : list string) (w : World) : World :=
  {| params := params w; sections := sections w; files := files w; stdout := out |}.

(** How a call ends: with a value, with a Go [error], or in a panic. *)
Inductive outcome (A : Type) : Type :=
| Ret (a : A)
| Fail (err : string)
| Panic (msg : string).
Arguments Ret {A} a.
Arguments Fail {A} err.
Arguments Panic {A} msg.

Definition M (A : Type) : Type := World -> World * outcome A.

Definition ret {A} (a : A) : M A := fun w => (w, Ret a).
Definition fail {A} (e : string) : M A := fun w => (w, Fail e).
Definition panic {A} (e : string) : M A := fun w => (w, Panic e).
Definition bind {A B} (m : M A) (f : A -> M B) : M B :=
  fun w => match m w with
           | (w', Ret a) => f a w'
           | (w', Fail e) => (w', Fail e)
           | (w', Panic e) => (w', Panic e)
           end.

Notation "'let*' x ':=' m 'in' k" := (bind m (fun x => k))
  (at level 10, x name, m at level 100, k at level 200).
Notation "'exec' m 'in' k" := (bind m (fun _ => k))
  (at level 10, m at level 100, k at level 200).

Fixpoint forM_ {A} (l : list A) (f : A -> M unit) : M unit :=
  match l with
  | [] => ret tt
  | x :: l' => exec f x in forM_ l' f
  end.

(** [&Parameter{...}] *)
Definition newParam (p : ParameterT) : M ptr :=
  fun w => (setParams (params w ++ [p]) w, Ret (length (params w))).

(** Dereference; a nil or dangling pointer panics. *)
Definition getParam (a : ptr) : M ParameterT :=
  fun w => match params w !! a with
           | Some p => (w, Ret p)
           | None => (w, Panic "invalid memory address or nil pointer dereference")
           end.

(** In-place update of the object at [a]. *)
Definition modifyParam (a : ptr) (f : ParameterT -> ParameterT) : M unit :=
  let* p := getParam a in
  fun w => (setParams (<[a := f p]> (params w)) w, Ret tt).

Definition newSection (s : SectionT) : M ptr :=
  fun w => (setSections (sections w ++ [s]) w, Ret (length (sections w))).

Definition getSection (a : ptr) : M SectionT :=
  fun w => match sections w !! a with
           | Some s => (w, Ret s)
           | None => (w, Panic "invalid memory address or nil pointer dereference")
           end.

Definition modifySection (a : ptr) (f : SectionT -> SectionT) : M unit :=
  let* s := getSection a in
  fun w => (setSections (<[a := f s]> (sections w)) w, Ret tt).

(** [fmt.Println] / [fmt.Printf] of one line *)
Definition println (s : string) : M unit :=
  fun w => (setStdout (stdout w ++ [s]) w, Ret tt).

(** [ioutil.ReadFile]; the one failure modelled is a missing file. *)
Definition ReadFile (path : string) : M string :=
  fun w => match files w !! path with
           | Some c => (w, Ret c)
           | None => (w, Fail ("open " +:+ path +:+ ": no such file or directory"))
           end.

(** [ioutil.WriteFile]; the write itself is taken to succeed. *)
Definition WriteFile (path data : string) : M unit :=
  fun w => (setFiles (<[path := data]> (files w)) w, Ret tt).

(** The objects a list of pointers refers to.  Every pointer the program
    stores is an address [newParam] handed out, so none is left out. *)
Definition loadParams (w : World) (l : list ptr) : list ParameterT :=
  omap (fun a => params w !! a) l.

(** ** Flattening the values tree *)

(** [flattenYAML] writes into the map [out] it is handed; the entries of a Go
    map are visited in the order [VMap] carries them, so a path reached
    twice keeps the value written last. *)
Fixpoint flattenYAML (prefix : string) (v : Any) (out : gmap string Any)
    {struct v} : gmap string Any :=
  match v with
  | VMap kvs =>
    match kvs with
    | [] => if bool_decide (prefix <> "") then <[prefix := v]> out else out
    | _ =>
      (fix range (kvs : list (string * Any)) (out : gmap string Any) :=
         match kvs with
         | [] => out
         | (k, val) :: rest =>
           let key := if bool_decide (prefix <> "")
                      then prefix +:+ "." +:+ k else k in
           range rest (flattenYAML key val out)
         end) kvs out
    end
  | VSlice l =>
    match l with
    | [] => if bool_decide (prefix <> "") then <[prefix := v]> out else out
    | _ =>
      (fix range (i : nat) (l : list Any) (out : gmap string Any) :=
         match l with
         | [] => out
         | val :: rest =>
           let key := prefix +:+ "[" +:+ Strs.itoa i +:+ "]" in
           range (S i) rest (flattenYAML key val out)
         end) 0 l out
    end
  | _ => <[prefix := v]> out
  end.

Definition inferType (v : Any) : string :=
  match v with
  | VNil => "nil"
  | VString _ => "string"
  | VBool _ => "boolean"
  | VInt _ | VInt64 _ | VFloat64 _ => "number"
  | VSlice _ => "array"
  | VMap _ => "object"
  | VOther _ => "unknown"
  end.

(** [sort.Slice(params, less)]: insertion into a sorted list.  The names
    being sorted are the keys of one map, hence distinct, and a list of
    distinct keys has one sorted arrangement. *)
Fixpoint insertSorted {A} (less : A -> A -> bool) (x : A) (l : list A) : list A :=
  match l with
  | [] => [x]
  | y :: l' => if less y x then y :: insertSorted less x l' else x :: l
  end.
Definition sortSlice {A} (less : A -> A -> bool) (l : list A) : list A :=
  foldr (insertSorted less) [] l.

(** The parameter [createValuesObject] builds for one flattened entry. *)
Definition valueParam (kv : string * Any) : ParameterT :=
  withType (inferType kv.2) (withValue kv.2 (NewParameter kv.1)).

(** The loop over the flattened map: one new object per entry, its pointer
    appended to the slice [acc] (kept with the name it is sorted by). *)
Fixpoint allocValues (kvs : list (string * Any)) (acc : list (ptr * string))
    : M (list (ptr * string)) :=
  match kvs with
  | [] => ret acc
  | kv :: rest =>
    let* a := newParam (valueParam kv) in
    allocValues rest (acc ++ [(a, kv.1)])
  end.

(** The part of [createValuesObject] after the YAML document is decoded. *)
Definition valuesOfNode (node : Any) : M (list ptr) :=
  let m := flattenYAML EmptyString node ∅ in
  let* params := allocValues (map_to_list m) [] in
  ret (fst <$> sortSlice (fun x y => Strs.ltb x.2 y.2) params).

(** ** utils *)

Definition getArrayPrefix (path : string) : string :=
  match Strs.IndexByte path "[" with
  | None => path
  | Some idx => Strs.take idx path
  end.

Definition sanitizeProperty (path : string) : string :=
  if bool_decide (is_Some (Strs.IndexByte path "["))
  then getArrayPrefix path else path.

(** ** Regular expressions

    The patterns the parser compiles, and a backtracking matcher for them.
    Go's [regexp] returns the match a backtracking search finds first, so
    the submatches are the ones computed here.  All patterns are anchored
    at the start of the line. *)

Inductive regex : Type :=
| REps
| RSet (f : ascii -> bool)              (* one byte of a class *)
| RSeq (r1 r2 : regex)
| ROpt (r : regex)                      (* r? *)
| RStar (greedy : bool) (r : regex)     (* r* and r*? *)
| RGroup (i : nat) (r : regex)          (* the i-th capturing group *)
| REnd.                                 (* $ *)

Definition captures := list string.

Fixpoint rmatch (r : regex) (s : string) (caps : captures)
    (k : string -> captures -> option captures) {struct r} : option captures :=
  match r with
  | REps => k s caps
  | RSet f =>
    match s with
    | String a s' => if f a then k s' caps else None
    | EmptyString => None
    end
  | RSeq r1 r2 => rmatch r1 s caps (fun s' caps' => rmatch r2 s' caps' k)
  | ROpt r1 =>
    match rmatch r1 s caps k with
    | Some c => Some c
    | None => k s caps
    end
  | RStar greedy r1 =>
    (fix loop (n : nat) (s : string) (caps : captures) {struct n} :=
       match n with
       | 0 => k s caps
       | S n' =>
         let again (_ : unit) :=
           rmatch r1 s caps (fun s' caps' =>
             if bool_decide (String.length s' < String.length s)
             then loop n' s' caps' else None) in
         if greedy then
           match again tt with Some c => Some c | None => k s caps end
         else
           match k s caps with Some c => Some c | None => again tt end
       end) (String.length s) s caps
  | RGroup i r1 =>
    rmatch r1 s caps (fun s' caps' =>
      k s' (<[i := Strs.take (String.length s - String.length s') s]> caps'))
  | REnd =>
    match s with
    | EmptyString => k s caps
    | String _ _ => None
    end
  end.

(** [regexp.QuoteMeta(lit)] compiled: the bytes of [lit], literally. *)
Fixpoint rlit (lit : string) : regex :=
  match lit with
  | EmptyString => REps
  | String a l => RSeq (RSet (Ascii.eqb a)) (rlit l)
  end.

Definition rseq (l : list regex) : regex := foldr RSeq REps l.

(** The classes: a blank (tab, newline, form feed, carriage return, space), a
    non-blank, and the dot (any byte but newline). *)
Definition isSpaceByte (a : ascii) : bool :=
  Strs.inSet (String "009" (String "010" (String "012" (String "013" " ")))) a.
Definition rspace : regex := RSet isSpaceByte.
Definition rnonspace : regex := RSet (fun a => negb (isSpaceByte a)).
Definition rany : regex := RSet (fun a => negb (Ascii.eqb a "010")).
Definition rspaces : regex := RStar true rspace.

(** [FindStringSubmatch]: [None] when the line does not match, else the
    submatches, index 0 left unused, a group that took no part empty. *)
Definition FindStringSubmatch (r : regex) (line : string) : option captures :=
  rmatch r line ["" ; "" ; "" ; ""] (fun _ caps => Some caps).
Definition MatchString (r : regex) (line : string) : bool :=
  bool_decide (is_Some (FindStringSubmatch r line)).
Definition sub (caps : captures) (i : nat) : string := default "" (caps !! i).

(** [regParam] and [regExtra]: blanks, the comment prefix, blanks, the tag,
    blanks, group 1 of one or more non-blanks, blanks, optionally group 2 (an
    opening bracket, as few bytes as possible, a closing bracket), blanks,
    group 3 up to the end of the line. *)
Definition regNamed (fmt tag : string) : regex :=
  rseq [rspaces; rlit fmt; rspaces; rlit tag; rspaces;
        RGroup 1 (RSeq rnonspace (RStar true rnonspace)); rspaces;
        ROpt (RGroup 2 (rseq [RSet (Ascii.eqb "["); RStar false rany;
                              RSet (Ascii.eqb "]")]));
        rspaces; RGroup 3 (RStar true rany); REnd].

(** [regSection] and [regDescStart]: blanks, the comment prefix, blanks, the
    tag, blanks, group 1 up to the end of the line. *)
Definition regTitled (fmt tag : string) : regex :=
  rseq [rspaces; rlit fmt; rspaces; rlit tag; rspaces;
        RGroup 1 (RStar true rany); REnd].

Definition regParam (cfg : Config) := regNamed (CommentsFormat cfg) (TagParam cfg).
Definition regExtra (cfg : Config) := regNamed (CommentsFormat cfg) (TagExtra cfg).
Definition regSection (cfg : Config) := regTitled (CommentsFormat cfg) (TagSection cfg).
Definition regDescStart (cfg : Config) :=
  regTitled (CommentsFormat cfg) (TagDescriptionStart cfg).

(** [regDescEnd]: blanks, the comment prefix, blanks, the tag; anything may
    follow. *)
Definition regDescEnd (cfg : Config) : regex :=
  rseq [rspaces; rlit (CommentsFormat cfg); rspaces; rlit (TagDescriptionEnd cfg)].

(** [regDescContent]: blanks, the comment prefix, at most one blank, group 1
    the rest. *)
Definition regDescContent (cfg : Config) : regex :=
  rseq [rspaces; rlit (CommentsFormat cfg); ROpt rspace; RGroup 1 (RStar true rany)].

(** [regSkip]: blanks, the comment prefix, blanks, the tag, blanks, group 1
    of one or more non-blanks; anything may follow. *)
Definition regSkip (cfg : Config) : regex :=
  rseq [rspaces; rlit (CommentsFormat cfg); rspaces; rlit (TagSkip cfg); rspaces;
        RGroup 1 (RSeq rnonspace (RStar true rnonspace)); RStar true rany].

(** ** parseMetadataComments *)

(** The loop's variables: the metadata built so far, the open section
    ([None] is the nil pointer) and the description mode. *)
Record parserState : Type := mkParserState {
  psMeta : Metadata;
  psCurrent : option ptr;
  psDescriptionMode : bool
}.

(** The three lines shared by the [@param], [@skip] and [@extra] cases: the
    new parameter joins the open section, if any, and the global list. *)
Definition declare (st : parserState) (p : ParameterT) : M parserState :=
  match psCurrent st with
  | Some cur =>
    let* sec := getSection cur in
    let* a := newParam (withSection (SecName sec) p) in
    exec modifySection cur (fun s =>
           {| SecName := SecName s; DescriptionLines := DescriptionLines s;
              SecParameters := SecParameters s ++ [a] |}) in
    ret {| psMeta := AddParameter (psMeta st) a; psCurrent := psCurrent st;
           psDescriptionMode := psDescriptionMode st |}
  | None =>
    let* a := newParam p in
    ret {| psMeta := AddParameter (psMeta st) a; psCurrent := psCurrent st;
           psDescriptionMode := psDescriptionMode st |}
  end.

Definition appendDescription (st : parserState) (txt : string) : M parserState :=
  match psCurrent st with
  | Some cur =>
    exec modifySection cur (fun s =>
           {| SecName := SecName s; DescriptionLines := DescriptionLines s ++ [txt];
              SecParameters := SecParameters s |}) in
    ret st
  | None => ret st
  end.

(** The modifiers written between the brackets of a [@param] line. *)
Definition parseModifiers (bracketed : string) : list string :=
  let mods := Strs.Trim bracketed "[]" in
  if bool_decide (mods <> "") then Strs.TrimSpace <$> Strs.Split mods ","
  else [].

(** The [switch] on one line: the first case that matches is taken. *)
Definition parseLine (cfg : Config) (st : parserState) (trimmed : string)
    : M parserState :=
  match FindStringSubmatch (regSection cfg) trimmed with
  | Some sm =>
    let* cur := newSection {| SecName := Strs.TrimSpace (sub sm 1);
                              DescriptionLines := []; SecParameters := [] |} in
    ret {| psMeta := AddSection (psMeta st) cur; psCurrent := Some cur;
           psDescriptionMode := false |}
  | None =>
  match FindStringSubmatch (regDescStart cfg) trimmed with
  | Some sm =>
    let st' := {| psMeta := psMeta st; psCurrent := psCurrent st;
                  psDescriptionMode := true |} in
    if bool_decide (sub sm 1 <> "") then appendDescription st' (sub sm 1)
    else ret st'
  | None =>
  if psDescriptionMode st && MatchString (regDescEnd cfg) trimmed then
    ret {| psMeta := psMeta st; psCurrent := psCurrent st;
           psDescriptionMode := false |}
  else
  match (if psDescriptionMode st
         then FindStringSubmatch (regDescContent cfg) trimmed else None) with
  | Some sm => appendDescription st (sub sm 1)
  | None =>
  match FindStringSubmatch (regParam cfg) trimmed with
  | Some sm =>
    declare st (withDescription (sub sm 3)
                 (withModifiers (parseModifiers (sub sm 2))
                    (NewParameter (sub sm 1))))
  | None =>
  match FindStringSubmatch (regSkip cfg) trimmed with
  | Some sm => declare st (SetSkip true (NewParameter (sub sm 1)))
  | None =>
  match FindStringSubmatch (regExtra cfg) trimmed with
  | Some sm =>
    declare st (SetExtra true
                 (withValue (VString "")
                    (withDescription (sub sm 3) (NewParameter (sub sm 1)))))
  | None => ret st
  end end end end end end.

(** The lines [reader.ReadString] hands out are the pieces between the
    newlines, the last one (possibly empty) ending at EOF; each is then
    trimmed of its trailing carriage returns and newline. *)
Definition sourceLines (text : string) : list string :=
  (fun line => Strs.TrimRight line (String "013" (String "010" EmptyString)))
    <$> Strs.Split text "010".

Fixpoint parseLines (cfg : Config) (st : parserState) (lines : list string)
    : M parserState :=
  match lines with
  | [] => ret st
  | l :: rest => let* st' := parseLine cfg st l in parseLines cfg st' rest
  end.

Definition parseMetadataComments (valuesPath : string) (cfg : Config)
    : M Metadata :=
  let* text := ReadFile valuesPath in
  let* st := parseLines cfg
               {| psMeta := {| Sections := []; Parameters := [] |};
                  psCurrent := None; psDescriptionMode := false |}
               (sourceLines text) in
  ret (psMeta st).

(** ** checker *)

(** Whether [name] is [sk] or lies below it. *)
Definition isUnder (name sk : string) : bool :=
  Strs.eqb name sk
  || Strs.HasPrefix name (sk +:+ ".")
  || Strs.HasPrefix name (sk +:+ "[").

(** The set [skipNames] of [checkKeys]. *)
Definition skipNames (meta : list ParameterT) : gset string :=
  foldl (fun acc p =>
           if Skip p || bool_decide (0 < length (Modifiers p))
           then {[ sanitizeProperty (Name p) ]} ∪ acc else acc) ∅ meta.

(** The closure [isSkipped] of [checkKeys]. *)
Definition isSkipped (sk : gset string) (name : string) : bool :=
  existsb (isUnder name) (elements sk).

Definition realKeys (real meta : list ParameterT) : list string :=
  Name <$> List.filter (fun p => negb (isSkipped (skipNames meta) (Name p))
                                 && negb (Extra p)) real.

Definition metaKeys (meta : list ParameterT) : list string :=
  Name <$> List.filter (fun p => negb (Extra p)
                                 && negb (isSkipped (skipNames meta) (Name p))) meta.

Definition difference (a b : list string) : list string :=
  let m : gset string := list_to_set b in
  List.filter (fun x => bool_decide (x ∉ m)) a.

Definition missingKeys (real meta : list ParameterT) : list string :=
  difference (realKeys real meta) (metaKeys meta).
Definition orphanKeys (real meta : list ParameterT) : list string :=
  difference (metaKeys meta) (realKeys real meta).

Definition missingLine (k : string) : string :=
  "ERROR: Missing metadata for key: " +:+ k.
Definition orphanLine (k : string) : string :=
  "ERROR: Metadata provided for non existing key: " +:+ k.

Definition checkKeys (real meta : list ptr) : M unit :=
  fun w =>
    let r := loadParams w real in
    let m := loadParams w meta in
    let missing := missingKeys r m in
    let orphan := orphanKeys r m in
    if bool_decide (length missing = 0 /\ length orphan = 0) then
      println "INFO: Metadata is correct!" w
    else
      (exec forM_ missing (fun k => println (missingLine k)) in
       exec forM_ orphan (fun k => println (orphanLine k)) in
       fail "metadata errors found") w.

(** ** builder *)

(** The first loop of [combineMetadataAndValues], for one declared
    parameter: the first value of the same name gives it its type and its
    schema flag, and its value when it has none yet. *)
Definition fillFrom (values : list ParameterT) (p : ParameterT) : ParameterT :=
  if Extra p then p
  else match List.find (fun src => Strs.eqb (Name src) (Name p)) values with
       | Some src =>
         withSchema (Schema src)
           (withType (Type_ src)
              (if isNil (Value p) then withValue (Value src) p else p))
       | None => p
       end.

(** [combineMetadataAndValues] returns nothing in the source.  Its
    parameter [meta] is a slice header received by value: assignments
    through the pointers it holds reach the caller's objects, while
    [meta = append(meta, &np)] changes the local header only and never the
    length of the caller's slice.  The list handed back here is the final
    content of that local variable, so that statements can speak about it;
    the caller, like the source, has no use for it. *)
Definition combineMetadataAndValues (values meta : list ptr) : M (list ptr) :=
  exec forM_ meta (fun a =>
         let* p := getParam a in
         fun w => modifyParam a (fun _ => fillFrom (loadParams w values) p) w) in
  (fix addSkips (srcs : list ptr) (meta : list ptr) : M (list ptr) :=
     match srcs with
     | [] => ret meta
     | s :: rest =>
       let* src := getParam s in
       let* found := (fun w => (w, Ret (existsb
                        (fun p => Strs.eqb (Name p) (Name src))
                        (loadParams w meta)))) in
       if (found : bool) then addSkips rest meta
       else
         let* np := newParam (SetSkip true src) in
         addSkips rest (meta ++ [np])
     end) values meta.

(** The body of the loop of [applyModifiers]. *)
Definition applyModifier (cfg : Config) (nullableLast : bool)
    (p : ParameterT) (m : string) : ParameterT :=
  if Strs.eqb m (ModArray cfg) then
    let p := withType "array" p in
    if nullableLast then p else withValue (VSlice []) p
  else if Strs.eqb m (ModObject cfg) then
    let p := withType "object" p in
    if nullableLast then p else withValue (VMap []) p
  else if Strs.eqb m (ModString cfg) then
    let p := withType "string" p in
    if nullableLast then p else withValue (VString "") p
  else if Strs.eqb m (ModNullable cfg) then
    if isNil (Value p) then withValue (VString "nil") p else p
  else if Strs.HasPrefix m (ModDefault cfg +:+ ":") then
    withValue (VString (Strs.TrimSpace
                          (Strs.TrimPrefix m (ModDefault cfg +:+ ":")))) p
  else p.

Definition nullableLast (cfg : Config) (p : ParameterT) : bool :=
  HasModifier p (ModNullable cfg)
  && match last (Modifiers p) with
     | Some l => Strs.eqb l (ModNullable cfg)
     | None => false
     end.

Definition applyModifiers (p : ParameterT) (cfg : Config) : ParameterT :=
  match Modifiers p with
  | [] => p
  | ms => foldl (applyModifier cfg (nullableLast cfg p)) p ms
  end.

Fixpoint buildParamsToRender (l : list ptr) (cfg : Config) : M (list ptr) :=
  match l with
  | [] => ret []
  | a :: rest =>
    let* p := getParam a in
    if Skip p then buildParamsToRender rest cfg
    else
      exec modifyParam a (fun p => applyModifiers p cfg) in
      let* out := buildParamsToRender rest cfg in
      ret (a :: out)
  end.

(** ** OpenAPI schema tree *)

#[warnings="-register-all"]
Inductive SchemaVal : Type :=
| SString (s : string)
| STrue
| SDefault (v : Any)
| SObject (m : gmap string SchemaVal).

(** ** What the program takes from its libraries

    [encoding/json], [gopkg.in/yaml.v3] and the compilation of the
    user-supplied title pattern are not part of the program; the functions
    below stand for them and every statement holds whatever they compute. *)
Record Externals : Type := mkExternals {
  (* yaml.Unmarshal into an interface{}; an error message on failure *)
  yamlUnmarshal : string -> string + Any;
  (* json.Unmarshal(data, cfg), which overrides the fields present *)
  jsonUnmarshalConfig : string -> Config -> string + Config;
  (* string(b) for b, _ := json.Marshal(v) *)
  jsonMarshal : Any -> string;
  (* json.MarshalIndent(root, "", "    ") *)
  jsonMarshalIndent : SchemaVal -> string;
  (* the pattern "^(##+) " followed by the title, compiled ([None]: the
     pattern is invalid and MustCompile panics), applied to a line:
     submatch 1 when the line matches *)
  titleRegexp : string -> option (string -> option string)
}.

(** ** Rendering *)

Definition backtick (s : string) : string := "`" +:+ s +:+ "`".

(** The two-byte text of an empty string literal. *)
Definition emptyLiteral : string := String "034" (String "034" EmptyString).

Section Rendering.

Variable ext : Externals.

(** The value cell of a parameter's row. *)
Definition valueCell (p : ParameterT) : string :=
  if Extra p then EmptyString
  else match Value p with
       | VString vv =>
         if bool_decide (vv = EmptyString) then backtick emptyLiteral
         else backtick vv
       | vv => backtick (jsonMarshal ext vv)
       end.

Definition tableRow (p : ParameterT) : list string :=
  [backtick (Name p); Description p; valueCell p].

Definition headerRow : list string := ["Name"; "Description"; "Value"].

Definition tableRows (ps : list ParameterT) : list (list string) :=
  headerRow :: (tableRow <$> ps).

(** One pass of the inner width loop: [w[i]] grows to [len(c)] for the
    [i]-th cell [c] of the row. *)
Fixpoint widen (w : list nat) (r : list string) : list nat :=
  match w, r with
  | wi :: w', c :: r' =>
    (if bool_decide (wi < String.length c) then String.length c else wi)
      :: widen w' r'
  | _, _ => w
  end.

Definition colWidths (rows : list (list string)) : list nat :=
  foldl widen (replicate (length (default [] (head rows))) 0) rows.

Definition padCell (wj : nat) (c : string) : string :=
  " " +:+ c +:+ Strs.Repeat " " (wj - String.length c) +:+ " |".

Fixpoint renderCells (w : list nat) (r : list string) : string :=
  match w, r with
  | wj :: w', c :: r' => padCell wj c +:+ renderCells w' r'
  | _, _ => EmptyString
  end.

Definition renderRow (w : list nat) (r : list string) : string :=
  "|" +:+ renderCells w r +:+ String "010" EmptyString.

Definition renderRule (w : list nat) : string :=
  "|" +:+ String.concat EmptyString
            ((fun ww => " " +:+ Strs.Repeat "-" ww +:+ " |") <$> w)
      +:+ String "010" EmptyString.

(** The lines of the table: the header, the rule under it, the rows. *)
Definition tableLines (rows : list (list string)) : list string :=
  let w := colWidths rows in
  match rows with
  | [] => []
  | hd :: data => renderRow w hd :: renderRule w :: (renderRow w <$> data)
  end.

Definition markdownTable (ps : list ParameterT) : string :=
  String.concat EmptyString (tableLines (tableRows ps)).

Definition renderSection (w : World) (sec : SectionT) (h : string) : string :=
  h +:+ " " +:+ SecName sec +:+ String "010" (String "010" EmptyString)
    +:+ (if bool_decide (SecDescription sec <> EmptyString)
         then SecDescription sec else EmptyString)
    +:+ (if bool_decide (0 < length (SecParameters sec))
         then markdownTable (loadParams w (SecParameters sec))
         else EmptyString).

Definition renderReadmeTable (w : World) (secs : list SectionT) (h : string)
    : string :=
  String.concat EmptyString
    ((fun s => String "010" EmptyString +:+ renderSection w s h) <$> secs).

(** First index [i >= from] whose line satisfies [f]. *)
Fixpoint findLine (f : string -> bool) (from : nat) (lines : list string)
    : option nat :=
  match lines with
  | [] => None
  | l :: rest => if f l then Some from else findLine f (S from) rest
  end.

(** The pattern of [sameLevel]: [n] hashes and a blank. *)
Definition sameLevel (n : nat) : regex :=
  RSeq (rlit (Strs.Repeat "#" n)) rspace.

Definition insertReadmeTable (readmePath : string) (secs : list ptr)
    (cfg : Config) : M unit :=
  let* raw := ReadFile readmePath in
  let lines := Strs.Split raw "010" in
  match titleRegexp ext (ParamsSectionTitle cfg) with
  | None => panic "regexp: Compile: error parsing regexp"
  | Some reStart =>
    match list_find (fun l => is_Some (reStart l)) lines with
    | None => fail "could not find Parameters section in README"
    | Some (i, l) =>
      let start := S i in
      let hPrefix := default EmptyString (reStart l) +:+ "#" in
      let stop :=
        default (length lines)
          (findLine (MatchString (sameLevel (String.length hPrefix - 1)))
                    start (drop start lines)) in
      fun w =>
        let newTable :=
          renderReadmeTable w (omap (fun a => sections w !! a) secs) hPrefix in
        let newLines :=
          take start lines ++ Strs.Split newTable "010" ++ drop stop lines in
        WriteFile readmePath (Strs.Join newLines (String "010" EmptyString)) w
    end
  end.

(** ** Schema generator *)

Definition emptyObject : SchemaVal := SObject ∅.

Definition newSchemaRoot : gmap string SchemaVal :=
  {[ "title" := SString "Chart Values"; "type" := SString "object";
     "properties" := emptyObject ]}.

(** The node attached at the last segment of a path. *)
Definition leafNode (param : ParameterT) : SchemaVal :=
  let obj : gmap string SchemaVal :=
    {[ "type" := SString (Type_ param);
       "description" := SString (Description param);
       "default" := SDefault (Value param) ]} in
  let obj := if HasModifier param "nullable"
             then <["nullable" := STrue]> obj else obj in
  let obj :=
    if Strs.eqb (Type_ param) "array" then
      let items : gmap string SchemaVal :=
        match Value param with
        | VSlice (first :: _) => {[ "type" := SString (inferType first) ]}
        | _ => ∅
        end in
      <["items" := SObject items]> obj
    else obj in
  SObject obj.

(** The walk of [add] down the segments; [None] is the panic of a failed
    type assertion, when a segment already holds a leaf. *)
Fixpoint addAt (parts : list string) (leaf : SchemaVal)
    (cur : gmap string SchemaVal) : option (gmap string SchemaVal) :=
  match parts with
  | [] => Some cur
  | [part] => Some (<[part := leaf]> cur)
  | part :: rest =>
    let child := default (SObject {[ "type" := SString "object";
                                     "properties" := emptyObject ]})
                         (cur !! part) in
    match child with
    | SObject cm =>
      match cm !! "properties" with
      | Some (SObject props) =>
        props' ← addAt rest leaf props;
        Some (<[part := SObject (<["properties" := SObject props']> cm)]> cur)
      | _ => None
      end
    | _ => None
    end
  end.

(** [schemaGenerator.add] *)
Definition schemaAdd (root : gmap string SchemaVal) (param : ParameterT)
    : option (gmap string SchemaVal) :=
  if Extra param || negb (Schema param) || HasModifier param "object"
  then Some root
  else match root !! "properties" with
       | Some (SObject props) =>
         props' ← addAt (Strs.Split (Name param) ".") (leafNode param) props;
         Some (<["properties" := SObject props']> root)
       | _ => None
       end.

Definition renderOpenAPISchema (path : string) (ps : list ptr) : M unit :=
  fun w =>
    match foldl (fun acc p => root ← acc; schemaAdd root p)
                (Some newSchemaRoot) (loadParams w ps) with
    | Some root => WriteFile path (jsonMarshalIndent ext (SObject root)) w
    | None => panic "interface conversion: interface {} is nil, not main.schemaObject" w
    end.

End Rendering.

(** ** The pipeline *)

Record options : Type := mkOptions {
  valuesPath : string;
  readmePath : string;
  configPath : string;
  schemaPath : string;
  optVersion : bool
}.

Definition version : string := "dev".

(** The check mark the two success messages end with (U+2705 in UTF-8). *)
Definition checkMark : string := String "226" (String "156" (String "133" EmptyString)).

Section Pipeline.

Variable ext : Externals.

Definition loadConfig (path : string) : M Config :=
  let cfg := defaultConfig in
  if bool_decide (path = EmptyString) then ret cfg
  else fun w =>
    match files w !! path with
    | None => (w, Ret cfg)
    | Some data =>
      match jsonUnmarshalConfig ext data cfg with
      | inl e => (w, Fail e)
      | inr cfg' => (w, Ret cfg')
      end
    end.

Definition createValuesObject (valuesPath : string) : M (list ptr) :=
  let* raw := ReadFile valuesPath in
  match yamlUnmarshal ext raw with
  | inl e => fail e
  | inr node => valuesOfNode node
  end.

Definition getParsedMetadata (valuesPath : string) (cfg : Config) : M Metadata :=
  let* valuesObj := createValuesObject valuesPath in
  let* meta := parseMetadataComments valuesPath cfg in
  exec checkKeys valuesObj (Parameters meta) in
  exec combineMetadataAndValues valuesObj (Parameters meta) in
  ret meta.

Definition runReadmeGenerator (opts : options) : M unit :=
  if optVersion opts then println ("Version: " +:+ version)
  else
    let* cfg := loadConfig (configPath opts) in
    let* meta := getParsedMetadata (valuesPath opts) cfg in
    exec (if bool_decide (readmePath opts <> EmptyString) then
            exec forM_ (Sections meta) (fun a =>
                   let* sec := getSection a in
                   let* out := buildParamsToRender (SecParameters sec) cfg in
                   modifySection a (fun s =>
                     {| SecName := SecName s;
                        DescriptionLines := DescriptionLines s;
                        SecParameters := out |})) in
            exec insertReadmeTable ext (readmePath opts) (Sections meta) cfg in
            println ("README updated " +:+ checkMark)
          else ret tt) in
    if bool_decide (schemaPath opts <> EmptyString) then
      let* ps := buildParamsToRender (Parameters meta) cfg in
      exec renderOpenAPISchema ext (schemaPath opts) ps in
      println ("Schema generated " +:+ checkMark)
    else ret tt.

End Pipeline.

(** ** Worked inputs

    An instance of the libraries for the concrete runs below: the decoder
    yields [node] for the values file at hand, the settings document
    overrides nothing, integers 1 and 2 print as themselves, and the title
    pattern is the default one at depth two. *)
Definition exampleExt (node : Any) : Externals :=
  {| yamlUnmarshal := fun _ => inr node;
     jsonUnmarshalConfig := fun _ cfg => inr cfg;
     jsonMarshal := fun v => match v with
                             | VInt 1 => "1" | VInt 2 => "2" | _ => "null"
                             end;
     jsonMarshalIndent := fun _ => "{}";
     titleRegexp := fun title => Some (fun l =>
       if Strs.HasPrefix l ("## " +:+ title) then Some "##" else None) |}.

Definition lf : string := String "010" EmptyString.

(** A world with a values file and a README that has a Parameters heading. *)
Definition exampleWorld (values : string) : World :=
  {| params := []; sections := [];
     files := {[ "values.yaml" := values;
                 "README.md" := "# Chart" +:+ lf +:+ "## Parameters" +:+ lf
                                +:+ "old" +:+ lf +:+ "## License" ]};
     stdout := [] |}.

Definition exampleOpts : options :=
  {| valuesPath := "values.yaml"; readmePath := "README.md";
     configPath := EmptyString; schemaPath := "values.schema.json";
     optVersion := false |}.

(** The tree [{x: [1, 2]}] and a source text for it without directives. *)
Definition treeX : Any := VMap [("x", VSlice [VInt 1; VInt 2])].
Definition textX : string := "x: [1, 2]" +:+ lf.

(** The tree [{db: {host: "h"}}] under a [@skip db] directive. *)
Definition treeDb : Any := VMap [("db", VMap [("host", VString "h")])].
Definition textDb : string :=
  "## @skip db" +:+ lf +:+ "db:" +:+ lf +:+ "  host: h" +:+ lf.

(** The tree [{foo: 1}] under an [@extra foo] directive. *)
Definition treeFoo : Any := VMap [("foo", VInt 1)].
Definition textFoo : string := "## @extra foo bar" +:+ lf +:+ "foo: 1" +:+ lf.

(** ** Vocabulary of the statements *)

(** The parameters the program can build: a fresh one, and whatever the
    role setters and the assignments to the other fields make of one. *)
Inductive producible : ParameterT -> Prop :=
| prod_new name : producible (NewParameter name)
| prod_SetSkip b p : producible p -> producible (SetSkip b p)
| prod_SetExtra b p : producible p -> producible (SetExtra b p)
| prod_value v p : producible p -> producible (withValue v p)
| prod_type t p : producible p -> producible (withType t p)
| prod_description d p : producible p -> producible (withDescription d p)
| prod_modifiers ms p : producible p -> producible (withModifiers ms p)
| prod_section s p : producible p -> producible (withSection s p)
| prod_schema b p : producible p -> producible (withSchema b p).

Inductive role : Type := Normal | SkipRole | ExtraRole.

Definition roleOf (p : ParameterT) : option role :=
  match Validate p, Readme p with
  | true, true => Some Normal
  | false, false => Some SkipRole
  | false, true => Some ExtraRole
  | true, false => None
  end.

(** The names [inferType] can return. *)
Definition typeKinds : list string :=
  ["nil"; "string"; "boolean"; "number"; "array"; "object"; "unknown"].

(** The names the data model of the specification lists. *)
Definition specKinds : list string :=
  ["null"; "string"; "boolean"; "number"; "array"; "object"; "unknown"].

(** What one modifier does to the type: nothing, or a fixed new type. *)
Definition typeAct := option string.

(** What one modifier does to the value: nothing, the null sentinel when
    there is no value, or a fixed new value. *)
Inductive valueAct : Type :=
| Keep
| NullFill
| SetTo (v : Any).

Definition runType (a : typeAct) (t : string) : string := default t a.

Definition runValue (a : valueAct) (v : Any) : Any :=
  match a with
  | Keep => v
  | NullFill => if isNil v then VString "nil" else v
  | SetTo c => c
  end.

(** The action of the modifier [m], read off the branches of the switch. *)
Definition modifierAct (cfg : Config) (nl : bool) (m : string)
    : typeAct * valueAct :=
  if Strs.eqb m (ModArray cfg) then
    (Some "array", if nl then Keep else SetTo (VSlice []))
  else if Strs.eqb m (ModObject cfg) then
    (Some "object", if nl then Keep else SetTo (VMap []))
  else if Strs.eqb m (ModString cfg) then
    (Some "string", if nl then Keep else SetTo (VString EmptyString))
  else if Strs.eqb m (ModNullable cfg) then (None, NullFill)
  else if Strs.HasPrefix m (ModDefault cfg +:+ ":") then
    (None, SetTo (VString (Strs.TrimSpace
                             (Strs.TrimPrefix m (ModDefault cfg +:+ ":")))))
  else (None, Keep).

(** [thenType a b]: first [a], then [b]; likewise [thenValue]. *)
Definition thenType (a b : typeAct) : typeAct :=
  match b with Some _ => b | None => a end.

Definition thenValue (a b : valueAct) : valueAct :=
  match b with
  | SetTo _ => b
  | Keep => a
  | NullFill =>
    match a with
    | Keep => NullFill
    | NullFill => NullFill
    | SetTo c => SetTo (runValue NullFill c)
    end
  end.

(** A fixed value that a modifier assigns is never nil. *)
Definition setsNonNil (a : valueAct) : Prop :=
  match a with SetTo c => isNil c = false | _ => True end.

Definition act (a : typeAct * valueAct) (p : ParameterT) : ParameterT :=
  withValue (runValue a.2 (Value p)) (withType (runType a.1 (Type_ p)) p).

Definition thenAct (a b : typeAct * valueAct) : typeAct * valueAct :=
  (thenType a.1 b.1, thenValue a.2 b.2).

(** [p] is [s] or lies below it: [p == s], or [p] starts with [s] and a
    dot, or with [s] and an opening bracket. *)
Definition under (p s : string) : Prop :=
  p = s
  \/ (exists t, p = s +:+ "." +:+ t)
  \/ (exists t, p = s +:+ "[" +:+ t).

(** A declaration that opens a skip subtree: declared Skip, or carrying at
    least one modifier. *)
Definition skipDecl (m : ParameterT) : bool :=
  Skip m || bool_decide (0 < length (Modifiers m)).

(** [x] lies under the sanitized name of some skip declaration. *)
Definition underSkip (meta : list ParameterT) (x : string) : Prop :=
  exists m, m ∈ meta /\ skipDecl m = true
            /\ under x (sanitizeProperty (Name m)).


(** A computation that neither writes a file nor prints. *)
Definition heapOnly {A} (m : M A) : Prop :=
  forall w, files (m w).1 = files w /\ stdout (m w).1 = stdout w.

(** A values file with one declared key that does not exist ([ghost]) and
    one real key that is not declared ([port]). *)
Definition treePort : Any := VMap [("port", VInt 1)].
Definition textPort : string :=
  "## @param ghost A key that is not there" +:+ lf +:+ "port: 1" +:+ lf.

(** A line on which one of the tag patterns matches. *)
Definition isDirective (cfg : Config) (line : string) : bool :=
  MatchString (regSection cfg) line
  || MatchString (regDescStart cfg) line
  || MatchString (regParam cfg) line
  || MatchString (regSkip cfg) line
  || MatchString (regExtra cfg) line.

(** A source text none of whose lines is a directive. *)
Definition noDirectives (cfg : Config) (text : string) : Prop :=
  Forall (fun line => isDirective cfg line = false) (sourceLines text).

(** ** Vocabulary of the further properties *)

(** The key [flattenYAML] gives the entry [k] of a map at [prefix], and the
    key of the [i]-th element of a sequence at [prefix]. *)
Definition childKey (prefix k : string) : string :=
  if bool_decide (prefix <> EmptyString) then prefix +:+ "." +:+ k else k.
Definition itemKey (prefix : string) (i : nat) : string :=
  prefix +:+ "[" +:+ Strs.itoa i +:+ "]".

(** The two loops of [flattenYAML], by name. *)
Fixpoint flattenEntries (prefix : string) (kvs : list (string * Any))
    (out : gmap string Any) : gmap string Any :=
  match kvs with
  | [] => out
  | kv :: rest =>
    flattenEntries prefix rest (flattenYAML (childKey prefix kv.1) kv.2 out)
  end.

Fixpoint flattenItems (prefix : string) (i : nat) (l : list Any)
    (out : gmap string Any) : gmap string Any :=
  match l with
  | [] => out
  | v :: rest =>
    flattenItems prefix (S i) rest (flattenYAML (itemKey prefix i) v out)
  end.

(** A value the type switch of [flattenYAML] stores at its key instead of
    going into it: anything but a string-keyed map or a sequence that has
    entries.  Such a value need not be a scalar: [VOther] stands for every
    other dynamic type, a map whose keys are no strings among them, and the
    flattener keeps a value of such a type whole, with whatever it holds. *)
Definition storedWhole (v : Any) : Prop :=
  match v with
  | VMap (_ :: _) | VSlice (_ :: _) => False
  | _ => True
  end.


(** A modifier token that no branch of [applyModifiers] recognises. *)
Definition unknownModifier (cfg : Config) (m : string) : bool :=
  negb (Strs.eqb m (ModArray cfg)) && negb (Strs.eqb m (ModObject cfg))
  && negb (Strs.eqb m (ModString cfg)) && negb (Strs.eqb m (ModNullable cfg))
  && negb (Strs.HasPrefix m (ModDefault cfg +:+ ":")).


(** Every pointer of the list refers to an object. *)
Definition validPtrs (w : World) (l : list ptr) : Prop :=
  Forall (fun a => is_Some (params w !! a)) l.

(** Whether the object at [a] has the Skip role. *)
Definition isSkipAt (w : World) (a : ptr) : bool :=
  match params w !! a with
  | Some p => Skip p
  | None => false
  end.

(** The heap after the modifier engine has run over the non-Skip objects
    that the pointers of [l] refer to. *)
Definition modifiedIn (l : list ptr) (cfg : Config) (ps : list ParameterT)
    : list ParameterT :=
  imap (fun a p => if bool_decide (a ∈ l) && negb (Skip p)
                   then applyModifiers p cfg else p) ps.

(** The heap after the first loop of the merger: the objects that [meta]
    points to have been filled from the real parameters [vs]. *)
Definition filledIn (meta : list ptr) (vs : list ParameterT)
    (ps : list ParameterT) : list ParameterT :=
  imap (fun a p => if bool_decide (a ∈ meta) then fillFrom vs p else p) ps.

(** The body of the first loop of the merger, by name. *)
Definition fillStep (values : list ptr) (a : ptr) : M unit :=
  let* p := getParam a in
  fun w => modifyParam a (fun _ => fillFrom (loadParams w values) p) w.

(** The second loop of the merger, by name. *)
Fixpoint addSkips (srcs : list ptr) (meta : list ptr) : M (list ptr) :=
  match srcs with
  | [] => ret meta
  | s :: rest =>
    let* src := getParam s in
    let* found := (fun w => (w, Ret (existsb
                     (fun p => Strs.eqb (Name p) (Name src))
                     (loadParams w meta)))) in
    if (found : bool) then addSkips rest meta
    else
      let* np := newParam (SetSkip true src) in
      addSkips rest (meta ++ [np])
  end.

(** The Skip parameters the second loop builds: one for each real
    parameter whose name is neither declared nor already built. *)
Fixpoint synthesize (names : list string) (srcs : list ParameterT)
    : list ParameterT :=
  match srcs with
  | [] => []
  | src :: rest =>
    if existsb (fun n => Strs.eqb n (Name src)) names
    then synthesize names rest
    else SetSkip true src :: synthesize (names ++ [Name src]) rest
  end.


(** What a parameter looks like when the parser has just declared it: no
    type yet, schema flag set, and by role: a Normal one without value, a
    Skip one bare, an Extra one with the empty string for value and no
    modifiers. *)
Definition declaredShape (p : ParameterT) : Prop :=
  Type_ p = EmptyString /\ Schema p = true /\
  match Validate p, Readme p with
  | true, true => Value p = VNil
  | false, false =>
    Value p = VNil /\ Modifiers p = [] /\ Description p = EmptyString
  | false, true => Value p = VString EmptyString /\ Modifiers p = []
  | true, false => False
  end.

(** What a section knows of its parameters: they are among the declared
    ones, in the same order, and each carries the section's name. *)
Definition sectionShape (w : World) (declared : list ptr) (s : SectionT) : Prop :=
  SecParameters s `sublist_of` declared
  /\ Forall (fun a => Section_ <$> params w !! a = Some (SecName s))
            (SecParameters s).

(** The state of the parser's loop, started in the world [w0]: the objects
    of [w0] are as they were; the new parameters and sections are the ones
    the metadata lists, in the order of their creation; the open section
    is the last one created. *)
Record parserInv (w0 w : World) (st : parserState) : Prop := mkParserInv {
  inv_params : exists new,
    params w = params w0 ++ new
    /\ Forall declaredShape new
    /\ Parameters (psMeta st) = seq (length (params w0)) (length new);
  inv_sections : exists new,
    sections w = sections w0 ++ new
    /\ Sections (psMeta st) = seq (length (sections w0)) (length new)
    /\ psCurrent st = last (Sections (psMeta st))
    /\ Forall (sectionShape w (Parameters (psMeta st))) new
}.


(** The loop of a starred pattern, by name: at most [n] more rounds of
    [r1], each consuming something, before the continuation [k]. *)
Definition starLoop (greedy : bool) (r1 : regex)
    (k : string -> captures -> option captures) :
    nat -> string -> captures -> option captures :=
  fix loop (n : nat) (s : string) (caps : captures) {struct n} :=
  match n with
  | 0 => k s caps
  | S n' =>
    let again (_ : unit) :=
      rmatch r1 s caps (fun s' caps' =>
        if bool_decide (String.length s' < String.length s)
        then loop n' s' caps' else None) in
    if greedy then
      match again tt with Some c => Some c | None => k s caps end
    else
      match k s caps with Some c => Some c | None => again tt end
  end.

(** A line that starts, after blanks, with the comment prefix. *)
Definition commentLine (cfg : Config) (line : string) : Prop :=
  exists blanks rest,
    line = blanks +:+ CommentsFormat cfg +:+ rest
    /\ Strs.dropWhile isSpaceByte blanks = EmptyString.


(** The segments of a parameter's name, the path of its schema node. *)
Definition pathOf (param : ParameterT) : list string :=
  Strs.Split (Name param) ".".

(** The parameters [schemaGenerator.add] does not return early on. *)
Definition inSchema (param : ParameterT) : bool :=
  negb (Extra param || negb (Schema param) || HasModifier param "object").

(** The node a schema holds at a path, going down through the
    ["properties"] of each object on the way. *)
Fixpoint schemaLookup (parts : list string) (cur : gmap string SchemaVal)
    : option SchemaVal :=
  match parts with
  | [] => None
  | [part] => cur !! part
  | part :: rest =>
    match cur !! part with
    | Some (SObject cm) =>
      match cm !! "properties" with
      | Some (SObject props) => schemaLookup rest props
      | _ => None
      end
    | _ => None
    end
  end.

(** A node with properties of its own, which a walk can go through. *)
Definition hasProperties (v : SchemaVal) : bool :=
  match v with
  | SObject cm =>
    match cm !! "properties" with Some (SObject _) => true | _ => false end
  | _ => false
  end.

(** The walk along [parts] meets a node without properties. *)
Fixpoint blocked (parts : list string) (cur : gmap string SchemaVal) : bool :=
  match parts with
  | [] => false
  | part :: rest =>
    match cur !! part with
    | None => false
    | Some (SObject cm) =>
      match cm !! "properties" with
      | Some (SObject props) => blocked rest props
      | _ => true
      end
    | Some _ => true
    end
  end.

(** Two paths part ways at some segment: neither is a prefix of the other. *)
Fixpoint diverge (a b : list string) : bool :=
  match a, b with
  | x :: a', y :: b' => if Strs.eqb x y then diverge a' b' else true
  | _, _ => false
  end.

Fixpoint distinctPaths (paths : list (list string)) : bool :=
  match paths with
  | [] => true
  | p :: rest => forallb (diverge p) rest && distinctPaths rest
  end.

(** The step of the loop of [renderOpenAPISchema]. *)
Definition schemaStep (acc : option (gmap string SchemaVal))
    (param : ParameterT) : option (gmap string SchemaVal) :=
  root ← acc; schemaAdd root param.


(** A computation that writes no file outside [paths]. *)
Definition writesWithin {A} (paths : list string) (m : M A) : Prop :=
  forall w f, f ∉ paths -> files (m w).1 !! f = files w !! f.








(** * Properties *)

(** ** Roles *)

(** C8: whatever sequence of construction, marking Skip, marking Extra and
    unmarking Skip produced a parameter, its flags (validate,
    renderInReadme) are (true,true), (false,false) or (false,true), that is
    Normal, Skip or Extra; (true,false) is never produced. *)
Theorem role_flags_reachable (p : ParameterT) :
  producible p ->
  ((Validate p = true /\ Readme p = true /\ roleOf p = Some Normal) \/
   (Validate p = false /\ Readme p = false /\ roleOf p = Some SkipRole
      /\ Skip p = true) \/
   (Validate p = false /\ Readme p = true /\ roleOf p = Some ExtraRole
      /\ Extra p = true))
  /\ (Validate p, Readme p) <> (true, false).
Proof.
  intros Hp. cut (roleOf p <> None).
  - unfold roleOf, Skip, Extra.
    destruct (Validate p), (Readme p); simpl; intros H; split;
      try congruence; try (exfalso; apply H; reflexivity);
      [left | right; right | right; left]; repeat split.
  - induction Hp as [name|b p _ IH|b p _ IH| | | | | | ]; try assumption.
    + discriminate.
    + destruct b; discriminate.
    + destruct b; [discriminate | assumption].
Qed.

Lemma role_flags_reachable_witness :
  producible (SetExtra true (SetSkip false (SetSkip true (NewParameter "a"))))
  /\ Extra (SetExtra true (SetSkip false (SetSkip true (NewParameter "a")))) = true.
Proof.
  assert (H : producible
                (SetExtra true (SetSkip false (SetSkip true (NewParameter "a")))))
    by (repeat constructor).
  split; [exact H |].
  destruct (role_flags_reachable _ H) as [[(Hv & _) | [(_ & Hr & _) | (_ & _ & _ & He)]] _].
  - discriminate Hv.
  - discriminate Hr.
  - exact He.
Defined.

(** ** Inferred types *)

(** [inferType] stays within [typeKinds]. *)
Lemma inferType_kind (v : Any) : inferType v ∈ typeKinds.
Proof. destruct v; unfold typeKinds; simpl; set_solver. Qed.

(** C6, as stated, fails: the kind inferred for the null value is named
    [nil], which is not among the seven names of the claim. *)
Lemma inferType_null_counterexample :
  inferType VNil = "nil" /\ (inferType VNil ∉ specKinds).
Proof.
  split; [reflexivity |].
  unfold specKinds; simpl. rewrite !elem_of_cons, elem_of_nil.
  intros [H | [H | [H | [H | [H | [H | [H | []]]]]]]]; discriminate H.
Qed.

(** [allocValues] appends one object per entry and hands out their
    addresses in order. *)
Lemma allocValues_spec (kvs : list (string * Any)) (acc : list (ptr * string))
    (w : World) :
  allocValues kvs acc w =
    (setParams (params w ++ (valueParam <$> kvs)) w,
     Ret (acc ++ zip (seq (length (params w)) (length kvs)) (kvs.*1))).
Proof.
  revert acc w. induction kvs as [|kv kvs IH]; intros acc w; simpl.
  - unfold ret, setParams. rewrite !app_nil_r. by destruct w.
  - unfold bind, newParam. rewrite IH. simpl.
    rewrite length_app, <- !app_assoc. simpl.
    replace (length (params w) + 1) with (S (length (params w))) by lia.
    reflexivity.
Qed.

Lemma loadParams_fresh (w : World) (new : list ParameterT) :
  loadParams (setParams (params w ++ new) w)
             (seq (length (params w)) (length new)) = new.
Proof.
  unfold loadParams; simpl. generalize (params w) as old.
  induction new as [|p new IH]; intros old; [reflexivity |].
  simpl. rewrite lookup_app_r, Nat.sub_diag by lia. simpl. f_equal.
  specialize (IH (old ++ [p])). rewrite length_app in IH. simpl in IH.
  replace (length old + 1) with (S (length old)) in IH by lia.
  by rewrite <- app_assoc in IH.
Qed.

Lemma insertSorted_perm {A} (less : A -> A -> bool) (x : A) (l : list A) :
  insertSorted less x l ≡ₚ x :: l.
Proof.
  induction l as [|y l IH]; simpl; [done |].
  destruct (less y x); [| done]. rewrite IH. apply Permutation_swap.
Qed.

Lemma sortSlice_perm {A} (less : A -> A -> bool) (l : list A) :
  sortSlice less l ≡ₚ l.
Proof.
  induction l as [|x l IH]; simpl; [done |].
  rewrite insertSorted_perm. by rewrite IH.
Qed.

(** C6, amended: every parameter the flattener creates carries the type
    inferred from its value, and for every value that type is one of
    exactly nil, string, boolean, number, array, object, unknown (each of
    the seven occurs); the int, int64 and float64 forms all give number. *)
Theorem inferType_kinds :
  (forall (node : Any) (w : World),
      exists w' ptrs,
        valuesOfNode node w = (w', Ret ptrs)
        /\ (fun p => (Name p, Value p)) <$> loadParams w' ptrs
             ≡ₚ map_to_list (flattenYAML EmptyString node ∅)
        /\ Forall (fun p => Type_ p = inferType (Value p)
                            /\ Type_ p ∈ typeKinds) (loadParams w' ptrs))
  /\ (forall v, inferType v ∈ typeKinds)
  /\ (forall k, k ∈ typeKinds <-> exists v, inferType v = k)
  /\ (forall n, inferType (VInt n) = "number"
                /\ inferType (VInt64 n) = "number"
                /\ inferType (VFloat64 n) = "number").
Proof.
  split; [| split; [| split]].
  - intros node w. unfold valuesOfNode, bind.
    rewrite allocValues_spec. simpl.
    set (kvs := map_to_list (flattenYAML EmptyString node ∅)).
    set (acc := zip (seq (length (params w)) (length kvs)) kvs.*1).
    eexists _, _. split; [reflexivity |].
    assert (Hperm : loadParams (setParams (params w ++ (valueParam <$> kvs)) w)
                      (sortSlice (fun x y => Strs.ltb x.2 y.2) acc).*1
                    ≡ₚ valueParam <$> kvs).
    { unfold loadParams. rewrite sortSlice_perm. subst acc.
      rewrite fst_zip by (rewrite length_seq, length_fmap; lia).
      pose proof (loadParams_fresh w (valueParam <$> kvs)) as H.
      unfold loadParams in H. rewrite length_fmap in H. by rewrite H. }
    split.
    + rewrite Hperm, <- list_fmap_compose.
      erewrite list_fmap_ext; [by rewrite list_fmap_id |].
      by intros _ [k v] _.
    + rewrite Hperm. apply Forall_fmap, Forall_forall. intros [k v] _; simpl.
      split; [reflexivity | apply inferType_kind].
  - apply inferType_kind.
  - intros k; split.
    + unfold typeKinds. rewrite !elem_of_cons, elem_of_nil.
      intros [-> | [-> | [-> | [-> | [-> | [-> | [-> | []]]]]]]];
        [exists VNil | exists (VString EmptyString) | exists (VBool true)
        | exists (VInt 0) | exists (VSlice []) | exists (VMap [])
        | exists (VOther EmptyString)]; reflexivity.
    + intros [v <-]. apply inferType_kind.
  - intros n. repeat split.
Qed.

(** ** The modifier engine *)

Lemma Strs_eqb_refl (s : string) : Strs.eqb s s = true.
Proof. apply String.eqb_refl. Qed.

Lemma Strs_eqb_neq (s t : string) : s <> t -> Strs.eqb s t = false.
Proof. intros H. by apply String.eqb_neq. Qed.

(** The array branch of the switch. *)
Lemma applyModifier_array cfg nl p :
  applyModifier cfg nl p (ModArray cfg) =
    if nl then withType "array" p
    else withValue (VSlice []) (withType "array" p).
Proof. unfold applyModifier. by rewrite Strs_eqb_refl. Qed.

(** The nullable branch, reached when no earlier case has the same token. *)
Lemma applyModifier_nullable cfg nl p :
  ModArray cfg <> ModNullable cfg ->
  ModObject cfg <> ModNullable cfg ->
  ModString cfg <> ModNullable cfg ->
  applyModifier cfg nl p (ModNullable cfg) =
    if isNil (Value p) then withValue (VString "nil") p else p.
Proof.
  intros Ha Ho Hs. unfold applyModifier.
  rewrite (Strs_eqb_neq (ModNullable cfg) (ModArray cfg)) by congruence.
  rewrite (Strs_eqb_neq (ModNullable cfg) (ModObject cfg)) by congruence.
  rewrite (Strs_eqb_neq (ModNullable cfg) (ModString cfg)) by congruence.
  by rewrite Strs_eqb_refl.
Qed.

(** C3: on a parameter without a value, the modifiers [array, nullable]
    give type array and leave the value to the nullable branch, which sets
    the null sentinel (nullable is last, so the array branch does not touch
    the value); [nullable, array] give type array and the empty sequence
    (the array branch overwrites the sentinel). *)
Theorem modifier_order_sensitivity (cfg : Config) (p : ParameterT) :
  ModArray cfg <> ModNullable cfg ->
  ModObject cfg <> ModNullable cfg ->
  ModString cfg <> ModNullable cfg ->
  Value p = VNil ->
  let p1 := withModifiers [ModArray cfg; ModNullable cfg] p in
  let p2 := withModifiers [ModNullable cfg; ModArray cfg] p in
  (nullableLast cfg p1 = true
   /\ Type_ (applyModifiers p1 cfg) = "array"
   /\ Value (applyModifiers p1 cfg) = VString "nil")
  /\ (nullableLast cfg p2 = false
      /\ Type_ (applyModifiers p2 cfg) = "array"
      /\ Value (applyModifiers p2 cfg) = VSlice []).
Proof.
  intros Ha Ho Hs Hv p1 p2.
  assert (Hn1 : nullableLast cfg p1 = true).
  { unfold nullableLast, HasModifier; simpl.
    rewrite Strs_eqb_refl. by rewrite orb_true_r. }
  assert (Hn2 : nullableLast cfg p2 = false).
  { unfold nullableLast, HasModifier; simpl.
    rewrite (Strs_eqb_neq _ _ Ha). by rewrite andb_false_r. }
  split; (split; [assumption |]).
  - unfold applyModifiers.
    change (Modifiers p1) with [ModArray cfg; ModNullable cfg].
    rewrite Hn1. cbn [foldl].
    rewrite applyModifier_array, applyModifier_nullable by assumption.
    change (Value (withType "array" p1)) with (Value p). rewrite Hv.
    by split.
  - unfold applyModifiers.
    change (Modifiers p2) with [ModNullable cfg; ModArray cfg].
    rewrite Hn2. cbn [foldl].
    rewrite applyModifier_array. by split.
Qed.

Lemma modifier_order_sensitivity_witness :
  let p1 := withModifiers ["array"; "nullable"] (NewParameter "replicas") in
  let p2 := withModifiers ["nullable"; "array"] (NewParameter "replicas") in
  (Type_ (applyModifiers p1 defaultConfig) = "array"
   /\ Value (applyModifiers p1 defaultConfig) = VString "nil")
  /\ (Type_ (applyModifiers p2 defaultConfig) = "array"
      /\ Value (applyModifiers p2 defaultConfig) = VSlice []).
Proof.
  destruct (modifier_order_sensitivity defaultConfig (NewParameter "replicas"))
    as [(_ & H1 & H2) (_ & H3 & H4)];
    [discriminate | discriminate | discriminate | reflexivity |].
  repeat split; assumption.
Defined.

Lemma applyModifier_act cfg nl p m :
  applyModifier cfg nl p m = act (modifierAct cfg nl m) p.
Proof.
  unfold applyModifier, modifierAct, act.
  destruct p as [n d v t ms s va r sc]; simpl.
  repeat (destruct (Strs.eqb _ _); [by destruct nl |]).
  destruct (Strs.eqb _ _); [by destruct v |].
  by destruct (Strs.HasPrefix _ _).
Qed.

Lemma modifierAct_setsNonNil cfg nl m : setsNonNil (modifierAct cfg nl m).2.
Proof.
  unfold modifierAct.
  repeat (destruct (Strs.eqb _ _); [by destruct nl |]).
  by destruct (Strs.HasPrefix _ _).
Qed.

Lemma act_thenAct a b p : act b (act a p) = act (thenAct a b) p.
Proof.
  destruct a as [ta va], b as [tb vb], p as [n d v t ms s vl r sc].
  unfold act, thenAct, withValue, withType; simpl. f_equal.
  - destruct vb, va; try reflexivity. by destruct v.
  - destruct tb, ta; reflexivity.
Qed.

Lemma thenAct_setsNonNil a b :
  setsNonNil a.2 -> setsNonNil b.2 -> setsNonNil (thenAct a b).2.
Proof.
  destruct a as [ta va], b as [tb vb]; simpl.
  destruct vb as [| |cb], va as [| |ca]; simpl; try done.
  intros H _. by destruct ca.
Qed.

(** The whole loop is one action. *)
Lemma foldl_applyModifier_act cfg nl ms :
  exists a, setsNonNil a.2 /\
            forall p, foldl (applyModifier cfg nl) p ms = act a p.
Proof.
  induction ms as [|m ms IH] using rev_ind.
  - exists (None, Keep). split; [done |]. by intros [].
  - destruct IH as (a & Ha & IH).
    exists (thenAct a (modifierAct cfg nl m)). split.
    + apply thenAct_setsNonNil; [done | apply modifierAct_setsNonNil].
    + intros p. rewrite foldl_app. simpl.
      by rewrite IH, applyModifier_act, act_thenAct.
Qed.

Lemma act_idempotent a p : setsNonNil a.2 -> act a (act a p) = act a p.
Proof.
  destruct a as [ta va], p as [n d v t ms s vl r sc].
  unfold act, withValue, withType; simpl. intros H. f_equal.
  - destruct va; simpl in *; try done. by destruct v.
  - by destruct ta.
Qed.

Lemma act_Modifiers a p : Modifiers (act a p) = Modifiers p.
Proof. reflexivity. Qed.

(** C10: applying the modifier engine to its own result changes nothing:
    for every parameter and every settings object,
    [applyModifiers (applyModifiers p)] is [applyModifiers p], in every
    field and so in type and value. *)
Theorem applyModifiers_idempotent (p : ParameterT) (cfg : Config) :
  applyModifiers (applyModifiers p cfg) cfg = applyModifiers p cfg.
Proof.
  unfold applyModifiers at 2 3.
  destruct (Modifiers p) as [|m ms] eqn:Hms.
  - unfold applyModifiers. by rewrite Hms.
  - destruct (foldl_applyModifier_act cfg (nullableLast cfg p) (m :: ms))
      as (a & Ha & Hfold).
    rewrite Hfold. unfold applyModifiers.
    rewrite act_Modifiers, Hms.
    assert (Hnl : nullableLast cfg (act a p) = nullableLast cfg p) by reflexivity.
    rewrite Hnl, Hfold. by apply act_idempotent.
Qed.

(** ** Reconciliation *)

Lemma append_assoc (a b c : string) : (a +:+ b) +:+ c = a +:+ b +:+ c.
Proof.
  induction a as [|x a IH]; [reflexivity |].
  change (String x ((a +:+ b) +:+ c) = String x (a +:+ b +:+ c)).
  by rewrite IH.
Qed.

Lemma append_cons (x : ascii) (a b : string) :
  String x a +:+ b = String x (a +:+ b).
Proof. reflexivity. Qed.

Lemma append_nil_r (s : string) : s +:+ EmptyString = s.
Proof. induction s as [|a s IH]; [done |]. by rewrite append_cons, IH. Qed.

Lemma HasPrefix_spec (s p : string) :
  Strs.HasPrefix s p = true <-> exists t, s = p +:+ t.
Proof.
  unfold Strs.HasPrefix. revert s.
  induction p as [|a p IH]; intros s.
  - destruct s; simpl; split; eauto.
  - destruct s as [|b s]; simpl.
    + split; [done | intros [t Ht]; discriminate].
    + destruct (ascii_dec a b) as [-> | Hne].
      * rewrite IH. split; intros [t Ht]; exists t.
        -- by rewrite append_cons, <- Ht.
        -- rewrite append_cons in Ht. congruence.
      * split; [done | intros [t Ht]; rewrite append_cons in Ht; congruence].
Qed.

Lemma isUnder_spec (p s : string) : isUnder p s = true <-> under p s.
Proof.
  unfold isUnder, under, Strs.eqb.
  rewrite !orb_true_iff, String.eqb_eq, !HasPrefix_spec.
  split.
  - intros [[-> | [t ->]] | [t ->]]; [by left | right; left | right; right];
      exists t; apply append_assoc.
  - intros [-> | [[t ->] | [t ->]]]; [by left; left | left; right | right];
      exists t; symmetry; apply append_assoc.
Qed.

Lemma IndexByte_split (s : string) (c : ascii) (i : nat) :
  Strs.IndexByte s c = Some i ->
  exists rest, s = Strs.take i s +:+ String c rest.
Proof.
  revert i. induction s as [|a s IH]; intros i; simpl; [done |].
  destruct (Ascii.eqb a c) eqn:Hac.
  - intros [= <-]. apply Ascii.eqb_eq in Hac as ->. by exists s.
  - destruct (Strs.IndexByte s c) as [j|]; [| done].
    intros [= <-]. destruct (IH j eq_refl) as [rest Hrest].
    exists rest. simpl. by rewrite append_cons, <- Hrest.
Qed.

(** A name is its sanitized form, or that form followed by a bracket. *)
Lemma sanitizeProperty_split (n : string) :
  sanitizeProperty n = n
  \/ exists rest, n = sanitizeProperty n +:+ "[" +:+ rest.
Proof.
  unfold sanitizeProperty, getArrayPrefix.
  destruct (Strs.IndexByte n "[") as [i|] eqn:Hi.
  - rewrite bool_decide_true by eauto. right.
    by apply IndexByte_split in Hi.
  - by left; rewrite bool_decide_false by (by intros [? ?]).
Qed.

(** Whatever lies under a declared name lies under its sanitized form. *)
Lemma under_sanitizeProperty (x n : string) :
  under x n -> under x (sanitizeProperty n).
Proof.
  destruct (sanitizeProperty_split n) as [-> | [rest Hn]]; [done |].
  intros Hu. right; right. rewrite Hn in Hu.
  destruct Hu as [-> | [[t ->] | [t ->]]].
  - by exists rest.
  - exists (rest +:+ "." +:+ t). by rewrite !append_assoc.
  - exists (rest +:+ "[" +:+ t). by rewrite !append_assoc.
Qed.

Lemma elem_of_skipNames (meta : list ParameterT) (s : string) :
  s ∈ skipNames meta <->
  exists m, m ∈ meta /\ skipDecl m = true /\ s = sanitizeProperty (Name m).
Proof.
  unfold skipNames.
  cut (forall acc : gset string,
          s ∈ foldl (fun acc p =>
                       if Skip p || bool_decide (0 < length (Modifiers p))
                       then {[ sanitizeProperty (Name p) ]} ∪ acc else acc)
                    acc meta <->
          s ∈ acc \/ exists m, m ∈ meta /\ skipDecl m = true
                               /\ s = sanitizeProperty (Name m)).
  { intros H. rewrite H, elem_of_empty. tauto. }
  induction meta as [|p meta IH]; intros acc; simpl.
  - split; [by left | intros [? | (m & Hm & _)]; [done |]].
    by apply elem_of_nil in Hm.
  - rewrite IH. fold (skipDecl p). destruct (skipDecl p) eqn:Hp.
    + rewrite elem_of_union, elem_of_singleton. split.
      * intros [[-> | ?] | (m & ? & ? & ?)]; [right | by left | right].
        -- exists p. split; [apply list_elem_of_here | done].
        -- exists m. split; [by apply list_elem_of_further | done].
      * intros [? | (m & [-> | ?]%elem_of_cons & ? & ?)];
          [by left; right | by left; left | right; by exists m].
    + split.
      * intros [? | (m & ? & ? & ?)]; [by left | right; exists m].
        split; [by apply list_elem_of_further | done].
      * intros [? | (m & [-> | ?]%elem_of_cons & ? & ?)];
          [by left | congruence | right; by exists m].
Qed.

Lemma isSkipped_spec (meta : list ParameterT) (x : string) :
  isSkipped (skipNames meta) x = true <-> underSkip meta x.
Proof.
  unfold isSkipped, underSkip. rewrite existsb_exists. split.
  - intros (s & Hs & Hu). apply list_elem_of_In, elem_of_elements in Hs.
    apply elem_of_skipNames in Hs as (m & ? & ? & ->).
    exists m. by rewrite <- isUnder_spec.
  - intros (m & ? & ? & Hu). exists (sanitizeProperty (Name m)). split.
    + apply list_elem_of_In, elem_of_elements, elem_of_skipNames. by exists m.
    + by apply isUnder_spec.
Qed.

Lemma elem_of_realKeys (real meta : list ParameterT) (x : string) :
  x ∈ realKeys real meta <->
  (exists p, p ∈ real /\ Name p = x /\ Extra p = false) /\ ~ underSkip meta x.
Proof.
  unfold realKeys. rewrite list_elem_of_fmap. rewrite <- isSkipped_spec. split.
  - intros (p & -> & Hp). apply list_elem_of_In, filter_In in Hp as [Hp Hc].
    apply andb_true_iff in Hc as [Hs He].
    apply negb_true_iff in Hs, He. split.
    + exists p. by rewrite list_elem_of_In.
    + by rewrite Hs.
  - intros [(p & Hp & <- & He) Hs]. exists p. split; [done |].
    apply list_elem_of_In, filter_In. split; [by apply list_elem_of_In |].
    rewrite He. by destruct (isSkipped _ _).
Qed.

Lemma elem_of_metaKeys (meta : list ParameterT) (x : string) :
  x ∈ metaKeys meta <->
  (exists p, p ∈ meta /\ Name p = x /\ Extra p = false) /\ ~ underSkip meta x.
Proof.
  unfold metaKeys. rewrite list_elem_of_fmap. rewrite <- isSkipped_spec. split.
  - intros (p & -> & Hp). apply list_elem_of_In, filter_In in Hp as [Hp Hc].
    apply andb_true_iff in Hc as [He Hs].
    apply negb_true_iff in Hs, He. split.
    + exists p. by rewrite list_elem_of_In.
    + by rewrite Hs.
  - intros [(p & Hp & <- & He) Hs]. exists p. split; [done |].
    apply list_elem_of_In, filter_In. split; [by apply list_elem_of_In |].
    rewrite He. by destruct (isSkipped _ _).
Qed.

Lemma elem_of_difference_list (a b : list string) (x : string) :
  x ∈ difference a b <-> x ∈ a /\ x ∉ b.
Proof.
  unfold difference. rewrite list_elem_of_In, filter_In, <- list_elem_of_In.
  rewrite bool_decide_eq_true. by rewrite elem_of_list_to_set.
Qed.

(** C4, as stated, fails: with [@skip a[0]] declared, the real path [a[1]]
    is removed from the real keys (and so never reported missing) although
    it is neither [a[0]] nor below it. *)
Lemma skip_name_counterexample :
  let real := [NewParameter "a[1]"] in
  let meta := [SetSkip true (NewParameter "a[0]")] in
  ("a[1]" ∉ realKeys real meta)
  /\ missingKeys real meta = []
  /\ ~ (exists m, m ∈ meta /\ skipDecl m = true /\ under "a[1]" (Name m)).
Proof.
  simpl. split; [| split].
  - vm_compute. apply not_elem_of_nil.
  - by vm_compute.
  - intros (m & Hm & _ & Hu). apply list_elem_of_singleton in Hm as ->.
    apply isUnder_spec in Hu. by vm_compute in Hu.
Qed.

(** C4, amended: the skip-names are the names of the parameters declared
    Skip or carrying a modifier, each cut at its first opening bracket.  A
    path stays in the real-key set (and likewise in the declared-key set)
    iff a non-Extra entry has it and it is under no skip-name, where [p] is
    under [s] iff [p == s], or [p] starts with [s] and a dot, or with [s]
    and a bracket.  Hence a Skip declaration (or one with modifiers) for
    [q] removes [q] and all its descendants from both key sets and from
    the missing and orphan reports, at any depth. *)
Theorem skip_subtree_removed (real meta : list ParameterT) :
  (forall x, x ∈ realKeys real meta <->
             (exists p, p ∈ real /\ Name p = x /\ Extra p = false)
             /\ ~ underSkip meta x)
  /\ (forall x, x ∈ metaKeys meta <->
                (exists p, p ∈ meta /\ Name p = x /\ Extra p = false)
                /\ ~ underSkip meta x)
  /\ (forall q x, q ∈ meta -> skipDecl q = true -> under x (Name q) ->
                  (x ∉ realKeys real meta) /\ (x ∉ metaKeys meta)
                  /\ (x ∉ missingKeys real meta)
                  /\ (x ∉ orphanKeys real meta)).
Proof.
  split; [apply elem_of_realKeys | split; [apply elem_of_metaKeys |]].
  intros q x Hq Hs Hu.
  assert (Hsk : underSkip meta x).
  { exists q. repeat split; [done | done | by apply under_sanitizeProperty]. }
  unfold missingKeys, orphanKeys.
  rewrite !elem_of_difference_list, elem_of_realKeys, elem_of_metaKeys.
  tauto.
Qed.

Lemma skip_subtree_removed_witness :
  let real := [valueParam ("db.host", VString "h");
               valueParam ("db.ports[0].name", VString "http")] in
  let meta := [SetSkip true (NewParameter "db")] in
  ("db.ports[0].name" ∉ realKeys real meta)
  /\ ("db.ports[0].name" ∉ missingKeys real meta).
Proof.
  intros real meta.
  destruct (skip_subtree_removed real meta) as (_ & _ & H).
  destruct (H (SetSkip true (NewParameter "db")) "db.ports[0].name")
    as (H1 & _ & H3 & _).
  - apply list_elem_of_singleton. reflexivity.
  - reflexivity.
  - right; left. exists "ports[0].name". reflexivity.
  - split; assumption.
Defined.

(** ** The Markdown table *)

Lemma length_append (a b : string) :
  String.length (a +:+ b) = String.length a + String.length b.
Proof.
  induction a as [|x a IH]; [reflexivity |].
  rewrite append_cons. simpl. by rewrite IH.
Qed.

Lemma length_Repeat (c : ascii) (n : nat) : String.length (Strs.Repeat c n) = n.
Proof. induction n as [|n IH]; simpl; [done | by rewrite IH]. Qed.

Lemma length_padCell (wj : nat) (c : string) :
  String.length c <= wj -> String.length (padCell wj c) = wj + 3.
Proof.
  intros H. unfold padCell.
  rewrite !length_append, length_Repeat. simpl. lia.
Qed.





Lemma drop_append (p t : string) : Strs.drop (String.length p) (p +:+ t) = t.
Proof. induction p as [|a p IH]; [by destruct t | by rewrite append_cons]. Qed.






















(** ** Steps that touch the heap only *)

Create HintDb heaponly.

Lemma heapOnly_ret {A} (a : A) : heapOnly (ret a).
Proof. by intros w. Qed.

Lemma heapOnly_fail {A} (e : string) : heapOnly (@fail A e).
Proof. by intros w. Qed.

Lemma heapOnly_panic {A} (e : string) : heapOnly (@panic A e).
Proof. by intros w. Qed.

Lemma heapOnly_bind {A B} (m : M A) (f : A -> M B) :
  heapOnly m -> (forall a, heapOnly (f a)) -> heapOnly (bind m f).
Proof.
  intros Hm Hf w. unfold bind. destruct (Hm w) as [F S].
  destruct (m w) as [w' [a | e | e]]; simpl in *; [| done | done].
  destruct (Hf a w') as [H1 H2]. by rewrite H1, H2.
Qed.

Lemma heapOnly_newParam p : heapOnly (newParam p).
Proof. by intros w. Qed.

Lemma heapOnly_getParam a : heapOnly (getParam a).
Proof. intros w. unfold getParam. by destruct (params w !! a). Qed.

Lemma heapOnly_newSection s : heapOnly (newSection s).
Proof. by intros w. Qed.

Lemma heapOnly_getSection a : heapOnly (getSection a).
Proof. intros w. unfold getSection. by destruct (sections w !! a). Qed.

Lemma heapOnly_modifyParam a f : heapOnly (modifyParam a f).
Proof.
  apply heapOnly_bind; [apply heapOnly_getParam | by intros p w].
Qed.

Lemma heapOnly_modifySection a f : heapOnly (modifySection a f).
Proof.
  apply heapOnly_bind; [apply heapOnly_getSection | by intros s w].
Qed.

Lemma heapOnly_ReadFile path : heapOnly (ReadFile path).
Proof. intros w. unfold ReadFile. by destruct (files w !! path). Qed.

#[local] Hint Resolve heapOnly_ret heapOnly_fail heapOnly_panic
  heapOnly_newParam heapOnly_getParam heapOnly_newSection heapOnly_getSection
  heapOnly_modifyParam heapOnly_modifySection heapOnly_ReadFile : heaponly.

(** Splitting a computation at its binds, branches and matches. *)
Ltac heap_only :=
  repeat first
    [ progress (eauto with heaponly)
    | apply heapOnly_bind; [| intros ?]
    | match goal with
      | |- heapOnly (match ?x with _ => _ end) => destruct x
      | |- heapOnly (if ?b then _ else _) => destruct b
      end ].

Lemma heapOnly_declare st p : heapOnly (declare st p).
Proof. unfold declare. heap_only. Qed.

Lemma heapOnly_appendDescription st txt : heapOnly (appendDescription st txt).
Proof. unfold appendDescription. heap_only. Qed.

#[local] Hint Resolve heapOnly_declare heapOnly_appendDescription : heaponly.

Lemma heapOnly_parseLine cfg st line : heapOnly (parseLine cfg st line).
Proof. unfold parseLine. heap_only. Qed.

Lemma heapOnly_parseLines cfg st lines : heapOnly (parseLines cfg st lines).
Proof.
  revert st. induction lines as [|l lines IH]; intros st; simpl.
  - apply heapOnly_ret.
  - apply heapOnly_bind; [apply heapOnly_parseLine | intros st'; apply IH].
Qed.

#[local] Hint Resolve heapOnly_parseLines : heaponly.

Lemma heapOnly_parseMetadataComments path cfg :
  heapOnly (parseMetadataComments path cfg).
Proof. unfold parseMetadataComments. heap_only. Qed.

Lemma heapOnly_valuesOfNode node : heapOnly (valuesOfNode node).
Proof.
  intros w. unfold valuesOfNode, bind. by rewrite allocValues_spec.
Qed.

#[local] Hint Resolve heapOnly_valuesOfNode : heaponly.

Lemma heapOnly_createValuesObject ext path :
  heapOnly (createValuesObject ext path).
Proof. unfold createValuesObject. heap_only. Qed.

(** [loadConfig] changes nothing at all. *)
Lemma loadConfig_world ext path w : (loadConfig ext path w).1 = w.
Proof.
  unfold loadConfig. case_bool_decide; [done |].
  destruct (files w !! path); [| done].
  by destruct (jsonUnmarshalConfig _ _ _).
Qed.

(** Printing one line per key. *)
Lemma forM_println (f : string -> string) (l : list string) (w : World) :
  forM_ l (fun k => println (f k)) w
  = (setStdout (stdout w ++ (f <$> l)) w, Ret tt).
Proof.
  revert w. induction l as [|k l IH]; intros w; simpl.
  - unfold ret, setStdout. rewrite app_nil_r. by destruct w.
  - unfold bind, println at 1. rewrite IH. unfold setStdout; simpl.
    by rewrite <- app_assoc.
Qed.

(** [checkKeys] on a mismatch: every missing key, then every orphan key,
    is printed, and the one error is returned. *)
Lemma checkKeys_mismatch (real meta : list ptr) (w : World) :
  let r := loadParams w real in
  let m := loadParams w meta in
  missingKeys r m <> [] \/ orphanKeys r m <> [] ->
  checkKeys real meta w
  = (setStdout (stdout w ++ (missingLine <$> missingKeys r m)
                         ++ (orphanLine <$> orphanKeys r m)) w,
     Fail "metadata errors found").
Proof.
  intros r m Hne. unfold checkKeys. fold r m.
  rewrite bool_decide_false.
  - unfold bind. rewrite forM_println, forM_println. unfold fail, setStdout.
    simpl. by rewrite <- app_assoc.
  - intros [H1 H2]. apply length_zero_iff_nil in H1, H2. tauto.
Qed.

(** A run whose reconciliation finds a mismatch: the mismatches are
    printed, the error is returned, and no file has changed. *)
Lemma run_validation_failure (ext : Externals) (opts : options) (w : World)
    (cfg : Config) (w1 w2 : World) (valuesObj : list ptr) (meta : Metadata) :
  optVersion opts = false ->
  (loadConfig ext (configPath opts) w).2 = Ret cfg ->
  createValuesObject ext (valuesPath opts) w = (w1, Ret valuesObj) ->
  parseMetadataComments (valuesPath opts) cfg w1 = (w2, Ret meta) ->
  let real := loadParams w2 valuesObj in
  let decl := loadParams w2 (Parameters meta) in
  missingKeys real decl <> [] \/ orphanKeys real decl <> [] ->
  exists w',
    runReadmeGenerator ext opts w = (w', Fail "metadata errors found")
    /\ files w' = files w
    /\ stdout w' = stdout w ++ (missingLine <$> missingKeys real decl)
                            ++ (orphanLine <$> orphanKeys real decl).
Proof.
  intros Hv Hcfg Hvals Hparse real decl Hne.
  unfold runReadmeGenerator. rewrite Hv. unfold bind at 1.
  pose proof (loadConfig_world ext (configPath opts) w) as Hw.
  destruct (loadConfig ext (configPath opts) w) as [w0 o]; simpl in *.
  subst w0 o. unfold bind at 1.
  unfold getParsedMetadata. unfold bind at 1. rewrite Hvals.
  unfold bind at 1. rewrite Hparse. unfold bind at 1.
  rewrite checkKeys_mismatch by exact Hne.
  eexists. split; [reflexivity |].
  destruct (heapOnly_createValuesObject ext (valuesPath opts) w) as [F1 S1].
  destruct (heapOnly_parseMetadataComments (valuesPath opts) cfg w1) as [F2 S2].
  rewrite Hvals in F1, S1. rewrite Hparse in F2, S2. simpl in *.
  split; [congruence |]. fold real decl. congruence.
Qed.

(** C5: when reconciliation finds a missing or an orphan key, every
    missing path and then every orphan path is printed on a line of its
    own, the run ends with the single error "metadata errors found", and no
    file is written: neither the target document nor the schema file. *)
Theorem validation_failure_aborts (ext : Externals) (opts : options)
    (w w1 w2 : World) (cfg : Config) (valuesObj : list ptr) (meta : Metadata) :
  optVersion opts = false ->
  (loadConfig ext (configPath opts) w).2 = Ret cfg ->
  createValuesObject ext (valuesPath opts) w = (w1, Ret valuesObj) ->
  parseMetadataComments (valuesPath opts) cfg w1 = (w2, Ret meta) ->
  let real := loadParams w2 valuesObj in
  let decl := loadParams w2 (Parameters meta) in
  missingKeys real decl <> [] \/ orphanKeys real decl <> [] ->
  exists w',
    runReadmeGenerator ext opts w = (w', Fail "metadata errors found")
    /\ stdout w' = stdout w ++ (missingLine <$> missingKeys real decl)
                            ++ (orphanLine <$> orphanKeys real decl)
    /\ files w' = files w
    /\ files w' !! readmePath opts = files w !! readmePath opts
    /\ files w' !! schemaPath opts = files w !! schemaPath opts.
Proof.
  intros Hv Hcfg Hvals Hparse real decl Hne.
  destruct (run_validation_failure ext opts w cfg w1 w2 valuesObj meta
              Hv Hcfg Hvals Hparse Hne) as (w' & Hrun & Hfiles & Hout).
  exists w'. rewrite Hfiles. by repeat split.
Qed.

Lemma validation_failure_aborts_witness :
  exists w',
    runReadmeGenerator (exampleExt treePort) exampleOpts (exampleWorld textPort)
      = (w', Fail "metadata errors found")
    /\ stdout w' = ["ERROR: Missing metadata for key: port";
                    "ERROR: Metadata provided for non existing key: ghost"]
    /\ files w' = files (exampleWorld textPort).
Proof.
  destruct (validation_failure_aborts (exampleExt treePort) exampleOpts
              (exampleWorld textPort)
              (setParams [valueParam ("port", VInt 1)] (exampleWorld textPort))
              (setParams [valueParam ("port", VInt 1);
                          withDescription "A key that is not there"
                            (NewParameter "ghost")]
                         (exampleWorld textPort))
              defaultConfig [0] {| Sections := []; Parameters := [1] |})
    as (w' & Hrun & Hout & Hfiles & _).
  - reflexivity.
  - reflexivity.
  - vm_compute. reflexivity.
  - vm_compute. reflexivity.
  - left. vm_compute. discriminate.
  - exists w'. split; [exact Hrun |]. split; [| exact Hfiles].
    rewrite Hout. vm_compute. reflexivity.
Defined.

(** ** Values without directives *)

Lemma MatchString_false (r : regex) (line : string) :
  MatchString r line = false -> FindStringSubmatch r line = None.
Proof.
  unfold MatchString. intros H%bool_decide_eq_false.
  destruct (FindStringSubmatch r line); [| done].
  exfalso. apply H. eauto.
Qed.

(** Outside a description block a line without directive changes nothing. *)
Lemma parseLine_plain (cfg : Config) (st : parserState) (line : string) :
  psDescriptionMode st = false -> isDirective cfg line = false ->
  parseLine cfg st line = ret st.
Proof.
  intros Hd H. unfold isDirective in H.
  repeat (apply orb_false_iff in H as [H ?]).
  unfold parseLine. rewrite Hd. simpl.
  by rewrite !MatchString_false.
Qed.

Lemma parseLines_plain (cfg : Config) (st : parserState) (lines : list string)
    (w : World) :
  psDescriptionMode st = false ->
  Forall (fun line => isDirective cfg line = false) lines ->
  parseLines cfg st lines w = (w, Ret st).
Proof.
  intros Hd. induction 1 as [|l lines Hl _ IH]; simpl; [done |].
  unfold bind. by rewrite parseLine_plain.
Qed.

(** The flattener on [{x: [1, 2]}]: two leaves, [x[0]] and [x[1]]. *)
Lemma valuesOfNode_treeX (w : World) :
  valuesOfNode treeX w
  = (setParams (params w ++ [valueParam ("x[1]", VInt 2);
                             valueParam ("x[0]", VInt 1)]) w,
     Ret [S (length (params w)); length (params w)]).
Proof.
  unfold valuesOfNode, bind. rewrite allocValues_spec.
  assert (Hkvs : map_to_list (flattenYAML EmptyString treeX ∅)
                 = [("x[1]", VInt 2); ("x[0]", VInt 1)])
    by (vm_compute; reflexivity).
  rewrite Hkvs. reflexivity.
Qed.

(** C1, as stated, fails: on [{x: [1, 2]}] without directives the run ends
    in the validation error, with both leaves reported missing and no file
    written; the merger is never reached. *)
Lemma undeclared_values_counterexample :
  let r := runReadmeGenerator (exampleExt treeX) exampleOpts (exampleWorld textX) in
  r.2 = Fail "metadata errors found"
  /\ r.2 <> Ret tt
  /\ stdout r.1 = ["ERROR: Missing metadata for key: x[0]";
                   "ERROR: Missing metadata for key: x[1]"]
  /\ files r.1 = files (exampleWorld textX).
Proof.
  intros r.
  assert (H : r.2 = Fail "metadata errors found") by (vm_compute; reflexivity).
  split; [exact H |]. split; [rewrite H; discriminate |].
  split; vm_compute; reflexivity.
Qed.

(** The world such a run ends in is the one reconciliation found, with the
    report printed: the run ends there, so the merger has added nothing to
    the heap and filled nothing in. *)
Lemma run_validation_failure_world (ext : Externals) (opts : options)
    (w : World) (cfg : Config) (w1 w2 : World) (valuesObj : list ptr)
    (meta : Metadata) :
  optVersion opts = false ->
  (loadConfig ext (configPath opts) w).2 = Ret cfg ->
  createValuesObject ext (valuesPath opts) w = (w1, Ret valuesObj) ->
  parseMetadataComments (valuesPath opts) cfg w1 = (w2, Ret meta) ->
  missingKeys (loadParams w2 valuesObj) (loadParams w2 (Parameters meta)) <> []
  \/ orphanKeys (loadParams w2 valuesObj) (loadParams w2 (Parameters meta))
     <> [] ->
  runReadmeGenerator ext opts w
  = (setStdout
       (stdout w2
        ++ (missingLine <$> missingKeys (loadParams w2 valuesObj)
                              (loadParams w2 (Parameters meta)))
        ++ (orphanLine <$> orphanKeys (loadParams w2 valuesObj)
                             (loadParams w2 (Parameters meta)))) w2,
     Fail "metadata errors found").
Proof.
  intros Hv Hcfg Hvals Hparse Hne.
  unfold runReadmeGenerator. rewrite Hv. unfold bind at 1.
  pose proof (loadConfig_world ext (configPath opts) w) as Hw.
  destruct (loadConfig ext (configPath opts) w) as [w0 o]; simpl in *.
  subst w0 o. unfold bind at 1.
  unfold getParsedMetadata. unfold bind at 1. rewrite Hvals.
  unfold bind at 1. rewrite Hparse. unfold bind at 1.
  by rewrite checkKeys_mismatch by exact Hne.
Qed.

(** C1, amended: for the input tree [{x: [1, 2]}] with no directives in the
    source text, the flattened keys are [x[0]] and [x[1]], reconciliation
    reports both as missing metadata, and the run fails with the validation
    error before the merger runs: the heap holds the two flattened
    parameters as the flattener left them and nothing else, neither a
    synthesized Skip entry nor a section; no table row and no schema
    property is written, because no file is. *)
Theorem undeclared_values_rejected (ext : Externals) (opts : options)
    (w : World) (cfg : Config) (raw : string) :
  optVersion opts = false ->
  (loadConfig ext (configPath opts) w).2 = Ret cfg ->
  files w !! valuesPath opts = Some raw ->
  yamlUnmarshal ext raw = inr treeX ->
  noDirectives cfg raw ->
  exists w',
    runReadmeGenerator ext opts w = (w', Fail "metadata errors found")
    /\ stdout w' = stdout w ++ [missingLine "x[0]"; missingLine "x[1]"]
    /\ files w' = files w
    /\ params w' = params w ++ [valueParam ("x[1]", VInt 2);
                                valueParam ("x[0]", VInt 1)]
    /\ sections w' = sections w.
Proof.
  intros Hv Hcfg Hfile Hyaml Hplain.
  set (n := length (params w)).
  set (w1 := setParams (params w ++ [valueParam ("x[1]", VInt 2);
                                     valueParam ("x[0]", VInt 1)]) w).
  assert (Hvals : createValuesObject ext (valuesPath opts) w = (w1, Ret [S n; n])).
  { unfold createValuesObject, bind, ReadFile. rewrite Hfile, Hyaml.
    apply valuesOfNode_treeX. }
  assert (Hparse : parseMetadataComments (valuesPath opts) cfg w1
                   = (w1, Ret {| Sections := []; Parameters := [] |})).
  { unfold parseMetadataComments, bind, ReadFile.
    change (files w1) with (files w). rewrite Hfile.
    by rewrite parseLines_plain. }
  assert (Hreal : loadParams w1 [S n; n]
                  = [valueParam ("x[0]", VInt 1); valueParam ("x[1]", VInt 2)]).
  { unfold loadParams, w1; simpl. subst n.
    rewrite !lookup_app_r by lia.
    replace (S (length (params w)) - length (params w)) with 1 by lia.
    by rewrite Nat.sub_diag. }
  destruct (run_validation_failure ext opts w cfg w1 w1 [S n; n]
              {| Sections := []; Parameters := [] |} Hv Hcfg Hvals Hparse)
    as (w' & Hrun & Hfiles & Hout).
  - left. cbn [Parameters]. rewrite Hreal. by vm_compute.
  - pose proof (run_validation_failure_world ext opts w cfg w1 w1 [S n; n]
                  {| Sections := []; Parameters := [] |} Hv Hcfg Hvals Hparse)
      as Hworld.
    rewrite Hrun in Hworld.
    assert (Hw' : params w' = params w1 /\ sections w' = sections w1).
    { injection Hworld as ->.
      - done.
      - left. cbn [Parameters]. rewrite Hreal. by vm_compute. }
    destruct Hw' as [Hparams Hsections].
    exists w'. split; [exact Hrun |]. split; [| by split].
    rewrite Hout. cbn [Parameters]. rewrite Hreal. by vm_compute.
Qed.

Lemma undeclared_values_rejected_witness :
  exists w',
    runReadmeGenerator (exampleExt treeX) exampleOpts (exampleWorld textX)
      = (w', Fail "metadata errors found")
    /\ files w' = files (exampleWorld textX)
    /\ params w' = [valueParam ("x[1]", VInt 2); valueParam ("x[0]", VInt 1)].
Proof.
  destruct (undeclared_values_rejected (exampleExt treeX) exampleOpts
              (exampleWorld textX) defaultConfig textX)
    as (w' & Hrun & _ & Hfiles & Hparams & _).
  - reflexivity.
  - reflexivity.
  - vm_compute. reflexivity.
  - reflexivity.
  - unfold noDirectives.
    refine (bool_decide_eq_true_1
              (Forall (fun line => isDirective defaultConfig line = false)
                      (sourceLines textX)) _).
    vm_compute. reflexivity.
  - exists w'. split; [assumption |]. split; assumption.
Defined.

(** ** The merger's synthesized entries *)

(** C2: the code at [@skip db] over [{db: {host: "h"}}].  Reconciliation
    succeeds; the real entry [db.host] matches no declared parameter; the
    merger appends a Skip parameter for it to its own slice variable only,
    and the parameter list of the metadata that [getParsedMetadata] returns
    still holds the one declared parameter [db].  On every input the
    metadata handed back is the one the parser built, pointer for
    pointer. *)
Theorem merger_synthesis_not_in_metadata :
  (let ext := exampleExt treeDb in
   let w0 := exampleWorld textDb in
   exists w1 w2 w3 w4 valuesObj meta localMeta,
     createValuesObject ext "values.yaml" w0 = (w1, Ret valuesObj)
     /\ parseMetadataComments "values.yaml" defaultConfig w1 = (w2, Ret meta)
     /\ checkKeys valuesObj (Parameters meta) w2 = (w3, Ret tt)
     /\ combineMetadataAndValues valuesObj (Parameters meta) w3
        = (w4, Ret localMeta)
     /\ getParsedMetadata ext "values.yaml" defaultConfig w0 = (w4, Ret meta)
     /\ (fun p => (Name p, Value p)) <$> loadParams w4 valuesObj
        = [("db.host", VString "h")]
     /\ (fun p => (Name p, Value p, Skip p)) <$> loadParams w4 localMeta
        = [("db", VNil, true); ("db.host", VString "h", true)]
     /\ (fun p => (Name p, Value p, Skip p)) <$> loadParams w4 (Parameters meta)
        = [("db", VNil, true)])
  /\ (forall ext path cfg w,
        match getParsedMetadata ext path cfg w with
        | (_, Ret meta) =>
          exists w1 w2 valuesObj,
            createValuesObject ext path w = (w1, Ret valuesObj)
            /\ parseMetadataComments path cfg w1 = (w2, Ret meta)
        | _ => True
        end).
Proof.
  split.
  - intros ext w0. subst ext w0.
    eexists _, _, _, _, _, _, _.
    split; [vm_compute; reflexivity |].
    split; [vm_compute; reflexivity |].
    split; [vm_compute; reflexivity |].
    split; [vm_compute; reflexivity |].
    repeat split; vm_compute; reflexivity.
  - intros ext path cfg w. unfold getParsedMetadata, bind.
    destruct (createValuesObject ext path w) as [w1 [vs | |]]; [| done | done].
    destruct (parseMetadataComments path cfg w1) as [w2 [meta | |]] eqn:Hparse;
      [| done | done].
    destruct (checkKeys vs (Parameters meta) w2) as [w3 [[] | |]];
      [| done | done].
    destruct (combineMetadataAndValues vs (Parameters meta) w3)
      as [w4 [l | |]]; [| done | done].
    simpl. by exists w1, w2, vs.
Qed.

(** ** Extra-role parameters *)

Lemma skipNames_extra_only (p : ParameterT) :
  Modifiers p = [] -> skipNames [SetExtra true p] = ∅.
Proof.
  intros Hm. unfold skipNames. simpl. rewrite Hm. reflexivity.
Qed.

(** C7: the code on an Extra declaration whose path is also a real key.
    With [@extra foo] over [{foo: 1}] the run fails and reports [foo] as
    missing metadata; indeed for any path, a real entry and an Extra
    declaration of that path alone put the path in the missing list.  The
    value cell of an Extra parameter is empty whatever its value. *)
Theorem extra_reported_missing :
  (let r := runReadmeGenerator (exampleExt treeFoo) exampleOpts
              (exampleWorld textFoo) in
   r.2 = Fail "metadata errors found"
   /\ stdout r.1 = ["ERROR: Missing metadata for key: foo"])
  /\ (forall (n : string) (v : Any),
        let real := [valueParam (n, v)] in
        let meta := [SetExtra true (withValue (VString EmptyString)
                                      (NewParameter n))] in
        Extra (valueParam (n, v)) = false
        /\ realKeys real meta = [n]
        /\ metaKeys meta = []
        /\ missingKeys real meta = [n]
        /\ orphanKeys real meta = [])
  /\ (forall (ext : Externals) (p : ParameterT),
        valueCell ext (SetExtra true p) = EmptyString
        /\ tableRow ext (SetExtra true p)
           = [backtick (Name p); Description p; EmptyString]).
Proof.
  split; [| split].
  - vm_compute. by split.
  - intros n v real meta.
    assert (Hreal : realKeys real meta = [n]).
    { unfold realKeys, real, meta. rewrite skipNames_extra_only by reflexivity.
      reflexivity. }
    assert (Hmeta : metaKeys meta = []) by reflexivity.
    unfold missingKeys, orphanKeys. rewrite Hreal, Hmeta.
    repeat split.
  - intros ext p. split; reflexivity.
Qed.

(** * Further properties *)

(** ** The flattener *)

(** Induction over values, through the entries of maps and sequences. *)
Lemma Any_nested_ind (P : Any -> Prop) :
  P VNil ->
  (forall s, P (VString s)) ->
  (forall b, P (VBool b)) ->
  (forall n, P (VInt n)) ->
  (forall n, P (VInt64 n)) ->
  (forall b, P (VFloat64 b)) ->
  (forall l, Forall P l -> P (VSlice l)) ->
  (forall m, Forall (fun kv => P kv.2) m -> P (VMap m)) ->
  (forall t, P (VOther t)) ->
  forall v, P v.
Proof.
  intros Hnil Hstr Hbool Hint Hint64 Hfl Hsl Hmap Hoth.
  fix IH 1. intros [ | s | b | n | n | b | l | m | t].
  - exact Hnil.
  - apply Hstr.
  - apply Hbool.
  - apply Hint.
  - apply Hint64.
  - apply Hfl.
  - apply Hsl. induction l as [|x l IHl]; constructor; [apply IH | exact IHl].
  - apply Hmap. induction m as [|[k x] m IHm]; constructor;
      [apply IH | exact IHm].
  - apply Hoth.
Qed.

Lemma flattenYAML_VMap (prefix : string) (kvs : list (string * Any))
    (out : gmap string Any) :
  kvs <> [] ->
  flattenYAML prefix (VMap kvs) out = flattenEntries prefix kvs out.
Proof.
  intros Hne. destruct kvs as [|kv kvs]; [done |].
  change (flattenYAML prefix (VMap (kv :: kvs)) out) with
    ((fix range (kvs : list (string * Any)) (out : gmap string Any) :=
        match kvs with
        | [] => out
        | (k, val) :: rest =>
          let key := if bool_decide (prefix <> EmptyString)
                     then prefix +:+ "." +:+ k else k in
          range rest (flattenYAML key val out)
        end) (kv :: kvs) out).
  generalize (kv :: kvs) as l. clear. intros l. revert out.
  induction l as [|[k v] l IH]; intros out; [reflexivity |].
  simpl. rewrite <- IH. reflexivity.
Qed.

Lemma flattenYAML_VSlice (prefix : string) (l : list Any)
    (out : gmap string Any) :
  l <> [] ->
  flattenYAML prefix (VSlice l) out = flattenItems prefix 0 l out.
Proof.
  intros Hne. destruct l as [|x l]; [done |].
  change (flattenYAML prefix (VSlice (x :: l)) out) with
    ((fix range (i : nat) (l : list Any) (out : gmap string Any) :=
        match l with
        | [] => out
        | val :: rest =>
          let key := prefix +:+ "[" +:+ Strs.itoa i +:+ "]" in
          range (S i) rest (flattenYAML key val out)
        end) 0 (x :: l) out).
  generalize (x :: l) as l'. generalize 0 as i. clear. intros i l. revert i out.
  induction l as [|v l IH]; intros i out; [reflexivity |].
  simpl. rewrite <- IH. reflexivity.
Qed.

(** What [flattenYAML] does with anything but a map or sequence with
    entries: it stores the value at [prefix], except an empty container at
    the root. *)
Lemma flattenYAML_leaf (prefix : string) (v : Any) (out : gmap string Any) :
  storedWhole v ->
  flattenYAML prefix v out = <[prefix := v]> out
  \/ flattenYAML prefix v out = out.
Proof.
  destruct v as [ | | | | | | [|x l] | [|kv m] | ]; simpl; try done;
    try (by left); intros _; case_bool_decide; auto.
Qed.


(** The list [valuesOfNode] returns, and the heap it leaves. *)
Lemma valuesOfNode_result (node : Any) (w : World) :
  let kvs := map_to_list (flattenYAML EmptyString node ∅) in
  valuesOfNode node w
  = (setParams (params w ++ (valueParam <$> kvs)) w,
     Ret (sortSlice (fun x y => Strs.ltb x.2 y.2)
            (zip (seq (length (params w)) (length kvs)) kvs.*1)).*1).
Proof.
  intros kvs. unfold valuesOfNode, bind. by rewrite allocValues_spec.
Qed.



Lemma under_childKey (path prefix k : string) :
  prefix <> EmptyString -> under path (childKey prefix k) -> under path prefix.
Proof.
  intros Hne. unfold childKey. rewrite bool_decide_true by done.
  intros [-> | [[t ->] | [t ->]]]; right; left.
  - by exists k.
  - exists (k +:+ "." +:+ t). by rewrite !append_assoc.
  - exists (k +:+ "[" +:+ t). by rewrite !append_assoc.
Qed.

Lemma under_itemKey (path prefix : string) (i : nat) :
  under path (itemKey prefix i) -> under path prefix.
Proof.
  unfold itemKey.
  intros [-> | [[t ->] | [t ->]]]; right; right.
  - by eexists.
  - exists (Strs.itoa i +:+ "]" +:+ "." +:+ t). by rewrite !append_assoc.
  - exists (Strs.itoa i +:+ "]" +:+ "[" +:+ t). by rewrite !append_assoc.
Qed.

Lemma childKey_nonempty (prefix k : string) :
  prefix <> EmptyString -> childKey prefix k <> EmptyString.
Proof.
  intros Hne. unfold childKey. rewrite bool_decide_true by done.
  destruct prefix; [done | discriminate].
Qed.

Lemma itemKey_nonempty (prefix : string) (i : nat) :
  itemKey prefix i <> EmptyString.
Proof. unfold itemKey. destruct prefix; discriminate. Qed.

Lemma flattenYAML_new_keys (v : Any) :
  forall (prefix : string) (out : gmap string Any) (path : string),
    prefix <> EmptyString ->
    is_Some (flattenYAML prefix v out !! path) ->
    is_Some (out !! path) \/ under path prefix.
Proof.
  assert (Hleaf : forall (x : Any) prefix (out : gmap string Any) path,
             is_Some (<[prefix := x]> out !! path) ->
             is_Some (out !! path) \/ under path prefix).
  { intros x prefix out path. destruct (decide (prefix = path)) as [-> | Hne].
    - intros _. right. by left.
    - rewrite lookup_insert_ne by done. by left. }
  induction v as [ | s | b | n | n | b | l IH | m IH | t] using Any_nested_ind;
    intros prefix out path Hne; try apply Hleaf.
  - destruct l as [|x l].
    + simpl. case_bool_decide; [apply Hleaf | by left].
    + rewrite flattenYAML_VSlice by done.
      generalize 0 as i. revert out.
      induction IH as [|y l' Hy _ IHl]; intros out i; simpl; [by left |].
      intros [H | H]%IHl; [| by right].
      apply Hy in H as [H | H]; [by left | right | apply itemKey_nonempty].
      by apply under_itemKey in H.
  - destruct m as [|kv m].
    + simpl. case_bool_decide; [apply Hleaf | by left].
    + rewrite flattenYAML_VMap by done.
      revert out.
      induction IH as [|y l' Hy _ IHl]; intros out; simpl; [by left |].
      intros [H | H]%IHl; [| by right].
      apply Hy in H as [H | H]; [by left | right | by apply childKey_nonempty].
      by apply under_childKey in H.
Qed.

Lemma flattenYAML_keeps_keys (v : Any) :
  forall (prefix : string) (out : gmap string Any) (path : string),
    is_Some (out !! path) -> is_Some (flattenYAML prefix v out !! path).
Proof.
  assert (Hleaf : forall (x : Any) prefix (out : gmap string Any) path,
             is_Some (out !! path) -> is_Some (<[prefix := x]> out !! path)).
  { intros x prefix out path H. rewrite lookup_insert_is_Some.
    destruct (decide (prefix = path)); auto. }
  induction v as [ | s | b | n | n | b | l IH | m IH | t] using Any_nested_ind;
    intros prefix out path; try apply Hleaf.
  - destruct l as [|x l].
    + simpl. case_bool_decide; [apply Hleaf | done].
    + rewrite flattenYAML_VSlice by done.
      generalize 0 as i. revert out.
      induction IH as [|y l' Hy _ IHl]; intros out i H; simpl; [done |].
      apply IHl, Hy, H.
  - destruct m as [|kv m].
    + simpl. case_bool_decide; [apply Hleaf | done].
    + rewrite flattenYAML_VMap by done.
      revert out.
      induction IH as [|y l' Hy _ IHl]; intros out H; simpl; [done |].
      apply IHl, Hy, H.
Qed.

(** X2: flattening a subtree at a non-empty path [prefix] only adds keys
    that are [prefix] itself or lie below it (they continue with a dot or
    an opening bracket), and keeps every key the map already had.  So the
    real keys of a subtree are exactly covered by the test reconciliation
    applies to a skip-name. *)
Theorem flattened_keys_lie_under_prefix (prefix : string) (v : Any)
    (out : gmap string Any) (path : string) :
  prefix <> EmptyString ->
  (is_Some (out !! path) -> is_Some (flattenYAML prefix v out !! path))
  /\ (is_Some (flattenYAML prefix v out !! path) ->
      is_Some (out !! path) \/ isUnder path prefix = true).
Proof.
  intros Hne. split.
  - apply flattenYAML_keeps_keys.
  - intros H. apply flattenYAML_new_keys in H as [H | H]; [by left | | done].
    right. by apply isUnder_spec.
Qed.

Lemma flattened_keys_lie_under_prefix_witness :
  is_Some (flattenYAML "db" (VMap [("ports", VSlice [VMap [("name", VString "http")]])])
             ∅ !! "db.ports[0].name")
  /\ isUnder "db.ports[0].name" "db" = true.
Proof.
  assert (H : is_Some (flattenYAML "db"
                (VMap [("ports", VSlice [VMap [("name", VString "http")]])])
                ∅ !! "db.ports[0].name")).
  { vm_compute. eexists. reflexivity. }
  split; [exact H |].
  destruct (flattened_keys_lie_under_prefix "db"
              (VMap [("ports", VSlice [VMap [("name", VString "http")]])])
              ∅ "db.ports[0].name") as [_ Hnew]; [discriminate |].
  destruct (Hnew H) as [Hold | Hu]; [| exact Hu].
  exfalso. rewrite lookup_empty in Hold. by destruct Hold.
Defined.

(** ** The order of the real parameters *)

Lemma ltb_asym (a b : string) : Strs.ltb a b = true -> Strs.ltb b a = false.
Proof.
  unfold Strs.ltb, String.ltb. rewrite (String.compare_antisym a b).
  by destruct (String.compare b a).
Qed.

Lemma ltb_total (a b : string) :
  a <> b -> Strs.ltb b a = false -> Strs.ltb a b = true.
Proof.
  unfold Strs.ltb, String.ltb. intros Hne.
  rewrite (String.compare_antisym a b).
  destruct (String.compare b a) eqn:Hc; simpl; try done.
  by apply String.compare_eq_iff in Hc.
Qed.

(** Insertion keeps a list in order, for any comparison that never holds
    both ways. *)
Lemma insertSorted_Sorted {A} (less : A -> A -> bool) (x : A) (l : list A) :
  (forall a b, less a b = true -> less b a = false) ->
  Sorted (fun a b => less b a = false) l ->
  Sorted (fun a b => less b a = false) (insertSorted less x l).
Proof.
  intros Hasym. induction 1 as [|y l Hl IH Hhd]; simpl.
  - by repeat constructor.
  - destruct (less y x) eqn:Hyx.
    + constructor; [exact IH |].
      destruct l as [|z l]; simpl.
      * constructor. by apply Hasym.
      * destruct (less z x); constructor;
          [by inversion Hhd | by apply Hasym].
    + constructor; [by constructor | by constructor].
Qed.

Lemma sortSlice_Sorted {A} (less : A -> A -> bool) (l : list A) :
  (forall a b, less a b = true -> less b a = false) ->
  Sorted (fun a b => less b a = false) (sortSlice less l).
Proof.
  intros Hasym. induction l as [|x l IH]; simpl; [constructor |].
  by apply insertSorted_Sorted.
Qed.

(** A list in order whose elements are pairwise distinct is strictly
    increasing. *)
Lemma Sorted_strict (l : list string) :
  NoDup l ->
  Sorted (fun a b => Strs.ltb b a = false) l ->
  Sorted (fun a b => Strs.ltb a b = true) l.
Proof.
  intros Hnd. induction 1 as [|y l Hl IH Hhd]; [constructor |].
  apply NoDup_cons in Hnd as [Hy Hnd].
  constructor; [by apply IH |].
  destruct Hhd as [|z l Hz]; constructor.
  apply ltb_total; [| done]. intros ->. apply Hy. by left.
Qed.

Lemma Sorted_fmap_snd {A} (R : string -> string -> Prop) (l : list (A * string)) :
  Sorted (fun x y => R x.2 y.2) l -> Sorted R l.*2.
Proof.
  induction 1 as [|y l Hl IH Hhd]; simpl; [constructor |].
  constructor; [exact IH |]. destruct Hhd; simpl; by constructor.
Qed.

(** The objects behind addresses handed out by [allocValues] carry the
    names they were paired with. *)
Lemma loadParams_allocated (w : World) (kvs : list (string * Any))
    (l : list (ptr * string)) :
  l ⊆ zip (seq (length (params w)) (length kvs)) kvs.*1 ->
  Name <$> loadParams (setParams (params w ++ (valueParam <$> kvs)) w) l.*1
  = l.*2.
Proof.
  intros Hsub. induction l as [|[a name] l IH]; [reflexivity |].
  assert (Hin : (a, name) ∈ zip (seq (length (params w)) (length kvs)) kvs.*1)
    by (apply Hsub; left).
  apply list_elem_of_lookup in Hin as [i Hi].
  apply lookup_zip_with_Some in Hi as (a' & name' & [= <- <-] & Ha & Hname).
  apply lookup_seq in Ha as [-> Hlt].
  rewrite list_lookup_fmap in Hname.
  destruct (kvs !! i) as [kv|] eqn:Hkv; [| done].
  simpl in Hname. injection Hname as <-.
  unfold loadParams in *. simpl.
  rewrite lookup_app_r by lia.
  replace (length (params w) + i - length (params w)) with i by lia.
  rewrite list_lookup_fmap, Hkv. simpl. f_equal.
  apply IH. intros x Hx. apply Hsub. by right.
Qed.

(** X3: the real parameters come out of [createValuesObject] in strictly
    increasing order of their names (bytewise), so no two of them share a
    name, whatever order the flattened map is iterated in. *)
Theorem real_parameters_sorted_by_name (node : Any) (w : World) :
  exists w' ptrs,
    valuesOfNode node w = (w', Ret ptrs)
    /\ Sorted (fun a b => Strs.ltb a b = true) (Name <$> loadParams w' ptrs)
    /\ NoDup (Name <$> loadParams w' ptrs)
    /\ length ptrs = size (flattenYAML EmptyString node ∅).
Proof.
  rewrite valuesOfNode_result.
  set (kvs := map_to_list (flattenYAML EmptyString node ∅)).
  set (acc := zip (seq (length (params w)) (length kvs)) kvs.*1).
  set (sorted := sortSlice (fun x y => Strs.ltb x.2 y.2) acc).
  eexists _, _. split; [reflexivity |].
  assert (Hnames : Name <$> loadParams
                     (setParams (params w ++ (valueParam <$> kvs)) w) sorted.*1
                   = sorted.*2).
  { apply loadParams_allocated. intros x Hx. subst sorted.
    by rewrite sortSlice_perm in Hx. }
  assert (Hnd : NoDup sorted.*2).
  { subst sorted. rewrite sortSlice_perm. subst acc.
    rewrite snd_zip by (rewrite length_seq, length_fmap; lia).
    apply NoDup_fst_map_to_list. }
  rewrite Hnames. split; [| split; [exact Hnd |]].
  - apply Sorted_strict; [exact Hnd |].
    apply (Sorted_fmap_snd (fun a b => Strs.ltb b a = false)).
    subst sorted.
    apply (sortSlice_Sorted (fun x y : ptr * string => Strs.ltb x.2 y.2)).
    intros a b. apply ltb_asym.
  - rewrite length_fmap. subst sorted. rewrite sortSlice_perm. subst acc.
    rewrite length_zip_with, length_seq, length_fmap. subst kvs.
    rewrite length_map_to_list. lia.
Qed.

(** ** Sanitized names *)



(** ** Reconciliation: success and the two reports *)

Lemma difference_nil_iff (a b : list string) :
  difference a b = [] <-> forall x, x ∈ a -> x ∈ b.
Proof.
  split.
  - intros H x Hx. destruct (decide (x ∈ b)) as [|Hnb]; [done |].
    assert (Hd : x ∈ difference a b) by by apply elem_of_difference_list.
    rewrite H in Hd. by apply elem_of_nil in Hd.
  - intros H. destruct (difference a b) as [|x l] eqn:Hd; [done |].
    assert (Hx : x ∈ difference a b) by (rewrite Hd; left).
    apply elem_of_difference_list in Hx as [Hx Hnb]. by apply H in Hx.
Qed.

Lemma difference_sublist (a b : list string) : difference a b `sublist_of` a.
Proof.
  unfold difference. induction a as [|x a IH]; simpl; [done |].
  destruct (bool_decide _); by constructor.
Qed.

(** X5: reconciliation succeeds exactly when, once the skip subtrees and
    the Extra entries are left out, the real keys and the declared keys are
    the same set.  It then prints its one confirmation line, and otherwise
    returns the validation error; either way it changes no object and no
    file. *)
Theorem reconciliation_succeeds_iff_same_keys (real meta : list ptr)
    (w : World) :
  let r := loadParams w real in
  let m := loadParams w meta in
  ((checkKeys real meta w).2 = Ret tt <->
   forall x, x ∈ realKeys r m <-> x ∈ metaKeys m)
  /\ ((checkKeys real meta w).2 = Ret tt
      \/ (checkKeys real meta w).2 = Fail "metadata errors found")
  /\ ((checkKeys real meta w).2 = Ret tt <->
      stdout (checkKeys real meta w).1
      = stdout w ++ ["INFO: Metadata is correct!"])
  /\ params (checkKeys real meta w).1 = params w
  /\ sections (checkKeys real meta w).1 = sections w
  /\ files (checkKeys real meta w).1 = files w.
Proof.
  intros r m.
  destruct (decide (missingKeys r m = [] /\ orphanKeys r m = [])) as [Hok | Hbad].
  - assert (Hrun : checkKeys real meta w
                   = (setStdout (stdout w ++ ["INFO: Metadata is correct!"]) w,
                      Ret tt)).
    { unfold checkKeys. fold r m. destruct Hok as [-> ->].
      by rewrite bool_decide_true. }
    rewrite Hrun. simpl. destruct Hok as [Hmiss Horph].
    unfold missingKeys in Hmiss. unfold orphanKeys in Horph.
    rewrite difference_nil_iff in Hmiss, Horph.
    repeat split; auto.
  - assert (Hne : missingKeys r m <> [] \/ orphanKeys r m <> []).
    { destruct (missingKeys r m), (orphanKeys r m); auto. }
    rewrite (checkKeys_mismatch real meta w Hne). fold r m. simpl.
    split; [| split; [by right | split; [| done]]].
    + split; [done |]. intros H. exfalso. apply Hbad.
      unfold missingKeys, orphanKeys. rewrite !difference_nil_iff.
      split; intros x; apply H.
    + split; [done |]. intros H. exfalso.
      apply app_inv_head in H.
      destruct Hne as [Hne | Hne].
      * destruct (missingKeys r m) as [|k l]; [done |]. simpl in H.
        injection H as H _. discriminate H.
      * destruct (missingKeys r m) as [|k l]; simpl in H.
        -- destruct (orphanKeys r m) as [|k l]; [done |].
           simpl in H. injection H as H _. discriminate H.
        -- injection H as H _. discriminate H.
Qed.

(** X6: the two reports.  A missing key is a real key without declaration
    and an orphan is a declared key without real entry: no key is in both
    reports, neither report holds a key under a skip-name, and each report
    lists its keys in the order of the list they come from. *)
Theorem missing_and_orphan_reports (real meta : list ParameterT) (x : string) :
  (x ∈ missingKeys real meta <->
   x ∈ realKeys real meta /\ x ∉ metaKeys meta)
  /\ (x ∈ orphanKeys real meta <->
      x ∈ metaKeys meta /\ x ∉ realKeys real meta)
  /\ ~ (x ∈ missingKeys real meta /\ x ∈ orphanKeys real meta)
  /\ ~ (isSkipped (skipNames meta) x = true
        /\ (x ∈ missingKeys real meta \/ x ∈ orphanKeys real meta))
  /\ missingKeys real meta `sublist_of` (Name <$> real)
  /\ orphanKeys real meta `sublist_of` (Name <$> meta).
Proof.
  unfold missingKeys, orphanKeys. rewrite !elem_of_difference_list.
  split; [done |]. split; [done |]. split; [tauto |]. split; [| split].
  - rewrite isSkipped_spec, elem_of_realKeys, elem_of_metaKeys. tauto.
  - etrans; [apply difference_sublist |].
    unfold realKeys. apply fmap_sublist.
    clear. induction real as [|p real IH]; simpl; [done |].
    destruct (_ && _); by constructor.
  - etrans; [apply difference_sublist |].
    unfold metaKeys. apply fmap_sublist.
    generalize (skipNames meta) as sk. intros sk.
    induction meta as [|p meta IH]; simpl; [done |].
    destruct (_ && _); by constructor.
Qed.

(** ** More on the modifier engine *)

Lemma act_keeps_value (a : typeAct * valueAct) (p : ParameterT) :
  setsNonNil a.2 -> isNil (Value p) = false -> isNil (Value (act a p)) = false.
Proof.
  destruct a as [ta [| |c]]; simpl; intros Ha Hp; [done | | done].
  by rewrite Hp.
Qed.

Lemma foldl_applyModifier_keeps_value cfg nl ms p :
  isNil (Value p) = false ->
  isNil (Value (foldl (applyModifier cfg nl) p ms)) = false.
Proof.
  destruct (foldl_applyModifier_act cfg nl ms) as (a & Ha & Hfold).
  rewrite Hfold. by apply act_keeps_value.
Qed.

Lemma HasModifier_split (p : ParameterT) (m : string) :
  HasModifier p m = true -> exists l1 l2, Modifiers p = l1 ++ m :: l2.
Proof.
  unfold HasModifier. rewrite existsb_exists.
  intros (mm & Hin & Heq). apply String.eqb_eq in Heq as ->.
  by apply list_elem_of_In, list_elem_of_split in Hin.
Qed.

(** X7: the modifier engine never takes a value away, and [nullable] makes
    sure there is one.  A parameter that has a value still has one
    afterwards; and when the nullable token differs from the array, object
    and string tokens, a parameter carrying [nullable] never comes out
    without a value, wherever the token stands in the list. *)
Theorem modifiers_never_clear_the_value (cfg : Config) (p : ParameterT) :
  (isNil (Value p) = false \/
   (HasModifier p (ModNullable cfg) = true
    /\ ModArray cfg <> ModNullable cfg
    /\ ModObject cfg <> ModNullable cfg
    /\ ModString cfg <> ModNullable cfg)) ->
  isNil (Value (applyModifiers p cfg)) = false.
Proof.
  intros [Hv | (Hm & Ha & Ho & Hs)].
  - unfold applyModifiers. destruct (Modifiers p) eqn:Hms; [done |].
    by apply foldl_applyModifier_keeps_value.
  - destruct (HasModifier_split p _ Hm) as (l1 & l2 & Hms).
    unfold applyModifiers. rewrite Hms.
    destruct (l1 ++ ModNullable cfg :: l2) eqn:Hl;
      [by destruct l1 |]. rewrite <- Hl.
    rewrite foldl_app. cbn [foldl].
    apply foldl_applyModifier_keeps_value.
    rewrite applyModifier_nullable by done.
    destruct (isNil (Value (foldl _ p l1))) eqn:Hnil; [done | exact Hnil].
Qed.

Lemma modifiers_never_clear_the_value_witness :
  isNil (Value (applyModifiers
                  (withModifiers ["nullable"; "unknown"] (NewParameter "a"))
                  defaultConfig)) = false.
Proof.
  apply modifiers_never_clear_the_value. right.
  split; [reflexivity |]. repeat split; discriminate.
Defined.

Lemma applyModifier_unknown cfg nl p m :
  unknownModifier cfg m = true -> applyModifier cfg nl p m = p.
Proof.
  unfold unknownModifier, applyModifier. rewrite !andb_true_iff, !negb_true_iff.
  by intros ((((-> & ->) & ->) & ->) & ->).
Qed.

(** X8: a modifier that is none of the configured tokens, such as a
    misspelled one, changes nothing in what is rendered, yet it still makes
    the parameter a skip-name: its whole subtree is exempt from
    reconciliation. *)
Theorem unknown_modifier_only_skips_validation (cfg : Config)
    (p : ParameterT) :
  Modifiers p <> [] ->
  forallb (unknownModifier cfg) (Modifiers p) = true ->
  applyModifiers p cfg = p
  /\ skipDecl p = true
  /\ forall real meta x, p ∈ meta -> under x (Name p) ->
       (x ∉ missingKeys real meta) /\ (x ∉ orphanKeys real meta).
Proof.
  intros Hne Hunk. split; [| split].
  - unfold applyModifiers. destruct (Modifiers p) as [|m ms] eqn:Hms; [done |].
    generalize (nullableLast cfg p) as nl. intros nl.
    clear Hne Hms. revert Hunk. generalize (m :: ms) as l. clear m ms.
    intros l. induction l as [|m l IH] using rev_ind; [done |].
    rewrite forallb_app. simpl. rewrite andb_true_r, andb_true_iff.
    intros [Hl Hm]. rewrite foldl_app. simpl.
    rewrite IH by done. by apply applyModifier_unknown.
  - unfold skipDecl. rewrite bool_decide_true; [apply orb_true_r |].
    destruct (Modifiers p); [done | simpl; lia].
  - intros real meta x Hp Hu.
    assert (Hsk : underSkip meta x).
    { exists p. split; [done |]. split; [| by apply under_sanitizeProperty].
      unfold skipDecl. rewrite bool_decide_true; [apply orb_true_r |].
      destruct (Modifiers p); [done | simpl; lia]. }
    unfold missingKeys, orphanKeys.
    rewrite !elem_of_difference_list, elem_of_realKeys, elem_of_metaKeys.
    tauto.
Qed.

Lemma unknown_modifier_only_skips_validation_witness :
  let p := withModifiers ["arary"] (NewParameter "ports") in
  applyModifiers p defaultConfig = p
  /\ ("ports[0]" ∉ missingKeys [valueParam ("ports[0]", VInt 80)] [p]).
Proof.
  intros p.
  destruct (unknown_modifier_only_skips_validation defaultConfig p)
    as (Hsame & _ & Hskip); [discriminate | reflexivity |].
  split; [exact Hsame |].
  destruct (Hskip [valueParam ("ports[0]", VInt 80)] [p] "ports[0]")
    as [Hm _]; [apply list_elem_of_singleton; reflexivity | | exact Hm].
  right; right. exists "0]". reflexivity.
Defined.

(** ** The value cell *)

Lemma backtick_nonempty (s : string) : backtick s <> EmptyString.
Proof. unfold backtick. discriminate. Qed.

(** X9: the value cell of a table row is empty exactly for Extra-role
    parameters.  Every other parameter shows a literal between backticks;
    for a string value that literal is the string itself, and two double
    quotes when the string is empty. *)
Theorem value_cell_empty_iff_extra (ext : Externals) (p : ParameterT) :
  (valueCell ext p = EmptyString <-> Extra p = true)
  /\ (Extra p = false -> exists body, valueCell ext p = backtick body)
  /\ (forall s, Extra p = false -> Value p = VString s ->
        valueCell ext p = backtick (if bool_decide (s = EmptyString)
                                    then emptyLiteral else s)).
Proof.
  unfold valueCell. destruct (Extra p) eqn:He.
  - split; [done |]. split; [done |]. intros s H. discriminate H.
  - split; [| split].
    + split; [| done]. intros H. exfalso.
      destruct (Value p); try (by apply backtick_nonempty in H).
      case_bool_decide; by apply backtick_nonempty in H.
    + intros _. destruct (Value p); try by eexists.
      case_bool_decide; by eexists.
    + intros s _ ->. by case_bool_decide.
Qed.

Lemma value_cell_empty_iff_extra_witness :
  valueCell (exampleExt VNil) (withValue (VString EmptyString) (NewParameter "a"))
  = backtick emptyLiteral.
Proof.
  destruct (value_cell_empty_iff_extra (exampleExt VNil)
              (withValue (VString EmptyString) (NewParameter "a")))
    as (_ & _ & H).
  apply (H EmptyString); reflexivity.
Defined.


(** ** Selecting the parameters to render *)

(** The modifier engine touches the type and the value only. *)
Lemma applyModifiers_fields (p : ParameterT) (cfg : Config) :
  Name (applyModifiers p cfg) = Name p
  /\ Description (applyModifiers p cfg) = Description p
  /\ Modifiers (applyModifiers p cfg) = Modifiers p
  /\ Section_ (applyModifiers p cfg) = Section_ p
  /\ Validate (applyModifiers p cfg) = Validate p
  /\ Readme (applyModifiers p cfg) = Readme p
  /\ Schema (applyModifiers p cfg) = Schema p.
Proof.
  unfold applyModifiers. destruct (Modifiers p) as [|m ms] eqn:Hm.
  - by rewrite Hm.
  - destruct (foldl_applyModifier_act cfg (nullableLast cfg p) (m :: ms))
      as (a & _ & ->).
    rewrite act_Modifiers, Hm. repeat split.
Qed.

Lemma applyModifiers_Skip (p : ParameterT) (cfg : Config) :
  Skip (applyModifiers p cfg) = Skip p.
Proof.
  unfold Skip. destruct (applyModifiers_fields p cfg) as (_&_&_&_&->&->&_).
  done.
Qed.

(** A second pass of the engine over its own result changes nothing. *)
Lemma applyModifiers_again (p : ParameterT) (cfg : Config) :
  applyModifiers (applyModifiers p cfg) cfg = applyModifiers p cfg.
Proof.
  unfold applyModifiers at 2 3.
  destruct (Modifiers p) as [|m ms] eqn:Hms.
  - unfold applyModifiers. by rewrite Hms.
  - destruct (foldl_applyModifier_act cfg (nullableLast cfg p) (m :: ms))
      as (a & Ha & Hfold).
    rewrite Hfold. unfold applyModifiers.
    rewrite act_Modifiers, Hms.
    assert (Hnl : nullableLast cfg (act a p) = nullableLast cfg p)
      by reflexivity.
    rewrite Hnl, Hfold. by apply act_idempotent.
Qed.

Lemma modifiedIn_skip (a : ptr) (l : list ptr) (cfg : Config)
    (ps : list ParameterT) (p : ParameterT) :
  ps !! a = Some p -> Skip p = true ->
  modifiedIn (a :: l) cfg ps = modifiedIn l cfg ps.
Proof.
  unfold ptr in *.
  intros Ha Hs. unfold modifiedIn. apply list_eq. intros i.
  rewrite !list_lookup_imap. destruct (ps !! i) as [q|] eqn:Hq; [| done].
  simpl. f_equal. destruct (decide (i = a)) as [Heq | Hne].
  - rewrite Heq in Hq. rewrite Ha in Hq. injection Hq as <-.
    rewrite Hs. simpl. by rewrite !andb_false_r.
  - rewrite (bool_decide_ext (i ∈ a :: l) (i ∈ l)); [done |].
    rewrite elem_of_cons. split; [by intros [? | ?] | by right].
Qed.

Lemma modifiedIn_step (a : ptr) (l : list ptr) (cfg : Config)
    (ps : list ParameterT) (p : ParameterT) :
  ps !! a = Some p -> Skip p = false ->
  modifiedIn l cfg (<[a := applyModifiers p cfg]> ps)
  = modifiedIn (a :: l) cfg ps.
Proof.
  unfold ptr in *.
  intros Ha Hs. unfold modifiedIn. apply list_eq. intros i.
  rewrite !list_lookup_imap. destruct (decide (i = a)) as [-> | Hne].
  - rewrite list_lookup_insert_eq by (by eapply lookup_lt_Some).
    rewrite Ha. simpl. f_equal.
    rewrite applyModifiers_Skip, Hs, applyModifiers_again.
    rewrite (bool_decide_true (a ∈ a :: l)) by left. simpl.
    by destruct (bool_decide _).
  - rewrite list_lookup_insert_ne by done.
    destruct (ps !! i) as [q|]; [| done]. simpl.
    rewrite (bool_decide_ext (i ∈ a :: l) (i ∈ l)); [done |].
    rewrite elem_of_cons. split; [by intros [? | ?] | by right].
Qed.

Lemma isSkipAt_insert (w : World) (a x : ptr) (p : ParameterT) (cfg : Config) :
  params w !! a = Some p ->
  isSkipAt (setParams (<[a := applyModifiers p cfg]> (params w)) w) x
  = isSkipAt w x.
Proof.
  intros Ha. unfold isSkipAt; simpl. unfold ptr in *.
  destruct (decide (x = a)) as [-> | Hne].
  - rewrite list_lookup_insert_eq by (by eapply lookup_lt_Some).
    by rewrite Ha, applyModifiers_Skip.
  - by rewrite list_lookup_insert_ne.
Qed.

(** X10: [buildParamsToRender] on a list of live pointers never fails.  It
    returns the pointers of the list whose object is not Skip, in the
    order of the list, and leaves the heap with the modifier engine applied
    to exactly those objects: Skip objects and objects outside the list
    are untouched, and an object listed twice is as if listed once. *)
Theorem buildParamsToRender_selects_non_skip (l : list ptr) (cfg : Config)
    (w : World) :
  validPtrs w l ->
  buildParamsToRender l cfg w
  = (setParams (modifiedIn l cfg (params w)) w,
     Ret (List.filter (fun a => negb (isSkipAt w a)) l)).
Proof.
  unfold ptr in *.
  revert w. induction l as [|a l IH]; intros w Hvalid.
  - simpl. unfold ret, modifiedIn, setParams.
    rewrite (imap_ext _ (fun _ p => p)); [| by intros i p _; simpl].
    replace (imap (fun _ p => p) (params w)) with (params w).
    + by destruct w.
    + clear. induction (params w) as [|p ps IHps]; [done |].
      simpl. f_equal. rewrite IHps at 1. reflexivity.
  - apply Forall_cons in Hvalid as [[p Hp] Hvalid].
    cbn [buildParamsToRender]. unfold bind at 1, getParam. rewrite Hp.
    simpl List.filter. unfold isSkipAt at 1. rewrite Hp.
    destruct (Skip p) eqn:Hs; simpl negb; cbv iota.
    + rewrite IH by done. by rewrite (modifiedIn_skip a l cfg _ p).
    + unfold bind at 1, modifyParam, bind, getParam. rewrite Hp.
      unfold ptr in *. cbv beta.
      assert (Hvalid1 : validPtrs
                (setParams (<[a := applyModifiers p cfg]> (params w)) w) l).
      { eapply Forall_impl; [exact Hvalid |]. intros x Hx. simpl.
        apply lookup_lt_is_Some. rewrite length_insert.
        by apply lookup_lt_is_Some. }
      rewrite (IH _ Hvalid1). unfold ret. f_equal.
      * unfold setParams; simpl. f_equal. by apply modifiedIn_step.
      * do 2 f_equal. apply List.filter_ext. intros x.
        f_equal. exact (isSkipAt_insert w a x p cfg Hp).
Qed.

Lemma buildParamsToRender_selects_non_skip_witness :
  let w := setParams [NewParameter "a"; SetSkip true (NewParameter "b");
                      withModifiers ["string"] (NewParameter "c")]
                     (exampleWorld EmptyString) in
  (buildParamsToRender [0; 1; 2; 0] defaultConfig w).2 = Ret [0; 2; 0].
Proof.
  intros w.
  rewrite (buildParamsToRender_selects_non_skip [0; 1; 2; 0] defaultConfig w).
  - reflexivity.
  - unfold validPtrs. repeat constructor; eexists; reflexivity.
Defined.

(** ** The merger *)

Lemma combineMetadataAndValues_loops (values meta : list ptr) :
  combineMetadataAndValues values meta
  = (exec forM_ meta (fillStep values) in addSkips values meta).
Proof. reflexivity. Qed.

Lemma fillFrom_Name (vs : list ParameterT) (p : ParameterT) :
  Name (fillFrom vs p) = Name p.
Proof.
  unfold fillFrom. destruct (Extra p); [done |].
  destruct (List.find _ vs); [| done]. simpl. by destruct (isNil (Value p)).
Qed.

(** Filling a parameter that has been filled changes nothing. *)
Lemma fillFrom_again (vs : list ParameterT) (p : ParameterT) :
  fillFrom vs (fillFrom vs p) = fillFrom vs p.
Proof.
  unfold fillFrom at 2. destruct (Extra p) eqn:He.
  - unfold fillFrom. by rewrite He.
  - destruct (List.find (fun src => Strs.eqb (Name src) (Name p)) vs)
      as [src|] eqn:Hf.
    + unfold fillFrom.
      destruct p as [n d v t ms s va r sc]. simpl in *.
      unfold Extra in *; simpl in *.
      destruct (isNil v) eqn:Hv; simpl; rewrite He, Hf; simpl.
      * by destruct (isNil (Value src)).
      * by rewrite Hv.
    + unfold fillFrom. by rewrite He, Hf.
Qed.

Lemma validPtrs_lt (w : World) (l : list ptr) (a : ptr) :
  validPtrs w l -> a ∈ l -> a < length (params w).
Proof.
  unfold validPtrs. rewrite Forall_forall. intros H Ha.
  by apply lookup_lt_is_Some, H.
Qed.

Lemma validPtrs_same_length (w w' : World) (l : list ptr) :
  length (params w) <= length (params w') -> validPtrs w l -> validPtrs w' l.
Proof.
  intros Hlen H. eapply Forall_impl; [exact H |]. intros a Ha. simpl in *.
  apply lookup_lt_is_Some. apply lookup_lt_is_Some in Ha. lia.
Qed.

Lemma loadParams_cons_valid (w : World) (a : ptr) (l : list ptr)
    (p : ParameterT) :
  params w !! a = Some p -> loadParams w (a :: l) = p :: loadParams w l.
Proof. intros H. unfold loadParams. simpl. unfold ptr in *. by rewrite H. Qed.

(** Objects that exist are not affected by what is appended to the heap. *)
Lemma loadParams_app (w : World) (new : list ParameterT) (l : list ptr) :
  validPtrs w l ->
  loadParams (setParams (params w ++ new) w) l = loadParams w l.
Proof.
  unfold loadParams, validPtrs; simpl. unfold ptr in *.
  induction 1 as [|a l Ha _ IH]; [done |].
  simpl. rewrite lookup_app_l by (by apply lookup_lt_is_Some).
  destruct Ha as [p Hp]. rewrite Hp. f_equal. exact IH.
Qed.

(** Objects outside [meta] are not affected by the first loop. *)
Lemma loadParams_filledIn (w : World) (meta l : list ptr)
    (vs : list ParameterT) :
  (forall a, a ∈ l -> a ∉ meta) ->
  loadParams (setParams (filledIn meta vs (params w)) w) l = loadParams w l.
Proof.
  unfold loadParams, filledIn; simpl. intros Hdis.
  unfold ptr in *.
  induction l as [|a l IH]; [done |]. simpl.
  assert (IH' := IH (fun x Hx => Hdis x (list_elem_of_further _ _ _ Hx))).
  rewrite list_lookup_imap.
  destruct (params w !! a) as [p|] eqn:Hp; simpl; [| exact IH'].
  rewrite bool_decide_false by (apply Hdis; by left).
  f_equal. exact IH'.
Qed.

Lemma loadParams_filledIn_names (w : World) (meta l : list ptr)
    (vs : list ParameterT) :
  Name <$> loadParams (setParams (filledIn meta vs (params w)) w) l
  = Name <$> loadParams w l.
Proof.
  unfold loadParams, filledIn; simpl.
  unfold ptr in *.
  induction l as [|a l IH]; [done |]. simpl.
  rewrite list_lookup_imap.
  destruct (params w !! a) as [p|] eqn:Hp; simpl; [| exact IH].
  f_equal; [| exact IH]. case_bool_decide; [apply fillFrom_Name | done].
Qed.

Lemma filledIn_nil (vs : list ParameterT) (ps : list ParameterT) :
  filledIn [] vs ps = ps.
Proof.
  unfold filledIn. apply list_eq. intros i. rewrite list_lookup_imap.
  by destruct (ps !! i).
Qed.

Lemma filledIn_step (a : ptr) (l : list ptr) (vs ps : list ParameterT)
    (p : ParameterT) :
  ps !! a = Some p ->
  filledIn l vs (<[a := fillFrom vs p]> ps) = filledIn (a :: l) vs ps.
Proof.
  unfold ptr in *. intros Ha. unfold filledIn. apply list_eq. intros i.
  rewrite !list_lookup_imap. destruct (decide (i = a)) as [-> | Hne].
  - rewrite list_lookup_insert_eq by (by eapply lookup_lt_Some).
    rewrite Ha. simpl. f_equal.
    rewrite (bool_decide_true (a ∈ a :: l)) by left.
    case_bool_decide; [apply fillFrom_again | done].
  - rewrite list_lookup_insert_ne by done.
    destruct (ps !! i) as [q|]; [| done]. simpl.
    rewrite (bool_decide_ext (i ∈ a :: l) (i ∈ l)); [done |].
    rewrite elem_of_cons. split; [by intros [? | ?] | by right].
Qed.

Lemma loadParams_insert (w : World) (a : ptr) (q : ParameterT) (l : list ptr) :
  a ∉ l ->
  loadParams (setParams (<[a := q]> (params w)) w) l = loadParams w l.
Proof.
  unfold loadParams; simpl. unfold ptr in *. intros Hnot.
  induction l as [|x l IH]; [done |]. simpl.
  assert (IH' := IH (fun Hx => Hnot (list_elem_of_further _ _ _ Hx))).
  rewrite list_lookup_insert_ne by (intros ->; apply Hnot; by left).
  destruct (params w !! x); [f_equal |]; exact IH'.
Qed.

Lemma fillStep_spec (values : list ptr) (a : ptr) (w : World)
    (p : ParameterT) :
  params w !! a = Some p ->
  fillStep values a w
  = (setParams (<[a := fillFrom (loadParams w values) p]> (params w)) w,
     Ret tt).
Proof.
  intros Hp. unfold fillStep, modifyParam, bind, getParam.
  unfold ptr in *. rewrite Hp. simpl. by rewrite Hp.
Qed.

(** The first loop. *)
Lemma fill_loop_spec (values l : list ptr) (w : World) :
  validPtrs w l ->
  (forall a, a ∈ l -> a ∉ values) ->
  forM_ l (fillStep values) w
  = (setParams (filledIn l (loadParams w values) (params w)) w, Ret tt).
Proof.
  revert w. induction l as [|a l IH]; intros w Hvalid Hdis.
  - simpl. unfold ret, setParams. rewrite filledIn_nil. by destruct w.
  - apply Forall_cons in Hvalid as [[p Hp] Hvalid].
    cbn [forM_]. unfold bind at 1. rewrite (fillStep_spec values a w p Hp).
    set (vs := loadParams w values).
    assert (Hvs : loadParams (setParams (<[a := fillFrom vs p]> (params w)) w)
                    values = vs).
    { apply loadParams_insert, Hdis. by left. }
    assert (Hvalid1 : validPtrs
              (setParams (<[a := fillFrom vs p]> (params w)) w) l).
    { eapply validPtrs_same_length; [| exact Hvalid].
      simpl. by rewrite length_insert. }
    rewrite (IH _ Hvalid1) by (intros x Hx; apply Hdis; by right).
    rewrite Hvs. unfold setParams; simpl. do 2 f_equal.
    by apply filledIn_step.
Qed.

Lemma existsb_fmap_Name (n : string) (ps : list ParameterT) :
  existsb (fun p => Strs.eqb (Name p) n) ps
  = existsb (fun x => Strs.eqb x n) (Name <$> ps).
Proof. induction ps as [|p ps IH]; [done |]. simpl. by rewrite IH. Qed.

(** The second loop. *)
Lemma addSkips_spec (srcs local : list ptr) (w : World) :
  validPtrs w srcs -> validPtrs w local ->
  let synth := synthesize (Name <$> loadParams w local) (loadParams w srcs) in
  addSkips srcs local w
  = (setParams (params w ++ synth) w,
     Ret (local ++ seq (length (params w)) (length synth))).
Proof.
  revert local w. induction srcs as [|s srcs IH]; intros local w Hsrcs Hlocal.
  - simpl. unfold ret, setParams. rewrite !app_nil_r. by destruct w.
  - apply Forall_cons in Hsrcs as [[src Hsrc] Hsrcs].
    rewrite (loadParams_cons_valid w s srcs src Hsrc).
    cbn [addSkips synthesize]. unfold bind at 1, getParam.
    unfold ptr in *. rewrite Hsrc.
    unfold bind at 1. rewrite existsb_fmap_Name.
    destruct (existsb _ (Name <$> loadParams w local)) eqn:Hfound.
    + by apply IH.
    + unfold bind at 1, newParam.
      set (np := SetSkip true src).
      assert (Hsrcs1 : validPtrs (setParams (params w ++ [np]) w) srcs).
      { eapply validPtrs_same_length; [| exact Hsrcs].
        simpl. rewrite length_app. lia. }
      assert (Hlocal1 : validPtrs (setParams (params w ++ [np]) w)
                          (local ++ [length (params w)])).
      { apply Forall_app. split.
        - eapply validPtrs_same_length; [| exact Hlocal].
          simpl. rewrite length_app. lia.
        - constructor; [| constructor]. simpl.
          apply lookup_lt_is_Some. rewrite length_app. simpl. lia. }
      rewrite (IH _ _ Hsrcs1 Hlocal1).
      assert (Hl : loadParams (setParams (params w ++ [np]) w)
                     (local ++ [length (params w)])
                   = loadParams w local ++ [np]).
      { unfold loadParams at 1. rewrite omap_app.
        fold (loadParams (setParams (params w ++ [np]) w) local).
        rewrite loadParams_app by done. f_equal. simpl.
        rewrite lookup_app_r by lia. by rewrite Nat.sub_diag. }
      rewrite Hl, (loadParams_app w [np] srcs Hsrcs).
      rewrite fmap_app. simpl.
      unfold setParams; simpl. rewrite <- !app_assoc. simpl.
      rewrite length_app. simpl.
      replace (length (params w) + 1) with (S (length (params w))) by lia.
      reflexivity.
Qed.

Lemma existsb_eqb_elem (n : string) (names : list string) :
  existsb (fun x => Strs.eqb x n) names = true <-> n ∈ names.
Proof.
  rewrite existsb_exists. split.
  - intros (x & Hx & ->%String.eqb_eq). by apply list_elem_of_In.
  - intros Hn. exists n. split; [by apply list_elem_of_In |].
    apply String.eqb_refl.
Qed.

(** The names of the synthesized entries: the real names not yet taken. *)
Lemma synthesize_names (names : list string) (vs : list ParameterT)
    (n : string) :
  n ∈ Name <$> synthesize names vs <-> n ∈ Name <$> vs /\ n ∉ names.
Proof.
  revert names. induction vs as [|src vs IH]; intros names; simpl.
  - rewrite elem_of_nil. tauto.
  - destruct (existsb _ names) eqn:Hex.
    + apply existsb_eqb_elem in Hex. rewrite IH, elem_of_cons.
      split; [tauto |]. intros [[-> | ?] ?]; tauto.
    + assert (Hnot : Name src ∉ names).
      { intros H. apply existsb_eqb_elem in H. congruence. }
      rewrite fmap_cons, !elem_of_cons, IH, elem_of_app, list_elem_of_singleton.
      change (Name (SetSkip true src)) with (Name src).
      destruct (decide (n = Name src)) as [-> | Hne]; tauto.
Qed.

Lemma synthesize_Forall (names : list string) (vs : list ParameterT) :
  Forall (fun p => Skip p = true
                   /\ exists src, src ∈ vs /\ p = SetSkip true src)
         (synthesize names vs).
Proof.
  revert names. induction vs as [|src vs IH]; intros names; simpl;
    [constructor |].
  assert (Hrest : forall names',
             Forall (fun p => Skip p = true
                              /\ exists s, s ∈ src :: vs /\ p = SetSkip true s)
                    (synthesize names' vs)).
  { intros names'. eapply Forall_impl; [apply IH |].
    intros p (Hs & s & Hin & ->). split; [done |]. exists s.
    split; [by right | done]. }
  destruct (existsb _ names); [apply Hrest |].
  constructor; [| apply Hrest].
  split; [done |]. exists src. split; [by left | done].
Qed.

(** X11: the merger on live pointers, the declared ones apart from the
    real ones.  It never fails.  Every declared object is replaced by its
    filled form ([fillFrom]: an Extra parameter as it is, any other with
    the type and schema flag of the first real parameter of its name, and
    with that one's value when it has none); nothing else on the heap
    changes.  The list it builds for itself is the declared pointers
    followed by one new Skip parameter for each real name that is not
    declared, so that every real name is the name of a parameter of that
    list. *)
Theorem merger_fills_and_synthesizes (values meta : list ptr) (w : World) :
  validPtrs w values -> validPtrs w meta ->
  (forall a, a ∈ meta -> a ∉ values) ->
  let vs := loadParams w values in
  let synth := synthesize (Name <$> loadParams w meta) vs in
  exists w' localMeta,
    combineMetadataAndValues values meta w = (w', Ret localMeta)
    /\ w' = setParams (filledIn meta vs (params w) ++ synth) w
    /\ localMeta = meta ++ seq (length (params w)) (length synth)
    /\ loadParams w' values = vs
    /\ Name <$> loadParams w' localMeta
       = (Name <$> loadParams w meta) ++ (Name <$> synth)
    /\ (forall n, n ∈ Name <$> vs -> n ∈ Name <$> loadParams w' localMeta)
    /\ Forall (fun p => Skip p = true
                        /\ exists src, src ∈ vs /\ p = SetSkip true src) synth.
Proof.
  intros Hvalues Hmeta Hdis vs synth.
  assert (Hdis' : forall a, a ∈ values -> a ∉ meta).
  { intros a Ha Hm. by apply (Hdis a). }
  set (w1 := setParams (filledIn meta vs (params w)) w).
  assert (Hlen : length (params w1) = length (params w)).
  { unfold w1, filledIn. simpl. apply length_imap. }
  assert (Hvalues1 : validPtrs w1 values).
  { eapply validPtrs_same_length; [| exact Hvalues]. lia. }
  assert (Hmeta1 : validPtrs w1 meta).
  { eapply validPtrs_same_length; [| exact Hmeta]. lia. }
  assert (Hvs1 : loadParams w1 values = vs) by by apply loadParams_filledIn.
  assert (Hnames1 : Name <$> loadParams w1 meta = Name <$> loadParams w meta)
    by apply loadParams_filledIn_names.
  assert (Hrun : combineMetadataAndValues values meta w
                 = (setParams (params w1 ++ synth) w1,
                    Ret (meta ++ seq (length (params w1)) (length synth)))).
  { rewrite combineMetadataAndValues_loops. unfold bind.
    rewrite (fill_loop_spec values meta w Hmeta Hdis). fold vs w1.
    rewrite (addSkips_spec values meta w1 Hvalues1 Hmeta1).
    cbv zeta. by rewrite Hvs1, Hnames1. }
  eexists _, _. split; [exact Hrun |].
  assert (Hlocal : loadParams (setParams (params w1 ++ synth) w1)
                     (meta ++ seq (length (params w1)) (length synth))
                   = loadParams w1 meta ++ synth).
  { unfold loadParams at 1. rewrite omap_app.
    fold (loadParams (setParams (params w1 ++ synth) w1) meta).
    fold (loadParams (setParams (params w1 ++ synth) w1)
            (seq (length (params w1)) (length synth))).
    by rewrite loadParams_app, loadParams_fresh. }
  split; [reflexivity |]. split; [by rewrite Hlen |].
  split; [by rewrite loadParams_app |].
  rewrite Hlocal, fmap_app, Hnames1.
  split; [reflexivity |]. split; [| apply synthesize_Forall].
  intros n Hn. apply elem_of_app.
  destruct (decide (n ∈ Name <$> loadParams w meta)); [by left | right].
  by apply synthesize_names.
Qed.

Lemma merger_fills_and_synthesizes_witness :
  let w := setParams [valueParam ("db.host", VString "h");
                      SetSkip true (NewParameter "db")]
                     (exampleWorld EmptyString) in
  exists w' localMeta,
    combineMetadataAndValues [0] [1] w = (w', Ret localMeta)
    /\ localMeta = [1; 2].
Proof.
  intros w.
  destruct (merger_fills_and_synthesizes [0] [1] w)
    as (w' & localMeta & Hrun & _ & Hlocal & _).
  - repeat constructor. eexists. reflexivity.
  - repeat constructor. eexists. reflexivity.
  - intros a Ha Hv. apply list_elem_of_singleton in Ha, Hv. congruence.
  - exists w', localMeta. split; [exact Hrun | exact Hlocal].
Defined.


(** ** The parser's loop *)

Lemma last_seq (m j : nat) : last (seq m (S j)) = Some (m + j).
Proof. rewrite seq_S. apply last_snoc. Qed.

Lemma parserInv_mode (w0 w : World) (st : parserState) (b : bool) :
  parserInv w0 w st ->
  parserInv w0 w {| psMeta := psMeta st; psCurrent := psCurrent st;
                    psDescriptionMode := b |}.
Proof. intros [H1 H2]. by constructor. Qed.

(** The open section, when there is one, is the last of the new ones. *)
Lemma parserInv_current (w0 w : World) (st : parserState) (cur : ptr) :
  parserInv w0 w st -> psCurrent st = Some cur ->
  exists new s,
    sections w = sections w0 ++ new ++ [s]
    /\ cur = length (sections w0) + length new
    /\ Sections (psMeta st) = seq (length (sections w0)) (S (length new))
    /\ Forall (sectionShape w (Parameters (psMeta st))) (new ++ [s]).
Proof.
  intros [_ (new & Hsec & Hlist & Hcur & Hshape)] Hc.
  rewrite Hc, Hlist in Hcur.
  destruct new as [|s0 new0] using rev_ind; [done |]. clear IHnew0.
  rewrite length_app in Hcur, Hlist. simpl in Hcur, Hlist.
  replace (length new0 + 1) with (S (length new0)) in Hcur, Hlist by lia.
  rewrite last_seq in Hcur. injection Hcur as ->.
  by exists new0, s0.
Qed.

Lemma modifySection_current (w0 w : World) (cur : ptr) (f : SectionT -> SectionT)
    (new : list SectionT) (s : SectionT) :
  sections w = sections w0 ++ new ++ [s] ->
  cur = length (sections w0) + length new ->
  modifySection cur f w
  = (setSections (sections w0 ++ new ++ [f s]) w, Ret tt).
Proof.
  intros Hsec ->. unfold modifySection, bind, getSection.
  assert (Hlook : sections w !! (length (sections w0) + length new) = Some s).
  { rewrite Hsec, lookup_app_r by lia.
    replace (length (sections w0) + length new - length (sections w0))
      with (length new) by lia.
    rewrite lookup_app_r by lia. by rewrite Nat.sub_diag. }
  unfold ptr in *. rewrite Hlook. do 2 f_equal.
  rewrite Hsec, insert_app_r_alt by lia.
  replace (length (sections w0) + length new - length (sections w0))
    with (length new) by lia.
  rewrite insert_app_r_alt by lia. by rewrite Nat.sub_diag.
Qed.

Lemma appendDescription_inv (w0 w : World) (st : parserState) (txt : string) :
  parserInv w0 w st ->
  exists w', appendDescription st txt w = (w', Ret st) /\ parserInv w0 w' st.
Proof.
  intros Hinv. unfold appendDescription.
  destruct (psCurrent st) as [cur|] eqn:Hcur; [| by exists w].
  destruct (parserInv_current w0 w st cur Hinv Hcur)
    as (new & s & Hsec & Hc & Hlist & Hshape).
  unfold bind.
  erewrite modifySection_current by done.
  eexists. split; [reflexivity |].
  destruct Hinv as [Hp _]. constructor; [exact Hp |].
  eexists (new ++ [_]). simpl. split; [reflexivity |].
  rewrite length_app. simpl.
  replace (length new + 1) with (S (length new)) by lia.
  split; [exact Hlist |]. split; [by rewrite Hcur, Hlist, last_seq, Hc |].
  apply Forall_app in Hshape as [Hnew Hs].
  apply Forall_app. split; [exact Hnew |].
  apply Forall_inv in Hs. by apply Forall_singleton.
Qed.

Lemma sectionShape_grow (w : World) (declared : list ptr) (p : ParameterT)
    (s : SectionT) :
  sectionShape w declared s ->
  sectionShape (setParams (params w ++ [p]) w)
               (declared ++ [length (params w)]) s.
Proof.
  intros [Hsub Hall]. split.
  - by apply sublist_inserts_r.
  - eapply Forall_impl; [exact Hall |]. intros a Ha. simpl in *.
    destruct (params w !! a) as [q|] eqn:Hq; [| done].
    by rewrite (lookup_app_l_Some _ _ _ _ Hq).
Qed.

(** A new parameter joins the open section and the global list. *)
Lemma declare_inv (w0 w : World) (st : parserState) (p : ParameterT) :
  parserInv w0 w st -> declaredShape p ->
  exists w' st',
    declare st p w = (w', Ret st')
    /\ parserInv w0 w' st'
    /\ psDescriptionMode st' = psDescriptionMode st.
Proof.
  intros Hinv Hshape.
  pose proof Hinv as [(newp & Hparams & Hdecl & Hptrs) Hsecs].
  unfold declare. destruct (psCurrent st) as [cur|] eqn:Hcur.
  - destruct (parserInv_current w0 w st cur Hinv Hcur)
      as (new & s & Hsec & Hc & Hlist & Hall).
    assert (Hlook : sections w !! cur = Some s).
    { unfold ptr in *.
      rewrite Hsec, Hc, lookup_app_r by lia.
      replace (length (sections w0) + length new - length (sections w0))
        with (length new) by lia.
      rewrite lookup_app_r by lia. by rewrite Nat.sub_diag. }
    unfold bind at 1, getSection. unfold ptr in *. rewrite Hlook.
    unfold bind at 1, newParam. unfold bind at 1.
    set (p' := withSection (SecName s) p).
    set (w1 := setParams (params w ++ [p']) w).
    erewrite (modifySection_current w0 w1 cur _ new s) by done.
    eexists _, _. split; [reflexivity |]. split; [| done].
    constructor; simpl.
    + exists (newp ++ [p']). rewrite Hparams, <- app_assoc.
      split; [done |]. split.
      * apply Forall_app. split; [done |]. by apply Forall_singleton.
      * rewrite Hptrs, !length_app. simpl.
        replace (length newp + 1) with (S (length newp)) by lia.
        by rewrite seq_S.
    + eexists (new ++ [_]). split; [reflexivity |].
      rewrite length_app. simpl.
      replace (length new + 1) with (S (length new)) by lia.
      split; [exact Hlist |]. split; [by rewrite Hlist, last_seq, Hc |].
      apply Forall_app in Hall as [Hnew Hs]. apply Forall_inv in Hs.
      apply Forall_app. split.
      * eapply Forall_impl; [exact Hnew |]. intros s' Hs'.
        by apply sectionShape_grow.
      * apply Forall_singleton.
        destruct (sectionShape_grow w _ p' s Hs) as [Hsub Hall'].
        split; simpl.
        -- destruct Hs as [Hsub0 _]. by apply sublist_app.
        -- apply Forall_app. split; [exact Hall' |].
           apply Forall_singleton. simpl.
           rewrite lookup_app_r by lia. by rewrite Nat.sub_diag.
  - unfold bind, newParam.
    eexists _, _. split; [reflexivity |]. split; [| done].
    destruct Hsecs as (new & Hsec & Hlist & Hc & Hall).
    constructor; simpl.
    + exists (newp ++ [p]). rewrite Hparams, <- app_assoc.
      split; [done |]. split.
      * apply Forall_app. split; [done |]. by apply Forall_singleton.
      * rewrite Hptrs, !length_app. simpl.
        replace (length newp + 1) with (S (length newp)) by lia.
        by rewrite seq_S.
    + exists new. split; [done |]. split; [done |]. split; [done |].
      eapply Forall_impl; [exact Hall |]. intros s' Hs'.
      by apply sectionShape_grow.
Qed.

Lemma newSection_inv (w0 w : World) (st : parserState) (name : string) :
  parserInv w0 w st ->
  parserInv w0
    (setSections (sections w ++ [{| SecName := name; DescriptionLines := [];
                                    SecParameters := [] |}]) w)
    {| psMeta := AddSection (psMeta st) (length (sections w));
       psCurrent := Some (length (sections w));
       psDescriptionMode := false |}.
Proof.
  intros [Hp (new & Hsec & Hlist & _ & Hall)]. constructor; simpl; [exact Hp |].
  eexists (new ++ [_]). rewrite Hsec, <- app_assoc. split; [reflexivity |].
  rewrite Hlist, !length_app. simpl.
  replace (length new + 1) with (S (length new)) by lia.
  rewrite <- seq_S. split; [reflexivity |]. split; [by rewrite last_seq |].
  apply Forall_app. split; [exact Hall |].
  apply Forall_singleton. split; simpl; [apply sublist_nil_l | constructor].
Qed.

(** One line keeps the state of the loop well-formed, and never fails. *)
Lemma parseLine_inv (cfg : Config) (w0 w : World) (st : parserState)
    (line : string) :
  parserInv w0 w st ->
  exists w' st', parseLine cfg st line w = (w', Ret st') /\ parserInv w0 w' st'.
Proof.
  intros Hinv. unfold parseLine.
  destruct (FindStringSubmatch (regSection cfg) line) as [sm|].
  { unfold bind, newSection. eexists _, _. split; [reflexivity |].
    by apply newSection_inv. }
  destruct (FindStringSubmatch (regDescStart cfg) line) as [sm|].
  { case_bool_decide.
    - destruct (appendDescription_inv w0 w _ (sub sm 1)
                  (parserInv_mode w0 w st true Hinv)) as (w' & Hrun & Hinv').
      by eexists _, _.
    - eexists _, _. split; [reflexivity |]. by apply parserInv_mode. }
  destruct (psDescriptionMode st && MatchString (regDescEnd cfg) line).
  { eexists _, _. split; [reflexivity |]. by apply parserInv_mode. }
  destruct (if psDescriptionMode st
            then FindStringSubmatch (regDescContent cfg) line else None)
    as [sm|].
  { destruct (appendDescription_inv w0 w st (sub sm 1) Hinv)
      as (w' & Hrun & Hinv'). by eexists _, _. }
  destruct (FindStringSubmatch (regParam cfg) line) as [sm|].
  { destruct (declare_inv w0 w st
                (withDescription (sub sm 3)
                   (withModifiers (parseModifiers (sub sm 2))
                      (NewParameter (sub sm 1)))) Hinv)
      as (w' & st' & Hrun & Hinv' & _); [by repeat split |].
    by eexists _, _. }
  destruct (FindStringSubmatch (regSkip cfg) line) as [sm|].
  { destruct (declare_inv w0 w st (SetSkip true (NewParameter (sub sm 1))) Hinv)
      as (w' & st' & Hrun & Hinv' & _); [by repeat split |].
    by eexists _, _. }
  destruct (FindStringSubmatch (regExtra cfg) line) as [sm|].
  { destruct (declare_inv w0 w st
                (SetExtra true
                   (withValue (VString EmptyString)
                      (withDescription (sub sm 3) (NewParameter (sub sm 1)))))
                Hinv)
      as (w' & st' & Hrun & Hinv' & _); [by repeat split |].
    by eexists _, _. }
  by exists w, st.
Qed.

Lemma parseLines_inv (cfg : Config) (w0 : World) (lines : list string) :
  forall (w : World) (st : parserState),
    parserInv w0 w st ->
    exists w' st',
      parseLines cfg st lines w = (w', Ret st') /\ parserInv w0 w' st'.
Proof.
  induction lines as [|l lines IH]; intros w st Hinv; simpl.
  - by exists w, st.
  - destruct (parseLine_inv cfg w0 w st l Hinv) as (w1 & st1 & Hrun & Hinv1).
    unfold bind. rewrite Hrun. by apply IH.
Qed.

Lemma parserInv_start (w : World) :
  parserInv w w {| psMeta := {| Sections := []; Parameters := [] |};
                   psCurrent := None; psDescriptionMode := false |}.
Proof.
  constructor; simpl.
  - exists []. by rewrite app_nil_r.
  - exists []. by rewrite app_nil_r.
Qed.

(** X12: the parser accepts every text.  On a values file that exists,
    [parseMetadataComments] returns metadata, never an error: a line it
    cannot read as a directive is passed over.  It leaves the objects it
    found as they were, and the parameters and sections it lists are the
    new objects, one pointer each in the order of their declaration, so
    all live, distinct and apart from every older pointer.  Every section
    lists some of the declared parameters, in their order, each
    carrying the section's name. *)
Theorem parser_accepts_every_text (path : string) (cfg : Config) (w : World)
    (text : string) :
  files w !! path = Some text ->
  exists w' meta newParams newSections,
    parseMetadataComments path cfg w = (w', Ret meta)
    /\ params w' = params w ++ newParams
    /\ sections w' = sections w ++ newSections
    /\ files w' = files w /\ stdout w' = stdout w
    /\ Parameters meta = seq (length (params w)) (length newParams)
    /\ Sections meta = seq (length (sections w)) (length newSections)
    /\ Forall (sectionShape w' (Parameters meta)) newSections.
Proof.
  intros Hfile.
  destruct (parseLines_inv cfg w (sourceLines text) w _ (parserInv_start w))
    as (w' & st' & Hrun & [(newp & Hp & _ & Hptrs) (news & Hs & Hsl & _ & Hall)]).
  destruct (heapOnly_parseMetadataComments path cfg w) as [Hf Ho].
  assert (Hparse : parseMetadataComments path cfg w = (w', Ret (psMeta st'))).
  { unfold parseMetadataComments, bind, ReadFile. by rewrite Hfile, Hrun. }
  rewrite Hparse in Hf, Ho. simpl in Hf, Ho.
  by exists w', (psMeta st'), newp, news.
Qed.

Lemma parser_accepts_every_text_witness :
  exists w' meta,
    parseMetadataComments "values.yaml" defaultConfig (exampleWorld textDb)
    = (w', Ret meta)
    /\ Parameters meta = [0].
Proof.
  destruct (parser_accepts_every_text "values.yaml" defaultConfig
              (exampleWorld textDb) textDb)
    as (w' & meta & newp & news & Hrun & Hp & _ & _ & _ & Hptrs & _);
    [reflexivity |].
  exists w', meta. split; [exact Hrun |].
  assert (Hlen : length newp = 1).
  { assert (H : params w' = [SetSkip true (NewParameter "db")]).
    { replace w' with (parseMetadataComments "values.yaml" defaultConfig
                         (exampleWorld textDb)).1 by (by rewrite Hrun).
      vm_compute. reflexivity. }
    rewrite Hp in H. simpl in H. by rewrite H. }
  rewrite Hptrs, Hlen. reflexivity.
Defined.

(** X13: what the parser declares.  Every parameter it creates has no type
    yet and its schema flag set; a Normal one has no value; a Skip one has
    neither value, modifiers nor description; an Extra one has the empty
    string for value and no modifiers, whatever stands between brackets
    on its line. *)
Theorem parser_declares_bare_parameters (path : string) (cfg : Config)
    (w : World) :
  exists newParams,
    params (parseMetadataComments path cfg w).1 = params w ++ newParams
    /\ Forall declaredShape newParams
    /\ Forall (fun p => Extra p = true ->
                 Value p = VString EmptyString /\ Modifiers p = []) newParams
    /\ Forall (fun p => Skip p = true ->
                 Value p = VNil /\ Modifiers p = []
                 /\ Description p = EmptyString) newParams.
Proof.
  assert (Hshape : forall p, declaredShape p ->
            (Extra p = true -> Value p = VString EmptyString /\ Modifiers p = [])
            /\ (Skip p = true -> Value p = VNil /\ Modifiers p = []
                                 /\ Description p = EmptyString)).
  { intros p (_ & _ & H). unfold Extra, Skip.
    destruct (Validate p), (Readme p); simpl; split; intros; try done. }
  unfold parseMetadataComments, bind, ReadFile.
  destruct (files w !! path) as [text|].
  - destruct (parseLines_inv cfg w (sourceLines text) w _ (parserInv_start w))
      as (w' & st' & Hrun & [(newp & Hp & Hdecl & _) _]).
    rewrite Hrun. simpl. exists newp. split; [exact Hp |].
    split; [exact Hdecl |].
    split; (eapply Forall_impl; [exact Hdecl |]); intros p Hpshape;
      by apply Hshape.
  - exists []. simpl. rewrite app_nil_r. by repeat split.
Qed.


(** ** Lines that are no comments *)

Lemma rmatch_RStar (greedy : bool) (r1 : regex) (s : string) (caps : captures)
    (k : string -> captures -> option captures) :
  rmatch (RStar greedy r1) s caps k
  = starLoop greedy r1 k (String.length s) s caps.
Proof. reflexivity. Qed.

(** A starred class takes a run of bytes of the class and goes on. *)
Lemma starLoop_RSet (f : ascii -> bool)
    (k : string -> captures -> option captures) (caps c : captures) (n : nat) :
  forall s,
    starLoop true (RSet f) k n s caps = Some c ->
    exists pre s',
      s = pre +:+ s' /\ Strs.dropWhile f pre = EmptyString
      /\ k s' caps = Some c.
Proof.
  induction n as [|n IH]; intros s; simpl.
  - intros H. by exists EmptyString, s.
  - destruct s as [|a s1].
    + intros H. by exists EmptyString, EmptyString.
    + destruct (f a) eqn:Hfa.
      * case_bool_decide as Hlen; [| simpl in Hlen; lia].
        destruct (starLoop true (RSet f) k n s1 caps) as [c'|] eqn:Hloop.
        -- intros [= <-]. destruct (IH s1 Hloop) as (pre & s' & -> & Hpre & Hk).
           exists (String a pre), s'. simpl. by rewrite Hfa.
        -- intros H. by exists EmptyString, (String a s1).
      * intros H. by exists EmptyString, (String a s1).
Qed.

(** A literal takes itself and goes on. *)
Lemma rmatch_rlit (lit s : string) (caps c : captures)
    (k : string -> captures -> option captures) :
  rmatch (rlit lit) s caps k = Some c ->
  exists rest, s = lit +:+ rest /\ k rest caps = Some c.
Proof.
  revert s. induction lit as [|a lit IH]; intros s; simpl.
  - intros H. by exists s.
  - destruct s as [|b s1]; [done |].
    destruct (Ascii.eqb a b) eqn:Hab; [| done].
    apply Ascii.eqb_eq in Hab as ->.
    intros (rest & -> & Hk)%IH. by exists rest.
Qed.

(** Whatever a pattern that begins with blanks and the comment prefix
    matches is a comment line. *)
Lemma rmatch_comment_prefix (cfg : Config) (r : regex) (line : string)
    (caps c : captures) (k : string -> captures -> option captures) :
  rmatch (RSeq rspaces (RSeq (rlit (CommentsFormat cfg)) r)) line caps k
  = Some c ->
  commentLine cfg line.
Proof.
  cbn [rmatch]. unfold rspaces. rewrite rmatch_RStar.
  intros (pre & s' & -> & Hpre & Hk)%starLoop_RSet.
  apply rmatch_rlit in Hk as (rest & -> & _).
  by exists pre, rest.
Qed.

Lemma FindStringSubmatch_comment (cfg : Config) (r : regex) (line : string) :
  ~ commentLine cfg line ->
  FindStringSubmatch
    (RSeq rspaces (RSeq (rlit (CommentsFormat cfg)) r)) line = None.
Proof.
  intros Hno. unfold FindStringSubmatch.
  destruct (rmatch _ line _ _) as [c|] eqn:Hm; [| done].
  exfalso. apply Hno. by eapply rmatch_comment_prefix.
Qed.

(** With a prefix that starts with a non-blank byte, the comment lines are
    the ones whose first non-blank text is the prefix. *)
Lemma commentLine_dropWhile (cfg : Config) (line : string) (a : ascii)
    (f : string) :
  CommentsFormat cfg = String a f -> isSpaceByte a = false ->
  commentLine cfg line ->
  Strs.HasPrefix (Strs.dropWhile isSpaceByte line) (CommentsFormat cfg) = true.
Proof.
  intros Hfmt Ha (blanks & rest & -> & Hbl). rewrite Hfmt.
  induction blanks as [|b blanks IH].
  - change (EmptyString +:+ String a f +:+ rest)
      with (String a (f +:+ rest)).
    simpl Strs.dropWhile. rewrite Ha. apply HasPrefix_spec.
    exists rest. by rewrite append_cons.
  - rewrite append_cons. simpl in *. destruct (isSpaceByte b); [| done].
    by apply IH.
Qed.

(** X14: a line that does not start, after blanks, with the comment prefix
    is passed over by the parser in every state of its loop, inside a
    description block as well: it declares nothing and neither opens nor
    closes anything. *)
Theorem lines_without_comment_prefix_are_ignored (cfg : Config)
    (st : parserState) (line : string) :
  ~ commentLine cfg line -> parseLine cfg st line = ret st.
Proof.
  intros Hno. unfold parseLine.
  assert (Hsec : FindStringSubmatch (regSection cfg) line = None)
    by by apply FindStringSubmatch_comment.
  assert (Hstart : FindStringSubmatch (regDescStart cfg) line = None)
    by by apply FindStringSubmatch_comment.
  assert (Hend : MatchString (regDescEnd cfg) line = false).
  { unfold MatchString.
    rewrite (FindStringSubmatch_comment cfg _ line Hno
             : FindStringSubmatch (regDescEnd cfg) line = None).
    apply bool_decide_eq_false. by intros [? ?]. }
  assert (Hcont : FindStringSubmatch (regDescContent cfg) line = None)
    by by apply FindStringSubmatch_comment.
  assert (Hparam : FindStringSubmatch (regParam cfg) line = None)
    by by apply FindStringSubmatch_comment.
  assert (Hskip : FindStringSubmatch (regSkip cfg) line = None)
    by by apply FindStringSubmatch_comment.
  assert (Hextra : FindStringSubmatch (regExtra cfg) line = None)
    by by apply FindStringSubmatch_comment.
  rewrite Hsec, Hstart, Hend, Hcont, Hparam, Hskip, Hextra.
  rewrite andb_false_r. by destruct (psDescriptionMode st).
Qed.

Lemma lines_without_comment_prefix_are_ignored_witness :
  parseLine defaultConfig
    {| psMeta := {| Sections := []; Parameters := [] |};
       psCurrent := None; psDescriptionMode := true |}
    "  host: h # @param host"
  = ret {| psMeta := {| Sections := []; Parameters := [] |};
           psCurrent := None; psDescriptionMode := true |}.
Proof.
  apply lines_without_comment_prefix_are_ignored.
  intros H.
  apply (commentLine_dropWhile defaultConfig _ "#" "#") in H;
    [| reflexivity | reflexivity].
  vm_compute in H. discriminate H.
Defined.


(** ** The schema generator *)

Lemma splitGo_nonempty (sep : ascii) (s cur : string) :
  Strs.splitGo sep cur s <> [].
Proof.
  revert cur. induction s as [|a s IH]; intros cur; simpl; [done |].
  destruct (Ascii.eqb a sep); [done | apply IH].
Qed.

Lemma pathOf_nonempty (param : ParameterT) : pathOf param <> [].
Proof. apply splitGo_nonempty. Qed.

Lemma splitGo_app (sep : ascii) (a r cur : string) :
  Strs.splitGo sep cur (a +:+ String sep r)
  = Strs.splitGo sep cur a ++ Strs.splitGo sep EmptyString r.
Proof.
  revert cur. induction a as [|x a IH]; intros cur.
  - change (EmptyString +:+ String sep r) with (String sep r).
    simpl. by rewrite Ascii.eqb_refl.
  - rewrite append_cons. simpl. destruct (Ascii.eqb x sep).
    + by rewrite IH.
    + apply IH.
Qed.

Lemma addAt_cons (part : string) (rest : list string) (leaf : SchemaVal)
    (cur : gmap string SchemaVal) :
  rest <> [] ->
  addAt (part :: rest) leaf cur
  = match default (SObject {[ "type" := SString "object";
                              "properties" := emptyObject ]})
                  (cur !! part) with
    | SObject cm =>
      match cm !! "properties" with
      | Some (SObject props) =>
        props' ← addAt rest leaf props;
        Some (<[part := SObject (<["properties" := SObject props']> cm)]> cur)
      | _ => None
      end
    | _ => None
    end.
Proof. by destruct rest. Qed.

Lemma schemaLookup_cons (part : string) (rest : list string)
    (cur : gmap string SchemaVal) :
  rest <> [] ->
  schemaLookup (part :: rest) cur
  = match cur !! part with
    | Some (SObject cm) =>
      match cm !! "properties" with
      | Some (SObject props) => schemaLookup rest props
      | _ => None
      end
    | _ => None
    end.
Proof. by destruct rest. Qed.

Lemma fresh_child_properties :
  ({[ "type" := SString "object"; "properties" := emptyObject ]}
     : gmap string SchemaVal) !! "properties" = Some (SObject ∅).
Proof. by rewrite lookup_insert_ne, lookup_singleton_eq. Qed.

Lemma schemaLookup_empty (parts : list string) : schemaLookup parts ∅ = None.
Proof.
  destruct parts as [|x [|y t]]; simpl; [done | apply lookup_empty |].
  by rewrite lookup_empty.
Qed.

Lemma blocked_empty (parts : list string) : blocked parts ∅ = false.
Proof. destruct parts; simpl; [done |]. by rewrite lookup_empty. Qed.

(** What a successful walk leaves at the first segment. *)
Lemma addAt_step (part : string) (rest : list string) (leaf : SchemaVal)
    (cur cur' : gmap string SchemaVal) :
  rest <> [] -> addAt (part :: rest) leaf cur = Some cur' ->
  exists cm props props',
    (cur !! part = Some (SObject cm)
     \/ cur !! part = None /\ props = ∅)
    /\ cm !! "properties" = Some (SObject props)
    /\ addAt rest leaf props = Some props'
    /\ cur' = <[part := SObject (<["properties" := SObject props']> cm)]> cur.
Proof.
  intros Hrest. rewrite addAt_cons by done.
  destruct (cur !! part) as [v|] eqn:Hcur; simpl.
  - destruct v as [| | |cm]; try done.
    destruct (cm !! "properties") as [[| | |props]|] eqn:Hp; try done.
    destruct (addAt rest leaf props) as [props'|] eqn:Hadd; [| done].
    intros [= <-]. exists cm, props, props'. auto.
  - rewrite fresh_child_properties.
    destruct (addAt rest leaf ∅) as [props'|] eqn:Hadd; [| done].
    intros [= <-]. eexists _, ∅, props'.
    split; [by right |]. split; [apply fresh_child_properties |]. done.
Qed.

(** The node is where its path says. *)
Lemma addAt_lookup (parts : list string) (leaf : SchemaVal) :
  forall cur cur',
    parts <> [] -> addAt parts leaf cur = Some cur' ->
    schemaLookup parts cur' = Some leaf.
Proof.
  induction parts as [|x t IH]; intros cur cur' Hne Hadd; [done |].
  destruct (decide (t = [])) as [-> | Ht].
  - simpl in Hadd. injection Hadd as <-. simpl. apply lookup_insert_eq.
  - apply addAt_step in Hadd as (cm & props & props' & _ & _ & Hadd & ->);
      [| done].
    rewrite schemaLookup_cons by done.
    rewrite lookup_insert_eq, lookup_insert_eq. by eapply IH.
Qed.

(** The walk leaves every path that parts ways with its own as it was. *)
Lemma addAt_frame (parts : list string) (leaf : SchemaVal) :
  forall parts' cur cur',
    diverge parts parts' = true -> addAt parts leaf cur = Some cur' ->
    schemaLookup parts' cur' = schemaLookup parts' cur.
Proof.
  induction parts as [|x t IH]; intros parts' cur cur' Hdiv Hadd; [done |].
  destruct parts' as [|y t']; [done |]. simpl in Hdiv.
  destruct (Strs.eqb x y) eqn:Hxy.
  - apply String.eqb_eq in Hxy as <-.
    assert (Ht : t <> []) by by intros ->.
    assert (Ht' : t' <> []) by (intros ->; by destruct t).
    apply addAt_step in Hadd
      as (cm & props & props' & Hcur & Hp & Hadd & ->); [| done].
    rewrite !schemaLookup_cons by done.
    rewrite lookup_insert_eq, lookup_insert_eq.
    rewrite (IH _ _ _ Hdiv Hadd).
    destruct Hcur as [-> | [-> ->]].
    + by rewrite Hp.
    + apply schemaLookup_empty.
  - assert (Hne : x <> y) by (intros ->; by rewrite Strs_eqb_refl in Hxy).
    assert (Hcur : cur' !! y = cur !! y).
    { destruct (decide (t = [])) as [-> | Ht].
      - simpl in Hadd. injection Hadd as <-. by apply lookup_insert_ne.
      - apply addAt_step in Hadd as (? & ? & ? & _ & _ & _ & ->); [| done].
        by apply lookup_insert_ne. }
    destruct t' as [|z t']; simpl; by rewrite Hcur.
Qed.

(** The walk fails exactly when it has to go through a node without
    properties: it succeeds when none is met before the last segment... *)
Lemma addAt_unblocked (pre : list string) (lastp : string) (leaf : SchemaVal) :
  forall cur,
    blocked pre cur = false -> is_Some (addAt (pre ++ [lastp]) leaf cur).
Proof.
  induction pre as [|x t IH]; intros cur Hb; [by eexists |].
  change ((x :: t) ++ [lastp]) with (x :: (t ++ [lastp])).
  rewrite addAt_cons by by destruct t.
  simpl in Hb. destruct (cur !! x) as [v|]; simpl.
  - destruct v as [| | |cm]; try done.
    destruct (cm !! "properties") as [[| | |props]|]; try done.
    destruct (IH props Hb) as [props' ->]. by eexists.
  - rewrite fresh_child_properties.
    destruct (IH ∅ (blocked_empty t)) as [props' ->]. by eexists.
Qed.

(** ... and panics when one is. *)
Lemma addAt_blocked (parts more : list string) (leaf : SchemaVal) :
  forall cur,
    blocked parts cur = true -> more <> [] ->
    addAt (parts ++ more) leaf cur = None.
Proof.
  induction parts as [|x t IH]; intros cur Hb Hmore; [done |].
  change ((x :: t) ++ more) with (x :: (t ++ more)).
  rewrite addAt_cons by (destruct t, more; done).
  simpl in Hb. destruct (cur !! x) as [v|]; [| done]. simpl.
  destruct v as [| | |cm]; try done.
  destruct (cm !! "properties") as [[| | |props]|]; try done.
  by rewrite (IH props Hb Hmore).
Qed.

(** A node without properties blocks its own path once it is attached. *)
Lemma addAt_blocks (parts : list string) (leaf : SchemaVal) :
  hasProperties leaf = false ->
  forall cur cur',
    parts <> [] -> addAt parts leaf cur = Some cur' ->
    blocked parts cur' = true.
Proof.
  intros Hleaf. induction parts as [|x t IH]; intros cur cur' Hne Hadd;
    [done |].
  destruct (decide (t = [])) as [-> | Ht].
  - simpl in Hadd. injection Hadd as <-. simpl. rewrite lookup_insert_eq.
    destruct leaf as [| | |cm]; try done. simpl in Hleaf.
    by destruct (cm !! "properties") as [[| | |?]|].
  - apply addAt_step in Hadd as (cm & props & props' & _ & _ & Hadd & ->);
      [| done].
    simpl. rewrite lookup_insert_eq, lookup_insert_eq. by eapply IH.
Qed.

(** A blocked path stays blocked whatever is attached later. *)
Lemma addAt_keeps_blocked (parts : list string) (leaf : SchemaVal) :
  hasProperties leaf = false ->
  forall path cur cur',
    addAt parts leaf cur = Some cur' ->
    blocked path cur = true -> blocked path cur' = true.
Proof.
  intros Hleaf. induction parts as [|x t IH]; intros path cur cur' Hadd Hb.
  - simpl in Hadd. by injection Hadd as <-.
  - destruct path as [|y path]; [done |]. simpl in Hb |- *.
    destruct (decide (t = [])) as [-> | Ht].
    + simpl in Hadd. injection Hadd as <-.
      destruct (decide (x = y)) as [<- | Hxy].
      * rewrite lookup_insert_eq.
        destruct leaf as [| | |cm]; try done. simpl in Hleaf.
        by destruct (cm !! "properties") as [[| | |?]|].
      * by rewrite lookup_insert_ne.
    + apply addAt_step in Hadd
        as (cm & props & props' & Hcur & Hp & Hadd & ->); [| done].
      destruct (decide (x = y)) as [<- | Hxy].
      * rewrite lookup_insert_eq, lookup_insert_eq.
        destruct Hcur as [Hcur | [Hcur _]]; rewrite Hcur in Hb; [| done].
        rewrite Hp in Hb. by eapply IH.
      * by rewrite lookup_insert_ne.
Qed.

(** A path is blocked after a walk only if it was before or runs through
    the node attached. *)
Lemma addAt_new_blocked (parts : list string) (leaf : SchemaVal) :
  forall path cur cur',
    addAt parts leaf cur = Some cur' ->
    blocked path cur' = true ->
    blocked path cur = true \/ parts `prefix_of` path.
Proof.
  induction parts as [|x t IH]; intros path cur cur' Hadd Hb.
  - simpl in Hadd. injection Hadd as <-. by left.
  - destruct path as [|y path]; [done |].
    destruct (decide (x = y)) as [<- | Hxy].
    + destruct (decide (t = [])) as [-> | Ht].
      * right. by exists path.
      * apply addAt_step in Hadd
          as (cm & props & props' & Hcur & Hp & Hadd & ->); [| done].
        simpl in Hb |- *. rewrite lookup_insert_eq, lookup_insert_eq in Hb.
        destruct (IH _ _ _ Hadd Hb) as [Hold | Hpre].
        -- destruct Hcur as [-> | [-> ->]].
           ++ rewrite Hp. by left.
           ++ by rewrite blocked_empty in Hold.
        -- right. by apply prefix_cons.
    + left. simpl in Hb |- *.
      assert (Hcur : cur' !! y = cur !! y).
      { destruct (decide (t = [])) as [-> | Ht].
        - simpl in Hadd. injection Hadd as <-. by apply lookup_insert_ne.
        - apply addAt_step in Hadd as (? & ? & ? & _ & _ & _ & ->); [| done].
          by apply lookup_insert_ne. }
      by rewrite <- Hcur.
Qed.

Lemma diverge_sym (a b : list string) : diverge a b = diverge b a.
Proof.
  revert b. induction a as [|x a IH]; intros [|y b]; simpl; try done.
  unfold Strs.eqb. rewrite (String.eqb_sym x y). by rewrite IH.
Qed.

Lemma diverge_not_prefix (a b : list string) :
  diverge a b = true -> ~ a `prefix_of` b.
Proof.
  revert b. induction a as [|x a IH]; intros [|y b]; simpl; try done.
  destruct (Strs.eqb x y) eqn:Hxy.
  - intros Hd Hpre. apply (IH b Hd).
    destruct Hpre as [k Hk]. injection Hk as _ ->. by exists k.
  - intros _ [k Hk]. injection Hk as -> _. by rewrite Strs_eqb_refl in Hxy.
Qed.

Lemma leafNode_no_properties (param : ParameterT) :
  hasProperties (leafNode param) = false.
Proof.
  unfold leafNode, hasProperties.
  destruct (HasModifier param "nullable"), (Strs.eqb (Type_ param) "array");
    cbv beta iota zeta; rewrite !lookup_insert_ne by done;
    by rewrite lookup_singleton_ne.
Qed.

Lemma foldl_schemaStep_None (l : list ParameterT) :
  foldl schemaStep None l = None.
Proof. by induction l. Qed.

Lemma schemaAdd_inSchema (root props : gmap string SchemaVal)
    (param : ParameterT) :
  inSchema param = true -> root !! "properties" = Some (SObject props) ->
  schemaAdd root param
  = props' ← addAt (pathOf param) (leafNode param) props;
    Some (<["properties" := SObject props']> root).
Proof.
  unfold inSchema, schemaAdd. intros Hin ->.
  by destruct (Extra param || negb (Schema param) || HasModifier param "object").
Qed.

Lemma schemaAdd_not_inSchema (root : gmap string SchemaVal)
    (param : ParameterT) :
  inSchema param = false -> schemaAdd root param = Some root.
Proof.
  unfold inSchema, schemaAdd.
  by destruct (Extra param || negb (Schema param) || HasModifier param "object").
Qed.

Lemma renderOpenAPISchema_fold (ext : Externals) (path : string)
    (ps : list ptr) (w : World) :
  renderOpenAPISchema ext path ps w
  = match foldl schemaStep (Some newSchemaRoot) (loadParams w ps) with
    | Some root => WriteFile path (jsonMarshalIndent ext (SObject root)) w
    | None =>
      panic "interface conversion: interface {} is nil, not main.schemaObject" w
    end.
Proof. reflexivity. Qed.

(** The loop over parameters whose paths part ways with one another and
    with the ones attached already: no walk panics, and every node is in
    the end where its path says. *)
Lemma foldl_schemaStep_distinct (l : list ParameterT) :
  forall (seen : list ParameterT) (root props : gmap string SchemaVal),
    root !! "properties" = Some (SObject props) ->
    (forall path, blocked path props = true ->
       exists p, p ∈ seen /\ pathOf p `prefix_of` path) ->
    (forall p, p ∈ seen -> schemaLookup (pathOf p) props = Some (leafNode p)) ->
    (forall p q, p ∈ seen -> q ∈ List.filter inSchema l ->
       diverge (pathOf p) (pathOf q) = true) ->
    distinctPaths (pathOf <$> List.filter inSchema l) = true ->
    exists root' props',
      foldl schemaStep (Some root) l = Some root'
      /\ root' !! "properties" = Some (SObject props')
      /\ (forall k, k <> "properties" -> root' !! k = root !! k)
      /\ forall p, p ∈ seen ++ List.filter inSchema l ->
           schemaLookup (pathOf p) props' = Some (leafNode p).
Proof.
  induction l as [|q l IH]; intros seen root props Hroot Hblk Hseen Hdiv Hdist.
  - exists root, props. simpl. rewrite app_nil_r. auto.
  - simpl. simpl in Hdiv, Hdist. destruct (inSchema q) eqn:Hq.
    + rewrite (schemaAdd_inSchema _ props) by done.
      simpl in Hdist. apply andb_prop in Hdist as [Hq_rest Hdist].
      destruct (exists_last (pathOf_nonempty q)) as (pre & lastp & Hpath).
      assert (Hfree : blocked pre props = false).
      { destruct (blocked pre props) eqn:Hb; [| done]. exfalso.
        destruct (Hblk pre Hb) as (p & Hp & Hpre).
        apply (diverge_not_prefix (pathOf p) (pathOf q)).
        - apply Hdiv; [done | apply elem_of_cons; by left].
        - rewrite Hpath. by apply prefix_app_r. }
      destruct (addAt_unblocked pre lastp (leafNode q) props Hfree)
        as [props1 Hadd].
      rewrite <- Hpath in Hadd. rewrite Hadd. simpl.
      destruct (IH (seen ++ [q]) (<["properties" := SObject props1]> root)
                  props1) as (root' & props' & Hfold & Hprops & Hkeys & Hall).
      * apply lookup_insert_eq.
      * intros path Hb.
        destruct (addAt_new_blocked _ _ _ _ _ Hadd Hb) as [Hold | Hpre].
        -- destruct (Hblk path Hold) as (p & Hp & Hpp).
           exists p. split; [| done]. apply elem_of_app. by left.
        -- exists q. split; [| done]. apply elem_of_app. right.
           by apply list_elem_of_singleton.
      * intros p [Hp | ->%list_elem_of_singleton]%elem_of_app.
        -- rewrite (addAt_frame _ _ _ _ _ (eq_trans (diverge_sym _ _)
                      (Hdiv p q Hp ltac:(apply elem_of_cons; by left))) Hadd).
           by apply Hseen.
        -- eapply addAt_lookup; [apply pathOf_nonempty | done].
      * intros p r [Hp | ->%list_elem_of_singleton]%elem_of_app Hr.
        -- apply Hdiv; [done | apply elem_of_cons; by right].
        -- rewrite forallb_forall in Hq_rest. apply Hq_rest.
           apply list_elem_of_In. by apply list_elem_of_fmap_2.
      * done.
      * exists root', props'. split; [done |]. split; [done |]. split.
        -- intros k Hk. rewrite Hkeys by done. by apply lookup_insert_ne.
        -- intros p Hp. apply Hall. rewrite <- app_assoc. done.
    + rewrite schemaAdd_not_inSchema by done. simpl.
      by apply (IH seen root props).
Qed.

(** The loop keeps whatever every walk keeps, unless it panics. *)
Lemma foldl_schemaStep_inv (P : gmap string SchemaVal -> Prop) :
  (forall param props props',
     P props -> addAt (pathOf param) (leafNode param) props = Some props' ->
     P props') ->
  forall (l : list ParameterT) (root props : gmap string SchemaVal),
    root !! "properties" = Some (SObject props) -> P props ->
    foldl schemaStep (Some root) l = None
    \/ exists root' props',
         foldl schemaStep (Some root) l = Some root'
         /\ root' !! "properties" = Some (SObject props') /\ P props'.
Proof.
  intros Hstep. induction l as [|q l IH]; intros root props Hroot HP.
  - right. by exists root, props.
  - simpl. destruct (inSchema q) eqn:Hq.
    + rewrite (schemaAdd_inSchema _ props) by done.
      destruct (addAt (pathOf q) (leafNode q) props) as [props1|] eqn:Hadd.
      * simpl. apply (IH _ props1); [apply lookup_insert_eq |].
        by eapply Hstep.
      * left. apply foldl_schemaStep_None.
    + rewrite schemaAdd_not_inSchema by done. by apply (IH root props).
Qed.

(** X15: when the paths of the parameters that go into the schema part
    ways pairwise, the generator does not panic: it writes the marshalled
    root, which keeps its title and type, and whose properties hold at the
    path of every such parameter the node made for it. *)
Theorem schema_holds_every_parameter (ext : Externals) (path : string)
    (ps : list ptr) (w : World) :
  distinctPaths (pathOf <$> List.filter inSchema (loadParams w ps)) = true ->
  exists root props,
    renderOpenAPISchema ext path ps w
    = WriteFile path (jsonMarshalIndent ext (SObject root)) w
    /\ root !! "title" = Some (SString "Chart Values")
    /\ root !! "type" = Some (SString "object")
    /\ root !! "properties" = Some (SObject props)
    /\ forall p, p ∈ loadParams w ps -> inSchema p = true ->
         schemaLookup (pathOf p) props = Some (leafNode p).
Proof.
  intros Hdist. rewrite renderOpenAPISchema_fold.
  destruct (foldl_schemaStep_distinct (loadParams w ps) [] newSchemaRoot ∅)
    as (root & props & -> & Hprops & Hkeys & Hall).
  - reflexivity.
  - intros p. by rewrite blocked_empty.
  - intros p Hp. by apply elem_of_nil in Hp.
  - intros p q Hp. by apply elem_of_nil in Hp.
  - done.
  - exists root, props. split; [done |].
    split; [by rewrite Hkeys |]. split; [by rewrite Hkeys |].
    split; [done |]. intros p Hp Hin. apply Hall. simpl.
    apply list_elem_of_In, filter_In. by rewrite <- list_elem_of_In.
Qed.

Lemma schema_holds_every_parameter_witness :
  let w := setParams [withValue (VInt 1) (NewParameter "db.port");
                      SetExtra true (NewParameter "db");
                      withValue (VString "h") (NewParameter "db.host")]
                     (exampleWorld EmptyString) in
  exists root props,
    renderOpenAPISchema (exampleExt VNil) "values.schema.json" [0; 1; 2] w
    = WriteFile "values.schema.json"
        (jsonMarshalIndent (exampleExt VNil) (SObject root)) w
    /\ root !! "title" = Some (SString "Chart Values")
    /\ root !! "type" = Some (SString "object")
    /\ root !! "properties" = Some (SObject props)
    /\ forall p, p ∈ loadParams w [0; 1; 2] -> inSchema p = true ->
         schemaLookup (pathOf p) props = Some (leafNode p).
Proof.
  intros w.
  apply (schema_holds_every_parameter (exampleExt VNil) "values.schema.json"
           [0; 1; 2] w).
  vm_compute. reflexivity.
Defined.

(** X16: a parameter that goes into the schema blocks every later one
    named below it: when the list holds a parameter and, after it, one
    whose name is the first one's name, a dot and more, the walk of the
    second one meets the node of the first, the type assertion fails, and
    the generator panics without writing anything. *)
Theorem schema_parameter_under_leaf_panics (ext : Externals) (path : string)
    (ps : list ptr) (w : World) (l1 l2 l3 : list ParameterT)
    (p q : ParameterT) (more : string) :
  loadParams w ps = l1 ++ p :: l2 ++ q :: l3 ->
  inSchema p = true -> inSchema q = true ->
  Name q = Name p +:+ String "." more ->
  renderOpenAPISchema ext path ps w
  = panic "interface conversion: interface {} is nil, not main.schemaObject" w.
Proof.
  intros Hl Hp Hq Hname. rewrite renderOpenAPISchema_fold, Hl.
  enough (foldl schemaStep (Some newSchemaRoot) (l1 ++ p :: l2 ++ q :: l3)
          = None) as -> by done.
  rewrite foldl_app.
  destruct (foldl_schemaStep_inv (fun _ => True) ltac:(done) l1
              newSchemaRoot ∅ eq_refl I)
    as [-> | (root1 & props1 & -> & Hroot1 & _)];
    [apply foldl_schemaStep_None |].
  simpl. rewrite (schemaAdd_inSchema _ props1) by done.
  destruct (addAt (pathOf p) (leafNode p) props1) as [props2|] eqn:Hadd;
    [| apply foldl_schemaStep_None].
  simpl. rewrite foldl_app.
  destruct (foldl_schemaStep_inv
              (fun props => blocked (pathOf p) props = true)
              ltac:(intros ? ? ? ? ?;
                    by eapply addAt_keeps_blocked;
                      [apply leafNode_no_properties | |])
              l2 (<["properties" := SObject props2]> root1) props2)
    as [-> | (root3 & props3 & -> & Hroot3 & Hb)].
  - apply lookup_insert_eq.
  - eapply addAt_blocks;
      [apply leafNode_no_properties | apply pathOf_nonempty | done].
  - apply foldl_schemaStep_None.
  - simpl. rewrite (schemaAdd_inSchema _ props3) by done.
    assert (Hpath : pathOf q = pathOf p ++ Strs.Split more ".").
    { unfold pathOf, Strs.Split. rewrite Hname. apply splitGo_app. }
    rewrite Hpath, addAt_blocked; [| done | apply splitGo_nonempty].
    apply foldl_schemaStep_None.
Qed.

Lemma schema_parameter_under_leaf_panics_witness :
  let w := setParams [withModifiers ["nullable"] (NewParameter "db");
                      withValue (VInt 1) (NewParameter "db.port")]
                     (exampleWorld EmptyString) in
  renderOpenAPISchema (exampleExt VNil) "values.schema.json" [0; 1] w
  = panic "interface conversion: interface {} is nil, not main.schemaObject" w.
Proof.
  intros w.
  apply (schema_parameter_under_leaf_panics (exampleExt VNil)
           "values.schema.json" [0; 1] w []
           [] [] (withModifiers ["nullable"] (NewParameter "db"))
           (withValue (VInt 1) (NewParameter "db.port")) "port");
    reflexivity.
Defined.


(** ** The files a run writes *)

Lemma writesWithin_heapOnly {A} (paths : list string) (m : M A) :
  heapOnly m -> writesWithin paths m.
Proof. intros H w f _. by rewrite (proj1 (H w)). Qed.

Lemma writesWithin_bind {A B} (paths : list string) (m : M A) (f : A -> M B) :
  writesWithin paths m -> (forall a, writesWithin paths (f a)) ->
  writesWithin paths (bind m f).
Proof.
  intros Hm Hf w x Hx. unfold bind. specialize (Hm w x Hx).
  destruct (m w) as [w' [a | e | e]]; simpl in *; [| done | done].
  by rewrite (Hf a w' x Hx).
Qed.

Lemma writesWithin_println (paths : list string) (s : string) :
  writesWithin paths (println s).
Proof. by intros w f _. Qed.

Lemma writesWithin_forM_ {A} (paths : list string) (l : list A)
    (f : A -> M unit) :
  (forall a, writesWithin paths (f a)) -> writesWithin paths (forM_ l f).
Proof.
  intros Hf. induction l as [|a l IH]; simpl.
  - by intros w x _.
  - apply writesWithin_bind; [apply Hf | by intros _].
Qed.

Lemma writesWithin_WriteFile (paths : list string) (path data : string) :
  path ∈ paths -> writesWithin paths (WriteFile path data).
Proof.
  intros Hin w f Hf. simpl. apply lookup_insert_ne. by intros ->.
Qed.

Lemma heapOnly_forM_ {A} (l : list A) (f : A -> M unit) :
  (forall a, heapOnly (f a)) -> heapOnly (forM_ l f).
Proof.
  intros Hf. induction l as [|a l IH]; simpl.
  - apply heapOnly_ret.
  - apply heapOnly_bind; [apply Hf | by intros _].
Qed.

Lemma heapOnly_buildParamsToRender (l : list ptr) (cfg : Config) :
  heapOnly (buildParamsToRender l cfg).
Proof.
  induction l as [|a l IH]; simpl; [apply heapOnly_ret |].
  apply heapOnly_bind; [apply heapOnly_getParam | intros p].
  destruct (Skip p); [done |]. heap_only.
Qed.

Lemma heapOnly_fillStep (values : list ptr) (a : ptr) :
  heapOnly (fillStep values a).
Proof.
  unfold fillStep. apply heapOnly_bind; [apply heapOnly_getParam | intros p].
  intros w. apply heapOnly_modifyParam.
Qed.

Lemma heapOnly_addSkips (values : list ptr) :
  forall meta, heapOnly (addSkips values meta).
Proof.
  induction values as [|s rest IH]; intros meta; simpl; [apply heapOnly_ret |].
  apply heapOnly_bind; [apply heapOnly_getParam | intros src].
  apply heapOnly_bind; [by intros w | intros found].
  destruct found; [apply IH |].
  apply heapOnly_bind; [apply heapOnly_newParam | intros np; apply IH].
Qed.

Lemma heapOnly_combineMetadataAndValues (values meta : list ptr) :
  heapOnly (combineMetadataAndValues values meta).
Proof.
  rewrite combineMetadataAndValues_loops.
  apply heapOnly_bind; [| intros _; apply heapOnly_addSkips].
  apply heapOnly_forM_. intros a. apply heapOnly_fillStep.
Qed.

Lemma writesWithin_checkKeys (paths : list string) (real meta : list ptr) :
  writesWithin paths (checkKeys real meta).
Proof.
  intros w f _. unfold checkKeys. case_bool_decide; [done |].
  unfold bind. rewrite forM_println. simpl. by rewrite forM_println.
Qed.

Lemma writesWithin_loadConfig (ext : Externals) (paths : list string)
    (path : string) :
  writesWithin paths (loadConfig ext path).
Proof. intros w f _. by rewrite loadConfig_world. Qed.

Lemma writesWithin_getParsedMetadata (ext : Externals) (paths : list string)
    (path : string) (cfg : Config) :
  writesWithin paths (getParsedMetadata ext path cfg).
Proof.
  unfold getParsedMetadata.
  apply writesWithin_bind;
    [apply writesWithin_heapOnly, heapOnly_createValuesObject | intros vs].
  apply writesWithin_bind;
    [apply writesWithin_heapOnly, heapOnly_parseMetadataComments | intros m].
  apply writesWithin_bind; [apply writesWithin_checkKeys | intros _].
  apply writesWithin_bind;
    [apply writesWithin_heapOnly, heapOnly_combineMetadataAndValues |].
  intros _. apply writesWithin_heapOnly, heapOnly_ret.
Qed.

Lemma writesWithin_insertReadmeTable (ext : Externals) (paths : list string)
    (path : string) (secs : list ptr) (cfg : Config) :
  path ∈ paths -> writesWithin paths (insertReadmeTable ext path secs cfg).
Proof.
  intros Hin. unfold insertReadmeTable.
  apply writesWithin_bind;
    [apply writesWithin_heapOnly, heapOnly_ReadFile | intros raw].
  destruct (titleRegexp ext _) as [reStart|];
    [| apply writesWithin_heapOnly, heapOnly_panic].
  destruct (list_find _ _) as [[i l]|];
    [| apply writesWithin_heapOnly, heapOnly_fail].
  intros w f Hf. by apply (writesWithin_WriteFile paths path _ Hin w f).
Qed.

Lemma writesWithin_renderOpenAPISchema (ext : Externals)
    (paths : list string) (path : string) (ps : list ptr) :
  path ∈ paths -> writesWithin paths (renderOpenAPISchema ext path ps).
Proof.
  intros Hin w f Hf. rewrite renderOpenAPISchema_fold.
  destruct (foldl _ _ _);
    [by apply (writesWithin_WriteFile paths path _ Hin w f) | done].
Qed.

(** X17: whatever a run does and however it ends, the only files it
    writes are the README and the schema it was pointed at: every other
    file, the values file and the settings among them, is left as it was. *)
Theorem run_writes_only_its_outputs (ext : Externals) (opts : options)
    (w : World) (f : string) :
  f <> readmePath opts -> f <> schemaPath opts ->
  files (runReadmeGenerator ext opts w).1 !! f = files w !! f.
Proof.
  intros Hr Hs.
  assert (Hf : f ∉ [readmePath opts; schemaPath opts]).
  { intros [-> | [-> | []%elem_of_nil]%elem_of_cons]%elem_of_cons; done. }
  clear Hr Hs. revert w f Hf.
  change (writesWithin [readmePath opts; schemaPath opts]
            (runReadmeGenerator ext opts)).
  unfold runReadmeGenerator.
  destruct (optVersion opts); [apply writesWithin_println |].
  apply writesWithin_bind; [apply writesWithin_loadConfig | intros cfg].
  apply writesWithin_bind; [apply writesWithin_getParsedMetadata | intros m].
  apply writesWithin_bind; [| intros _].
  - case_bool_decide; [| apply writesWithin_heapOnly, heapOnly_ret].
    apply writesWithin_bind; [| intros _].
    + apply writesWithin_forM_. intros a. apply writesWithin_heapOnly.
      apply heapOnly_bind; [apply heapOnly_getSection | intros sec].
      apply heapOnly_bind; [apply heapOnly_buildParamsToRender | intros out].
      apply heapOnly_modifySection.
    + apply writesWithin_bind; [| intros _; apply writesWithin_println].
      apply writesWithin_insertReadmeTable. apply elem_of_cons. by left.
  - case_bool_decide; [| apply writesWithin_heapOnly, heapOnly_ret].
    apply writesWithin_bind;
      [apply writesWithin_heapOnly, heapOnly_buildParamsToRender | intros ps].
    apply writesWithin_bind; [| intros _; apply writesWithin_println].
    apply writesWithin_renderOpenAPISchema.
    apply elem_of_cons. right. apply elem_of_cons. by left.
Qed.

Lemma run_writes_only_its_outputs_witness :
  files (runReadmeGenerator (exampleExt treeX) exampleOpts
           (exampleWorld textX)).1 !! "values.yaml"
  = files (exampleWorld textX) !! "values.yaml".
Proof.
  apply (run_writes_only_its_outputs (exampleExt treeX) exampleOpts
           (exampleWorld textX) "values.yaml"); discriminate.
Defined.


(** ** Updating the README twice *)

Lemma rev_app_append (s t : string) :
  String.rev_app s t = String.rev s +:+ t.
Proof.
  unfold String.rev. revert t. induction s as [|a s IH]; intros t; [done |].
  simpl. rewrite (IH (String a t)), (IH (String a EmptyString)).
  by rewrite append_assoc.
Qed.

Lemma rev_cons (a : ascii) (s : string) :
  String.rev (String a s) = String.rev s +:+ String a EmptyString.
Proof. apply (rev_app_append s (String a EmptyString)). Qed.

Lemma IndexByte_app_None (s t : string) (c : ascii) :
  Strs.IndexByte s c = None -> Strs.IndexByte t c = None ->
  Strs.IndexByte (s +:+ t) c = None.
Proof.
  intros Hs Ht. induction s as [|a s IH]; [done |].
  rewrite append_cons. simpl in Hs |- *.
  destruct (Ascii.eqb a c); [done |].
  destruct (Strs.IndexByte s c); [done |]. by rewrite IH.
Qed.

(** No piece of a split holds the separator. *)
Lemma splitGo_pieces (sep : ascii) (s : string) :
  forall cur,
    Strs.IndexByte (String.rev cur) sep = None ->
    Forall (fun l => Strs.IndexByte l sep = None) (Strs.splitGo sep cur s).
Proof.
  induction s as [|a s IH]; intros cur Hcur; simpl.
  - by apply Forall_singleton.
  - destruct (Ascii.eqb a sep) eqn:Ha.
    + apply Forall_cons. split; [done | by apply IH].
    + apply IH. rewrite rev_cons. apply IndexByte_app_None; [done |].
      simpl. by rewrite Ha.
Qed.

Lemma Split_pieces (s : string) (sep : ascii) :
  Forall (fun l => Strs.IndexByte l sep = None) (Strs.Split s sep).
Proof. by apply splitGo_pieces. Qed.

(** Splitting what starts with a piece gives the piece first. *)
Lemma splitGo_piece (sep : ascii) (x : string) :
  Strs.IndexByte x sep = None ->
  forall cur,
    Strs.splitGo sep cur x = [String.rev cur +:+ x]
    /\ forall rest,
         Strs.splitGo sep cur (x +:+ String sep rest)
         = (String.rev cur +:+ x) :: Strs.splitGo sep EmptyString rest.
Proof.
  induction x as [|a x IH]; intros Hx cur.
  - rewrite append_nil_r. split; [done |]. intros rest.
    change (EmptyString +:+ String sep rest) with (String sep rest).
    simpl. by rewrite Ascii.eqb_refl.
  - simpl in Hx. destruct (Ascii.eqb a sep) eqn:Ha; [done |].
    destruct (Strs.IndexByte x sep) eqn:Hx'; [done |].
    destruct (IH eq_refl (String a cur)) as [H1 H2].
    rewrite rev_cons, append_assoc in H1.
    change (String a EmptyString +:+ x) with (String a x) in H1.
    assert (H2' : forall rest,
              Strs.splitGo sep (String a cur) (x +:+ String sep rest)
              = (String.rev cur +:+ String a x)
                  :: Strs.splitGo sep EmptyString rest).
    { intros rest. rewrite H2, rev_cons, append_assoc. done. }
    split.
    + simpl. by rewrite Ha.
    + intros rest. rewrite append_cons. simpl. rewrite Ha. apply H2'.
Qed.

(** Joining pieces and splitting again gives the pieces back. *)
Lemma Split_Join (sep : ascii) (ls : list string) :
  ls <> [] -> Forall (fun l => Strs.IndexByte l sep = None) ls ->
  Strs.Split (Strs.Join ls (String sep EmptyString)) sep = ls.
Proof.
  unfold Strs.Split, Strs.Join.
  induction ls as [|x ls IH]; intros Hne Hall; [done |].
  apply Forall_cons in Hall as [Hx Hall].
  destruct ls as [|y ls].
  - simpl. by destruct (splitGo_piece sep x Hx EmptyString) as [-> _].
  - change (String.concat (String sep EmptyString) (x :: y :: ls))
      with (x +:+ String sep
                    (String.concat (String sep EmptyString) (y :: ls))).
    destruct (splitGo_piece sep x Hx EmptyString) as [_ ->].
    by rewrite IH.
Qed.

Lemma findLine_app (f : string -> bool) (pre rest : list string) :
  Forall (fun x => f x = false) pre ->
  forall from,
    findLine f from (pre ++ rest) = findLine f (from + length pre) rest.
Proof.
  induction pre as [|x pre IH]; intros Hpre from; simpl.
  - by rewrite Nat.add_0_r.
  - apply Forall_cons in Hpre as [-> Hpre]. rewrite IH by done.
    f_equal. lia.
Qed.

(** Where the search stops, the rest of the lines starts with a match. *)
Lemma findLine_drop (f : string -> bool) (ls : list string) :
  forall from,
    match findLine f from ls with
    | Some stop =>
      from <= stop
      /\ exists x rest, drop (stop - from) ls = x :: rest /\ f x = true
    | None => Forall (fun x => f x = false) ls
    end.
Proof.
  induction ls as [|x ls IH]; intros from; simpl; [done |].
  destruct (f x) eqn:Hx.
  - split; [done |]. exists x, ls. by rewrite Nat.sub_diag.
  - specialize (IH (S from)). destruct (findLine f (S from) ls) as [stop|].
    + destruct IH as (Hle & y & rest & Hdrop & Hy). split; [lia |].
      exists y, rest. split; [| done].
      replace (stop - from) with (S (stop - S from)) by lia. done.
    + by apply Forall_cons.
Qed.

(** The end of the section, as the second loop of [insertReadmeTable]
    finds it once the table is in place. *)
Lemma findLine_after_table (f : string -> bool) (lines table : list string)
    (start : nat) :
  start <= length lines ->
  Forall (fun x => f x = false) table ->
  let stop := default (length lines)
                (findLine f start (drop start lines)) in
  let lines' := take start lines ++ table ++ drop stop lines in
  take start lines' = take start lines
  /\ drop (default (length lines')
             (findLine f start (drop start lines'))) lines'
     = drop stop lines.
Proof.
  intros Hstart Htable stop lines'.
  assert (Hlen : length (take start lines) = start)
    by by apply length_take_le.
  split; [by apply take_app_length' |].
  assert (Hdrop : drop start lines' = table ++ drop stop lines)
    by by apply drop_app_length'.
  rewrite Hdrop, findLine_app by done.
  assert (Hstop : default (length lines')
                    (findLine f (start + length table) (drop stop lines))
                  = start + length table
                  /\ (drop stop lines = []
                      \/ length lines' = start + length table
                                         + length (drop stop lines))).
  { unfold stop.
    pose proof (findLine_drop f (drop start lines) start) as Hfind.
    destruct (findLine f start (drop start lines)) as [k|]; simpl.
    - destruct Hfind as (Hle & x & rest & Hx & Hfx).
      rewrite drop_drop in Hx.
      replace (start + (k - start)) with k in Hx by lia.
      rewrite Hx. simpl. rewrite Hfx. simpl. split; [done |]. right.
      unfold lines'. rewrite !length_app, Hlen.
      unfold stop. simpl. rewrite Hx. simpl. lia.
    - rewrite drop_all. simpl. split; [| by left].
      unfold lines', stop. simpl.
      by rewrite drop_all, app_nil_r, length_app, Hlen. }
  destruct Hstop as [-> _].
  unfold lines'. rewrite app_assoc.
  apply drop_app_length'. by rewrite length_app, Hlen.
Qed.

Lemma list_find_take {A} (P : A -> Prop) `{forall x, Decision (P x)}
    (l rest : list A) (i : nat) (x : A) :
  list_find P l = Some (i, x) ->
  list_find P (take (S i) l ++ rest) = Some (i, x).
Proof.
  intros (Hi & Hx & Hbefore)%list_find_Some.
  apply list_find_app_Some. left. apply list_find_Some.
  split; [by rewrite lookup_take_lt by lia |]. split; [done |].
  intros j y Hj Hlt. apply (Hbefore j y); [| done].
  by rewrite lookup_take_lt in Hj by lia.
Qed.

(** X18: updating the README is idempotent as long as no line of the
    rendered table looks like a heading of the level of the Parameters
    heading: the first update succeeds, and a second one right after it
    succeeds too and leaves every file, the README included, as the first
    one left it. *)
Theorem readme_update_idempotent (ext : Externals) (path : string)
    (secs : list ptr) (cfg : Config) (w : World) (raw : string)
    (reStart : string -> option string) (i : nat) (l : string) :
  files w !! path = Some raw ->
  titleRegexp ext (ParamsSectionTitle cfg) = Some reStart ->
  list_find (fun l => is_Some (reStart l)) (Strs.Split raw "010")
  = Some (i, l) ->
  (let h := default EmptyString (reStart l) +:+ "#" in
   Forall (fun x => MatchString (sameLevel (String.length h - 1)) x = false)
     (Strs.Split
        (renderReadmeTable ext w (omap (fun a => sections w !! a) secs) h)
        "010")) ->
  exists w1,
    insertReadmeTable ext path secs cfg w = (w1, Ret tt)
    /\ insertReadmeTable ext path secs cfg w1 = (w1, Ret tt).
Proof.
  intros Hraw Hre Hfind Htable. cbv zeta in Htable.
  set (h := default EmptyString (reStart l) +:+ "#") in *.
  set (lines := Strs.Split raw "010") in *.
  set (table := Strs.Split
                  (renderReadmeTable ext w
                     (omap (fun a => sections w !! a) secs) h) "010") in *.
  set (f := MatchString (sameLevel (String.length h - 1))) in *.
  set (stop := default (length lines)
                 (findLine f (S i) (drop (S i) lines))).
  set (newLines := take (S i) lines ++ table ++ drop stop lines).
  set (data := Strs.Join newLines (String "010" EmptyString)).
  assert (Hi : S i <= length lines).
  { apply list_find_Some in Hfind as (Hi & _). apply lookup_lt_Some in Hi.
    lia. }
  assert (Hfirst : insertReadmeTable ext path secs cfg w
                   = (setFiles (<[path := data]> (files w)) w, Ret tt)).
  { unfold insertReadmeTable, bind, ReadFile. rewrite Hraw, Hre.
    fold lines. rewrite Hfind. reflexivity. }
  exists (setFiles (<[path := data]> (files w)) w). split; [done |].
  assert (Hsplit : Strs.Split data "010" = newLines).
  { apply Split_Join.
    - unfold newLines. destruct lines; [simpl in Hi; lia | done].
    - unfold newLines. rewrite !Forall_app. split; [| split].
      + apply Forall_take, Split_pieces.
      + apply Split_pieces.
      + apply Forall_drop, Split_pieces. }
  destruct (findLine_after_table f lines table (S i) Hi Htable)
    as [Htake Hdrop].
  fold stop in Htake, Hdrop. fold newLines in Htake, Hdrop.
  unfold insertReadmeTable, bind, ReadFile.
  cbn [files setFiles]. rewrite lookup_insert_eq, Hre, Hsplit.
  unfold newLines at 1. rewrite (list_find_take _ _ _ _ _ Hfind).
  fold h. fold f. cbn [sections setFiles].
  change (renderReadmeTable ext (setFiles (<[path:=data]> (files w)) w))
    with (renderReadmeTable ext w).
  fold table. rewrite Htake, Hdrop. fold newLines. fold data.
  unfold WriteFile, setFiles. cbn [files params sections stdout].
  by rewrite insert_insert_eq.
Qed.

Lemma readme_update_idempotent_witness :
  let w := setSections [{| SecName := "Main"; DescriptionLines := [];
                           SecParameters := [0] |}]
             (setParams [withValue (VInt 1) (NewParameter "port")]
                (exampleWorld EmptyString)) in
  exists w1,
    insertReadmeTable (exampleExt VNil) "README.md" [0] defaultConfig w
    = (w1, Ret tt)
    /\ insertReadmeTable (exampleExt VNil) "README.md" [0] defaultConfig w1
       = (w1, Ret tt).
Proof.
  intros w.
  apply (readme_update_idempotent (exampleExt VNil) "README.md" [0]
           defaultConfig w
           ("# Chart" +:+ lf +:+ "## Parameters" +:+ lf +:+ "old" +:+ lf
            +:+ "## License")
           (fun l => if Strs.HasPrefix l ("## " +:+ "Parameters")
                     then Some "##" else None)
           1 "## Parameters").
  - reflexivity.
  - reflexivity.
  - vm_compute. reflexivity.
  - refine (bool_decide_eq_true_1 (Forall _ _) _). vm_compute. reflexivity.
Defined.
